(** * A shallow embedding of [src/import/import.py]

    The importer reads ridges, summits, users and climbs from a relational
    source, writes one YAML document per summit, queues image transfers for
    an S3-compatible object store and mirrors users and climbs into SQLite.

    Layout of the development:
    - [Py]        exceptions, results and the [str] methods the code calls;
    - [Point]     [cast_point], the POINT type caster;
    - [Uploader]  [upload_image] and [upload_images_bulk] over an abstract
                  object store, with the interleavings [asyncio.gather] allows;
    - [Summits]   [gen_image_key], [import_ridges] and [import_summits];
    - [Mirror]    [import_users] and [import_climbs] over the SQLite tables;
    - [Binary64]  IEEE-754 doubles, with [float()] and [round()] on them;
    - [Scenario]  the end-to-end run on one ridge and one summit. *)

From Stdlib Require Import ZArith Ascii String List Lia.
From Stdlib Require Import Floats.SpecFloat.
From stdpp Require Import base option list strings pretty gmap.

Set Warnings "-clear-no-such-hyp".

Open Scope Z_scope.
Open Scope nat_scope.

(* ===================================================================== *)
(** * Python values the importer handles *)
(* ===================================================================== *)

Module Py.

(** The exceptions that can leave the functions of [import.py].
    [InterfaceError fmt arg] is [psycopg2.InterfaceError(fmt % arg)];
    [ClientError code] is botocore's [ClientError] whose
    [response["Error"]["Code"]] is [code]; [OtherError name] stands for any
    exception that is not a [ClientError] (a connection failure, say). *)
Inductive exn : Type :=
  | ValueError
  | TypeError
  | AttributeError
  | FileNotFoundError
  | FileExistsError
  | InterfaceError (fmt arg : string)
  | ClientError (code : string)
  | OtherError (name : string).

#[global] Instance exn_eq_dec : EqDecision exn.
Proof. solve_decision. Defined.

(** A computation either returns or raises. *)
Inductive result (A : Type) : Type :=
  | Ok (a : A)
  | Raise (e : exn).
Arguments Ok {A} a.
Arguments Raise {A} e.

#[global] Instance result_ret : MRet result := λ A a, Ok a.

#[global] Instance result_bind : MBind result := λ A B k r,
  match r with
  | Ok a => k a
  | Raise e => Raise e
  end.

Definition raised {A} (r : result A) : Prop :=
  match r with Ok _ => False | Raise _ => True end.

(** A nullable SQL column as psycopg2 hands it over: [None], a [str] or an
    [int]. *)
Inductive sqlval : Type :=
  | SNull
  | SText (s : string)
  | SInt (n : Z).

#[global] Instance sqlval_eq_dec : EqDecision sqlval.
Proof. solve_decision. Defined.

(** [str(v)], as an f-string formats a value. *)
Definition str (v : sqlval) : string :=
  match v with
  | SNull => "None"
  | SText s => s
  | SInt n => pretty n
  end.

(** [s.lstrip(chars)], [s.rstrip(chars)] and [s.strip(chars)]. *)
Definition in_chars (chars : list ascii) (c : ascii) : bool :=
  bool_decide (c ∈ chars).

Fixpoint lstrip (chars : list ascii) (s : string) : string :=
  match s with
  | EmptyString => EmptyString
  | String c s' => if in_chars chars c then lstrip chars s' else s
  end.

Definition rstrip (chars : list ascii) (s : string) : string :=
  String.rev (lstrip chars (String.rev s)).

Definition strip (chars : list ascii) (s : string) : string :=
  rstrip chars (lstrip chars s).

(** [s.split(sep)] for a one-character separator: never the empty list. *)
Fixpoint split (sep : ascii) (s : string) : list string :=
  match s with
  | EmptyString => [EmptyString]
  | String c s' =>
      if decide (c = sep) then EmptyString :: split sep s'
      else match split sep s' with
           | [] => [String c EmptyString]
           | w :: ws => String c w :: ws
           end
  end.

(** [s.replace(old, new)] for one-character [old] and [new]. *)
Fixpoint replace (old new : ascii) (s : string) : string :=
  match s with
  | EmptyString => EmptyString
  | String c s' => String (if decide (c = old) then new else c) (replace old new s')
  end.

(** A local path [Path(dir) / name]. *)
Record path : Type := Path { path_dir : string; path_name : string }.

#[global] Instance path_eq_dec : EqDecision path.
Proof. solve_decision. Defined.

(** [Path(dir) / name] raises [TypeError] when [name] is [None]. *)
Definition path_join (dir : string) (name : option string) : result path :=
  match name with
  | Some n => Ok (Path dir n)
  | None => Raise TypeError
  end.

(** ** Strings as lists of characters *)

Abbreviation chars := list_ascii_of_string.

Lemma chars_app s t : chars (s +:+ t) = chars s ++ chars t.
Proof. induction s as [|a s IH]; [done|]. cbn. by rewrite <- IH. Qed.

Lemma chars_inj s t : chars s = chars t → s = t.
Proof.
  intros H. rewrite <- (string_of_list_ascii_of_string s), <- (string_of_list_ascii_of_string t).
  by rewrite H.
Qed.

Lemma append_assoc s t u : (s +:+ t) +:+ u = s +:+ (t +:+ u).
Proof. apply chars_inj. by rewrite !chars_app, app_assoc. Qed.

Lemma chars_rev_app s acc : chars (String.rev_app s acc) = reverse (chars s) ++ chars acc.
Proof.
  revert acc. induction s as [|a s IH]; intros acc; [done|].
  change (chars (String.rev_app s (String a acc)) = reverse (a :: chars s) ++ chars acc).
  rewrite IH, reverse_cons, <- app_assoc. done.
Qed.

Lemma chars_rev s : chars (String.rev s) = reverse (chars s).
Proof. unfold String.rev. rewrite chars_rev_app. cbn. by rewrite app_nil_r. Qed.

Lemma chars_lstrip_keep cs s :
  match chars s with [] => True | a :: _ => a ∉ cs end → lstrip cs s = s.
Proof.
  destruct s as [|a s]; [done|]. cbn. intros Ha. unfold in_chars.
  by rewrite bool_decide_eq_false_2.
Qed.

Lemma lstrip_drop cs a s : a ∈ cs → lstrip cs (String a s) = lstrip cs s.
Proof. intros Ha. cbn. unfold in_chars. by rewrite bool_decide_eq_true_2. Qed.

Lemma rev_append s t : String.rev (s +:+ t) = String.rev t +:+ String.rev s.
Proof. apply chars_inj. by rewrite chars_app, !chars_rev, chars_app, reverse_app. Qed.

Lemma rev_involutive s : String.rev (String.rev s) = s.
Proof. apply chars_inj. by rewrite !chars_rev, reverse_involutive. Qed.

(** Stripping takes away a run of the given characters, and stops at the
    first character that is not one of them. *)
Lemma lstrip_run cs l s : Forall (λ c, c ∈ cs) (chars l) → lstrip cs (l +:+ s) = lstrip cs s.
Proof.
  induction l as [|a l IH]; [done|]. cbn [chars list_ascii_of_string].
  intros [Ha Hl]%Forall_cons_1. change (String a l +:+ s) with (String a (l +:+ s)).
  rewrite lstrip_drop by done. by apply IH.
Qed.

Lemma rstrip_run cs s r : Forall (λ c, c ∈ cs) (chars r) → rstrip cs (s +:+ r) = rstrip cs s.
Proof.
  intros Hr. unfold rstrip. rewrite rev_append, lstrip_run; [done|].
  rewrite chars_rev. by apply Forall_reverse.
Qed.

Lemma rstrip_keep cs s c : last (chars s) = Some c → c ∉ cs → rstrip cs s = s.
Proof.
  intros Hlast Hc. unfold rstrip. rewrite chars_lstrip_keep; [apply rev_involutive|].
  rewrite chars_rev. rewrite <- head_reverse in Hlast.
  destruct (reverse (chars s)); [done|]. by injection Hlast as ->.
Qed.

Lemma strip_between cs l m r c c' :
  Forall (λ c, c ∈ cs) (chars l) → Forall (λ c, c ∈ cs) (chars r) →
  head (chars m) = Some c → c ∉ cs → last (chars m) = Some c' → c' ∉ cs →
  strip cs (l +:+ m +:+ r) = m.
Proof.
  intros Hl Hr Hhd Hc Hlast Hc'. unfold strip. rewrite lstrip_run by done.
  rewrite chars_lstrip_keep.
  - rewrite rstrip_run by done. by eapply rstrip_keep.
  - rewrite chars_app. destruct (chars m); [done|]. by injection Hhd as ->.
Qed.

(** Splitting cuts at every separator. *)
Lemma split_none sep s : sep ∉ chars s → split sep s = [s].
Proof.
  induction s as [|a s IH]; [done|]. cbn [chars list_ascii_of_string].
  intros [Ha Hs]%not_elem_of_cons. cbn [split]. rewrite decide_False by done.
  by rewrite IH.
Qed.

Lemma split_at sep s t :
  sep ∉ chars s → split sep (s +:+ String sep t) = s :: split sep t.
Proof.
  induction s as [|a s IH]; cbn [chars list_ascii_of_string].
  - intros _. change ("" +:+ String sep t) with (String sep t). cbn [split].
    by rewrite decide_True.
  - intros [Ha Hs]%not_elem_of_cons.
    change (String a s +:+ String sep t) with (String a (s +:+ String sep t)).
    cbn [split]. rewrite decide_False by done. by rewrite IH.
Qed.

(** How often a character occurs in a text. *)
Definition occurrences (a : ascii) (s : string) : nat :=
  length (filter (λ c, c = a) (chars s)).

Lemma split_length sep s : length (split sep s) = S (occurrences sep s).
Proof.
  unfold occurrences. induction s as [|a s IH]; [done|].
  cbn [chars list_ascii_of_string split]. case_decide as Ha.
  - rewrite filter_cons_True by done. simpl. by rewrite IH.
  - rewrite filter_cons_False by done. destruct (split sep s); [done|]. by rewrite <- IH.
Qed.

Lemma lstrip_occurrences cs a s : a ∉ cs → occurrences a (lstrip cs s) = occurrences a s.
Proof.
  intros Ha. unfold occurrences. induction s as [|c s IH]; [done|].
  cbn [lstrip]. unfold in_chars. case_bool_decide as Hc; [|done].
  cbn [chars list_ascii_of_string]. rewrite filter_cons_False; [done|]. by intros ->.
Qed.

Lemma rev_occurrences a s : occurrences a (String.rev s) = occurrences a s.
Proof. unfold occurrences. by rewrite chars_rev, filter_reverse, length_reverse. Qed.

Lemma strip_occurrences cs a s : a ∉ cs → occurrences a (strip cs s) = occurrences a s.
Proof.
  intros Ha. unfold strip, rstrip.
  by rewrite rev_occurrences, lstrip_occurrences, rev_occurrences, lstrip_occurrences.
Qed.

(** The characters of a decimal numeral. *)
Definition is_digit (a : ascii) : Prop := is_Some (Ascii.is_nat a).

Lemma pretty_N_char_digit x : is_digit (pretty_N_char x).
Proof. unfold is_digit, pretty_N_char. repeat case_match; by eexists. Qed.

Lemma pretty_N_go_digits x s :
  Forall is_digit (chars s) → Forall is_digit (chars (pretty_N_go x s)).
Proof.
  revert s. induction (N.lt_wf_0 x) as [x _ IH]; intros s Hs.
  assert (x = 0 ∨ 0 < x)%N as [->|?] by lia.
  - by rewrite pretty_N_go_0.
  - rewrite pretty_N_go_step by done. apply IH; [by apply N.div_lt|].
    cbn. constructor; [apply pretty_N_char_digit|done].
Qed.

Lemma pretty_nat_digits (n : nat) : Forall is_digit (chars (pretty n)).
Proof.
  unfold pretty, pretty_nat, pretty, pretty_N. case_decide.
  - cbn. constructor; [by eexists|constructor].
  - apply pretty_N_go_digits. constructor.
Qed.

Lemma pretty_N_digits (n : N) : Forall is_digit (chars (pretty n)).
Proof.
  unfold pretty, pretty_N. case_decide.
  - cbn. constructor; [by eexists|constructor].
  - apply pretty_N_go_digits. constructor.
Qed.

Lemma digits_no_underscore l : Forall is_digit l → "_"%char ∉ l.
Proof.
  intros H Hin. eapply (proj1 (Forall_forall _ _) H) in Hin. by destruct Hin.
Qed.

Lemma pretty_Z_no_underscore (z : Z) : "_"%char ∉ chars (pretty z).
Proof.
  destruct z as [|p|p]; unfold pretty, pretty_Z.
  - cbn. set_solver.
  - apply digits_no_underscore, pretty_N_digits.
  - rewrite chars_app. cbn. apply not_elem_of_cons. split; [done|].
    apply digits_no_underscore, pretty_N_digits.
Qed.

End Py.

Import Py.

(* ===================================================================== *)
(** * [cast_point]: the POINT type caster *)
(* ===================================================================== *)

Module Point.

Section Caster.

(** Python's [float] type with the two builtins [cast_point] calls:
    [float(s)], which raises [ValueError] ([None] here) on text that is not
    a number, and [round(c, ndigits)]. *)
Variable F : Type.
Variable py_float : string -> option F.
Variable py_round : F -> Z -> F.

(** [float(s)] as a computation. *)
Definition to_float (s : string) : result F :=
  match py_float s with
  | Some c => Ok c
  | None => Raise ValueError
  end.

(** [value.strip("()").split(",")] *)
Definition components (value : string) : list string :=
  split "," (strip ["("; ")"]%char value).

(** [[round(c, 4) for c in map(float, parts)]]: the components are converted
    from left to right, and the first that is not a number raises. *)
Fixpoint rounded (parts : list string) : result (list F) :=
  match parts with
  | [] => Ok []
  | p :: ps =>
      c ← to_float p ;
      cs ← rounded ps ;
      Ok (py_round c 4 :: cs)
  end.

(** [x, y = ...]: unpacking anything but two values raises [ValueError]. *)
Definition unpack2 (cs : list F) : result (F * F) :=
  match cs with
  | [x; y] => Ok (x, y)
  | _ => Raise ValueError
  end.

(** The body of the [try]. *)
Definition parse_point (value : string) : result (F * F) :=
  cs ← rounded (components value) ;
  unpack2 cs.

Definition bad_point (value : string) : exn :=
  InterfaceError "bad point representation: %r" value.

(** [cast_point(value, cur)]; the cursor argument is not used. *)
Definition cast_point (value : option string) : result (option (F * F)) :=
  match value with
  | None => Ok None
  | Some v =>
      match parse_point v with
      | Ok xy => Ok (Some xy)
      | Raise ValueError => Raise (bad_point v)
      | Raise e => Raise e
      end
  end.

(** The text splits into exactly two components that [float] accepts. *)
Definition two_floats (value : string) : Prop :=
  ∃ a b x y, components value = [a; b] ∧ py_float a = Some x ∧ py_float b = Some y.

Lemma rounded_Ok_inv parts cs :
  rounded parts = Ok cs →
  Forall2 (λ p c, ∃ x, py_float p = Some x ∧ c = py_round x 4) parts cs.
Proof.
  revert cs. induction parts as [|p ps IH]; intros cs H; simpl in H.
  - injection H as <-. constructor.
  - unfold to_float in H. destruct (py_float p) as [x|] eqn:Hp; [|discriminate].
    simpl in H. destruct (rounded ps) as [cs'|e] eqn:Hps; [|discriminate].
    simpl in H. injection H as <-. constructor; eauto.
Qed.

Lemma rounded_raises_ValueError parts e :
  rounded parts = Raise e → e = ValueError.
Proof.
  induction parts as [|p ps IH]; simpl; [discriminate|].
  unfold to_float. destruct (py_float p); simpl; [|congruence].
  destruct (rounded ps); simpl; [discriminate|]. intros [= <-]. by apply IH.
Qed.

Lemma parse_point_raises_ValueError value e :
  parse_point value = Raise e → e = ValueError.
Proof.
  unfold parse_point. destruct (rounded (components value)) as [cs|e'] eqn:Hr; simpl.
  - destruct cs as [|x [|y [|z cs]]]; simpl; congruence.
  - intros [= <-]. by eapply rounded_raises_ValueError.
Qed.

Lemma parse_point_two_floats value a b x y :
  components value = [a; b] → py_float a = Some x → py_float b = Some y →
  parse_point value = Ok (py_round x 4, py_round y 4).
Proof.
  intros Hc Ha Hb. unfold parse_point. rewrite Hc. simpl.
  unfold to_float. by rewrite Ha, Hb.
Qed.

Lemma parse_point_Ok_inv value xy :
  parse_point value = Ok xy → two_floats value.
Proof.
  unfold parse_point, two_floats.
  destruct (rounded (components value)) as [cs|e] eqn:Hr; simpl; [|discriminate].
  apply rounded_Ok_inv in Hr.
  destruct cs as [|x [|y [|z cs]]]; simpl; try discriminate. intros _.
  inversion Hr as [|a ? ps ? (x0 & Ha & _) Hr']; subst.
  inversion Hr' as [|b ? ps' ? (y0 & Hb & _) Hr'']; subst.
  inversion Hr''; subst. eauto 10.
Qed.

(** ** Text between parentheses *)

Lemma components_between l r a b :
  Forall (λ c, c ∈ ["("; ")"]%char) (chars l) →
  Forall (λ c, c ∈ ["("; ")"]%char) (chars r) →
  Forall (λ c, c ∉ [","; "("; ")"]%char) (chars a) →
  Forall (λ c, c ∉ [","; "("; ")"]%char) (chars b) →
  components (l +:+ (a +:+ "," +:+ b) +:+ r) = [a; b].
Proof.
  intros Hl Hr Ha Hb. unfold components.
  assert (Hsep : ∀ s, Forall (λ c, c ∉ [","; "("; ")"]%char) (chars s) → ","%char ∉ chars s).
  { intros s Hs Hin. apply (proj1 (Forall_forall _ _) Hs) in Hin. set_solver. }
  assert (Hpar : ∀ s c, Forall (λ c, c ∉ [","; "("; ")"]%char) (chars s) → c ∈ chars s →
                   c ∉ ["("; ")"]%char).
  { intros s c Hs Hin. apply (proj1 (Forall_forall _ _) Hs) in Hin. set_solver. }
  assert (Hcomma : ","%char ∉ ["("; ")"]%char) by set_solver.
  assert (∃ c, head (chars (a +:+ "," +:+ b)) = Some c ∧ c ∉ ["("; ")"]%char)
    as (c & Hhd & Hc).
  { rewrite chars_app. destruct (chars a) as [|c ca] eqn:Hca.
    - by exists ","%char.
    - exists c. split; [done|]. apply (Hpar a); rewrite Hca; [done|by left]. }
  assert (∃ c, last (chars (a +:+ "," +:+ b)) = Some c ∧ c ∉ ["("; ")"]%char)
    as (c' & Hlast & Hc').
  { rewrite !chars_app, app_assoc, last_app.
    destruct (last (chars b)) as [c'|] eqn:Hcb.
    - exists c'. split; [done|]. apply (Hpar b); [done|].
      apply last_Some in Hcb as [pre ->]. apply elem_of_app. right. by left.
    - exists ","%char. split; [|done]. by rewrite last_app. }
  rewrite (strip_between _ l _ r c c') by done.
  change ("," +:+ b) with (String "," b).
  rewrite split_at by auto. by rewrite split_none by auto.
Qed.

(** ** C6 *)

Lemma components_length v : length (components v) = S (occurrences "," v).
Proof. unfold components. rewrite split_length, strip_occurrences; [done|set_solver]. Qed.

Lemma cast_point_rejects v : ¬ two_floats v → cast_point (Some v) = Raise (bad_point v).
Proof.
  intros Hn. unfold cast_point. destruct (parse_point v) as [xy|e] eqn:Hp.
  - destruct Hn. by eapply parse_point_Ok_inv.
  - apply parse_point_raises_ValueError in Hp. by subst e.
Qed.

(** C6. The decoder maps an absent input to an absent value; a text whose
    two components are both accepted by [float] to the pair of the
    components, each rounded to 4 decimals; and it raises
    [InterfaceError] (the malformed-coordinate error), and only that,
    exactly when the text does not split into two such components. The
    components are what stands between the commas once the parentheses at
    both ends are dropped: one more than there are commas, and [a] and [b]
    for two texts [a] and [b], free of commas and parentheses, written
    with a comma between them and parentheses around them. So [(a,b)]
    decodes to the rounded pair when [float] accepts [a] and [b], and the
    decoder raises when [float] refuses one of them, and on every text
    that has no comma or more than one. *)
Theorem cast_point_cases :
  cast_point None = Ok None
  ∧ (∀ v a b x y,
        components v = [a; b] → py_float a = Some x → py_float b = Some y →
        cast_point (Some v) = Ok (Some (py_round x 4, py_round y 4)))
  ∧ (∀ v, cast_point (Some v) = Raise (bad_point v) ↔ ¬ two_floats v)
  ∧ (∀ v e, cast_point (Some v) = Raise e → e = bad_point v)
  ∧ (∀ v, length (components v) = S (occurrences "," v))
  ∧ (∀ l r a b,
        Forall (λ c, c ∈ ["("; ")"]%char) (chars l) →
        Forall (λ c, c ∈ ["("; ")"]%char) (chars r) →
        Forall (λ c, c ∉ [","; "("; ")"]%char) (chars a) →
        Forall (λ c, c ∉ [","; "("; ")"]%char) (chars b) →
        components (l +:+ (a +:+ "," +:+ b) +:+ r) = [a; b])
  ∧ (∀ a b x y,
        Forall (λ c, c ∉ [","; "("; ")"]%char) (chars a) →
        Forall (λ c, c ∉ [","; "("; ")"]%char) (chars b) →
        py_float a = Some x → py_float b = Some y →
        cast_point (Some ("(" +:+ (a +:+ "," +:+ b) +:+ ")"))
          = Ok (Some (py_round x 4, py_round y 4)))
  ∧ (∀ a b,
        Forall (λ c, c ∉ [","; "("; ")"]%char) (chars a) →
        Forall (λ c, c ∉ [","; "("; ")"]%char) (chars b) →
        py_float a = None ∨ py_float b = None →
        cast_point (Some ("(" +:+ (a +:+ "," +:+ b) +:+ ")"))
          = Raise (bad_point ("(" +:+ (a +:+ "," +:+ b) +:+ ")")))
  ∧ (∀ v, occurrences "," v ≠ 1 → cast_point (Some v) = Raise (bad_point v)).
Proof.
  assert (Hparen : Forall (λ c, c ∈ ["("; ")"]%char) (chars "(")
                   ∧ Forall (λ c, c ∈ ["("; ")"]%char) (chars ")")).
  { split; (constructor; [set_solver|constructor]). }
  destruct Hparen as [Hopen Hclose].
  split; [reflexivity|]. split_and!.
  - intros v a b x y Hc Ha Hb. unfold cast_point.
    by rewrite (parse_point_two_floats v a b x y).
  - intros v. split; [|apply cast_point_rejects].
    unfold cast_point. destruct (parse_point v) as [xy|e] eqn:Hp; [discriminate|].
    intros _ (a & b & x & y & Hc & Ha & Hb).
    rewrite (parse_point_two_floats v a b x y) in Hp by done. discriminate.
  - intros v e. unfold cast_point.
    destruct (parse_point v) as [xy|e'] eqn:Hp; [discriminate|].
    apply parse_point_raises_ValueError in Hp. subst e'. congruence.
  - apply components_length.
  - intros l r a b. apply components_between.
  - intros a b x y Ha Hb Hx Hy. unfold cast_point.
    by rewrite (parse_point_two_floats _ a b x y) by (by try apply components_between).
  - intros a b Ha Hb Hnone. apply cast_point_rejects.
    intros (a' & b' & x & y & Hc & Hx & Hy).
    rewrite components_between in Hc by done. injection Hc as <- <-.
    destruct Hnone; congruence.
  - intros v Hocc. apply cast_point_rejects.
    intros (a & b & x & y & Hc & _). apply (f_equal length) in Hc.
    rewrite components_length in Hc. simpl in Hc. lia.
Qed.

(** X16. The decoder drops any run of parentheses at either end of the
    text, balanced or not, before it splits at the comma: two numerals free
    of commas and parentheses decode to their rounded pair whatever
    parentheses surround them, so [(1,2)], [1,2] and [((1,2] decode alike. *)
Theorem cast_point_parenthesised l r a b x y :
  Forall (λ c, c ∈ ["("; ")"]%char) (chars l) →
  Forall (λ c, c ∈ ["("; ")"]%char) (chars r) →
  Forall (λ c, c ∉ [","; "("; ")"]%char) (chars a) →
  Forall (λ c, c ∉ [","; "("; ")"]%char) (chars b) →
  py_float a = Some x → py_float b = Some y →
  cast_point (Some (l +:+ (a +:+ "," +:+ b) +:+ r))
    = Ok (Some (py_round x 4, py_round y 4)).
Proof.
  intros Hl Hr Ha Hb Hx Hy. unfold cast_point.
  by rewrite (parse_point_two_floats _ a b x y) by (by try apply components_between).
Qed.

(** X17. The decoder never accepts a text that has no comma, or more
    than one: when it returns a pair, the text holds exactly one comma. *)
Theorem cast_point_one_comma v xy :
  cast_point (Some v) = Ok (Some xy) → occurrences "," v = 1.
Proof.
  unfold cast_point. destruct (parse_point v) as [xy'|e] eqn:Hp; [|by destruct e].
  intros _. apply parse_point_Ok_inv in Hp as (a & b & x & y & Hc & _).
  apply (f_equal length) in Hc. unfold components in Hc.
  rewrite split_length, strip_occurrences in Hc by set_solver. simpl in Hc. lia.
Qed.

End Caster.

End Point.

(* ===================================================================== *)
(** * The uploader: [upload_image] and [upload_images_bulk] *)
(* ===================================================================== *)

Module Uploader.

Definition S3_BUCKET : string := "302f9aa7-62c4d4d3-ccfd-4077-86c8-cca52e0da376".

(** One element of [images]: [(path, key)]. *)
Abbreviation task := (path * string)%type.

Definition keys (images : list task) : list string := images.*2.

(** The requests the client sends. [UploadFile] carries the
    [ExtraArgs["ContentType"]] of the call. *)
Inductive call : Type :=
  | HeadObject (bucket key : string)
  | UploadFile (file : path) (bucket key content_type : string).

(** The object store behind the aioboto3 client: what [head_object] answers
    in a given state of the store, and what [upload_file] does to it. *)
Record client (store : Type) : Type := Client {
  head_object : store → string → string → result unit;
  upload_file : store → path → string → string → string → store * result unit
}.
Arguments head_object {store} _ _ _ _.
Arguments upload_file {store} _ _ _ _ _ _.

(** The keys of the [upload_file] calls of a trace, in order. *)
Definition put_keys (calls : list call) : list string :=
  omap (λ c, match c with UploadFile _ _ k _ => Some k | HeadObject _ _ => None end) calls.

Section Uploads.

Context {store : Type} (c : client store).

(** [upload_image(client, image_path, image_name)] run without
    interruption: the final store, the requests sent and the outcome.
    The [print] calls are left out. *)
Definition upload_image (image_path : path) (image_name : string) (st : store)
  : store * list call * result unit :=
  let probe := HeadObject S3_BUCKET image_name in
  match head_object c st S3_BUCKET image_name with
  | Ok _ => (st, [probe], Ok ())
  | Raise (ClientError code) =>
      if decide (code = "404") then
        let '(st', r) := upload_file c st image_path S3_BUCKET image_name "image/jpeg" in
        (st', [probe; UploadFile image_path S3_BUCKET image_name "image/jpeg"], r)
      else (st, [probe], Raise (ClientError code))
  | Raise e => (st, [probe], Raise e)
  end.

(** ** [upload_images_bulk]

    [asyncio.gather] runs one [sem_upload] coroutine per task. A coroutine
    can be suspended at its three [await]s: entering [async with sem],
    [head_object] and [upload_file]. Between two awaits it runs alone. *)
Inductive tstate : Type :=
  | Waiting            (* not yet inside [async with sem] *)
  | Probing            (* holds the semaphore, awaits [head_object] *)
  | Putting            (* holds the semaphore, awaits [upload_file] *)
  | Existed            (* returned after "Image exists" *)
  | Uploaded           (* returned after "Uploaded" *)
  | Failed (e : exn)   (* raised [e] *)
  | Cancelled.         (* cancelled by the event loop *)

#[global] Instance tstate_eq_dec : EqDecision tstate.
Proof. solve_decision. Defined.

Definition holds_sem (s : tstate) : bool :=
  match s with Probing | Putting => true | _ => false end.

Definition terminal (s : tstate) : bool :=
  match s with Waiting | Probing | Putting => false | _ => true end.

(** [asyncio.Semaphore(10)] *)
Definition SEM_LIMIT : nat := 10.

Record config : Type := Config {
  cfg_store : store;
  cfg_tasks : list tstate;
  cfg_calls : list call;
  (* the exception [gather] has set on its future: the first one raised *)
  cfg_error : option exn
}.

Definition active (ts : list tstate) : nat := length (filter (λ s, holds_sem s = true) ts).

Definition fail (e : exn) (err : option exn) : option exn :=
  match err with Some e0 => Some e0 | None => Some e end.

(** Task [i] runs from its current await to the next one. A request is
    recorded, and acts on the store, when its answer arrives. *)
Definition step (images : list task) (cfg : config) (i : nat) : config :=
  match images !! i, cfg_tasks cfg !! i with
  | Some (file, key), Some Waiting =>
      if decide (active (cfg_tasks cfg) < SEM_LIMIT)
      then Config (cfg_store cfg) (<[i := Probing]> (cfg_tasks cfg)) (cfg_calls cfg) (cfg_error cfg)
      else cfg
  | Some (file, key), Some Probing =>
      let calls := cfg_calls cfg ++ [HeadObject S3_BUCKET key] in
      match head_object c (cfg_store cfg) S3_BUCKET key with
      | Ok _ =>
          Config (cfg_store cfg) (<[i := Existed]> (cfg_tasks cfg)) calls (cfg_error cfg)
      | Raise (ClientError code) =>
          if decide (code = "404")
          then Config (cfg_store cfg) (<[i := Putting]> (cfg_tasks cfg)) calls (cfg_error cfg)
          else Config (cfg_store cfg) (<[i := Failed (ClientError code)]> (cfg_tasks cfg)) calls
                 (fail (ClientError code) (cfg_error cfg))
      | Raise e =>
          Config (cfg_store cfg) (<[i := Failed e]> (cfg_tasks cfg)) calls (fail e (cfg_error cfg))
      end
  | Some (file, key), Some Putting =>
      let calls := cfg_calls cfg ++ [UploadFile file S3_BUCKET key "image/jpeg"] in
      match upload_file c (cfg_store cfg) file S3_BUCKET key "image/jpeg" with
      | (st', Ok _) => Config st' (<[i := Uploaded]> (cfg_tasks cfg)) calls (cfg_error cfg)
      | (st', Raise e) => Config st' (<[i := Failed e]> (cfg_tasks cfg)) calls (fail e (cfg_error cfg))
      end
  | _, _ => cfg
  end.

(** A schedule names, step by step, the task that runs next. *)
Definition run (images : list task) (sched : list nat) (cfg : config) : config :=
  foldl (step images) cfg sched.

Definition init (images : list task) (st : store) : config :=
  Config st (replicate (length images) Waiting) [] None.

(** How [await asyncio.gather(...)] under [asyncio.run] ends. With
    [return_exceptions] left at [False], the first exception raised by a
    task is propagated at once to the caller, and [asyncio.run] cancels the
    tasks that are still pending when it shuts the loop down. Without an
    exception [gather] returns when every task has returned. *)
Inductive outcome : Type :=
  | Returned
  | Raised (e : exn)
  | Pending.   (* the schedule stops before the uploader does *)

Definition cancel (s : tstate) : tstate := if terminal s then s else Cancelled.

Record bulk_result : Type := BulkResult {
  res_store : store;
  res_tasks : list tstate;
  res_calls : list call;
  res_outcome : outcome
}.

(** The end of the run. The steps a schedule takes after the first
    exception are what the other tasks still do before they are cancelled. *)
Definition finish (cfg : config) : bulk_result :=
  match cfg_error cfg with
  | Some e => BulkResult (cfg_store cfg) (cancel <$> cfg_tasks cfg) (cfg_calls cfg) (Raised e)
  | None =>
      BulkResult (cfg_store cfg) (cfg_tasks cfg) (cfg_calls cfg)
        (if forallb terminal (cfg_tasks cfg) then Returned else Pending)
  end.

(** [asyncio.run(upload_images_bulk(session, images))] under a schedule. *)
Definition upload_images_bulk (sched : list nat) (images : list task) (st : store) : bulk_result :=
  finish (run images sched (init images st)).

End Uploads.

Arguments config store : clear implicits.
Arguments bulk_result store : clear implicits.

(** A store in which a key exists exactly when it has been put: the set of
    the keys put so far. Every upload succeeds: every local file can be
    read ([reading], below, is the same store without that). *)
Definition ideal : client (gset string) := {|
  head_object st bucket key :=
    if decide (key ∈ st) then Ok () else Raise (ClientError "404");
  upload_file st file bucket key content_type := ({[key]} ∪ st, Ok ())
|}.

(** The same store, except that probing the key [bad] is refused. *)
Definition forbidding (bad : string) : client (gset string) := {|
  head_object st bucket key :=
    if decide (key = bad) then Raise (ClientError "403")
    else head_object ideal st bucket key;
  upload_file := upload_file ideal
|}.

(** The schedule that runs the tasks one after the other. *)
Definition one_by_one (n : nat) : list nat :=
  mjoin ((λ i, [i; i; i]) <$> seq 0 n).

(** ** What one step does *)

Section StepFacts.

Context {store : Type} (c : client store).

(** The keys of the tasks that reached [Uploaded]. *)
Fixpoint uploaded_keys (images : list task) (ts : list tstate) : list string :=
  match images, ts with
  | (_, k) :: images', s :: ts' =>
      if decide (s = Uploaded) then k :: uploaded_keys images' ts'
      else uploaded_keys images' ts'
  | _, _ => []
  end.

(** The equations of [step], by the state of the task that runs. *)
Lemma step_Waiting (images : list task) cfg i t :
  images !! i = Some t → cfg_tasks cfg !! i = Some Waiting →
  step c images cfg i =
    if decide (active (cfg_tasks cfg) < SEM_LIMIT)
    then Config (cfg_store cfg) (<[i := Probing]> (cfg_tasks cfg)) (cfg_calls cfg) (cfg_error cfg)
    else cfg.
Proof. unfold step. intros -> ->. by destruct t. Qed.

Lemma step_Probing (images : list task) cfg i file key :
  images !! i = Some (file, key) → cfg_tasks cfg !! i = Some Probing →
  step c images cfg i =
    let calls := cfg_calls cfg ++ [HeadObject S3_BUCKET key] in
    match head_object c (cfg_store cfg) S3_BUCKET key with
    | Ok _ => Config (cfg_store cfg) (<[i := Existed]> (cfg_tasks cfg)) calls (cfg_error cfg)
    | Raise e =>
        if decide (e = ClientError "404")
        then Config (cfg_store cfg) (<[i := Putting]> (cfg_tasks cfg)) calls (cfg_error cfg)
        else Config (cfg_store cfg) (<[i := Failed e]> (cfg_tasks cfg)) calls (fail e (cfg_error cfg))
    end.
Proof.
  unfold step. intros -> ->. simpl.
  destruct (head_object c (cfg_store cfg) S3_BUCKET key) as [[]|e]; [done|].
  destruct e; try (by rewrite decide_False by done).
  case_decide; subst.
  - by rewrite decide_True.
  - rewrite decide_False; [done|]. congruence.
Qed.

Lemma step_Putting (images : list task) cfg i file key :
  images !! i = Some (file, key) → cfg_tasks cfg !! i = Some Putting →
  step c images cfg i =
    let calls := cfg_calls cfg ++ [UploadFile file S3_BUCKET key "image/jpeg"] in
    match upload_file c (cfg_store cfg) file S3_BUCKET key "image/jpeg" with
    | (st', Ok _) => Config st' (<[i := Uploaded]> (cfg_tasks cfg)) calls (cfg_error cfg)
    | (st', Raise e) => Config st' (<[i := Failed e]> (cfg_tasks cfg)) calls (fail e (cfg_error cfg))
    end.
Proof. unfold step. by intros -> ->. Qed.

Lemma step_finished (images : list task) cfg i s :
  cfg_tasks cfg !! i = Some s → terminal s = true → step c images cfg i = cfg.
Proof.
  unfold step. intros -> Ht. destruct (images !! i) as [[file key]|]; [|done].
  by destruct s.
Qed.

Lemma step_out_of_range (images : list task) cfg i :
  images !! i = None ∨ cfg_tasks cfg !! i = None → step c images cfg i = cfg.
Proof.
  unfold step. intros [H|H].
  - by rewrite H.
  - destruct (images !! i) as [[file key]|]; [|done]. by rewrite H.
Qed.

(** A step leaves the configuration alone, or moves one task that was not
    finished to its next state; an exception is recorded when it raises. *)
Lemma step_cases images cfg i :
  step c images cfg i = cfg
  ∨ ∃ s s', cfg_tasks cfg !! i = Some s ∧ terminal s = false
      ∧ cfg_tasks (step c images cfg i) = <[i := s']> (cfg_tasks cfg)
      ∧ s' ≠ Cancelled
      ∧ ((cfg_error (step c images cfg i) = cfg_error cfg ∧ ∀ e, s' ≠ Failed e)
         ∨ ∃ e, s' = Failed e ∧ cfg_error (step c images cfg i) = fail e (cfg_error cfg)).
Proof.
  unfold step.
  destruct (images !! i) as [[file key]|]; [|by left].
  destruct (cfg_tasks cfg !! i) as [s|] eqn:Hs; [|by left].
  destruct s; try by left.
  - case_decide; [|by left]. right. exists Waiting, Probing. simpl. naive_solver.
  - right. exists Probing.
    destruct (head_object c (cfg_store cfg) S3_BUCKET key) as [[]|e].
    + exists Existed. simpl. naive_solver.
    + destruct e; try (eexists (Failed _); simpl; split_and!; eauto; done).
      case_decide.
      * exists Putting. simpl. naive_solver.
      * eexists (Failed _). simpl. split_and!; eauto; done.
  - right. exists Putting.
    destruct (upload_file c (cfg_store cfg) file S3_BUCKET key "image/jpeg") as [st' [[]|e]].
    + exists Uploaded. simpl. naive_solver.
    + eexists (Failed _). simpl. split_and!; eauto; done.
Qed.

(** The exception task [i] raises when it runs next, if it raises one. *)
Definition raised_by (images : list task) (cfg : config store) (i : nat) : option exn :=
  match cfg_tasks cfg !! i, cfg_tasks (step c images cfg i) !! i with
  | Some s, Some (Failed e) => if terminal s then None else Some e
  | _, _ => None
  end.

(** The exceptions the tasks raise under a schedule, in the order in which
    they are raised. *)
Fixpoint raised_along (images : list task) (sched : list nat) (cfg : config store)
  : list exn :=
  match sched with
  | [] => []
  | i :: sched' =>
      option_list (raised_by images cfg i) ++ raised_along images sched' (step c images cfg i)
  end.

Lemma step_error images cfg i :
  cfg_error (step c images cfg i) =
    match raised_by images cfg i with
    | Some e => fail e (cfg_error cfg)
    | None => cfg_error cfg
    end.
Proof.
  unfold raised_by.
  destruct (step_cases images cfg i) as [Heq|(s & s' & Hs & Ht & Hts & _ & Herr)].
  - rewrite Heq. destruct (cfg_tasks cfg !! i) as [s|]; [|done]. by destruct s.
  - rewrite Hs, Hts, list_lookup_insert_eq by (by eapply lookup_lt_Some). rewrite Ht.
    destruct Herr as [[Herr Hnf]|(e & -> & Herr)]; [|done].
    destruct s'; try done. by destruct (Hnf e).
Qed.

Lemma run_error images sched cfg :
  cfg_error (run c images sched cfg) =
    match cfg_error cfg with
    | Some e => Some e
    | None => head (raised_along images sched cfg)
    end.
Proof.
  revert cfg. induction sched as [|i sched IH]; intros cfg;
    [unfold run; simpl; by destruct (cfg_error cfg)|].
  unfold run in *. cbn [foldl raised_along]. rewrite IH, step_error.
  destruct (raised_by images cfg i) as [e|]; simpl; [|done].
  by destruct (cfg_error cfg).
Qed.

Lemma step_length images cfg i :
  length (cfg_tasks (step c images cfg i)) = length (cfg_tasks cfg).
Proof.
  destruct (step_cases images cfg i) as [->|(s & s' & _ & _ & -> & _)]; [done|].
  by rewrite length_insert.
Qed.

Lemma run_length images sched cfg :
  length (cfg_tasks (run c images sched cfg)) = length (cfg_tasks cfg).
Proof.
  revert cfg. induction sched as [|i sched IH]; intros cfg; [done|].
  unfold run in *. simpl. by rewrite IH, step_length.
Qed.

(** What [gather] has recorded agrees with the tasks: no task is cancelled
    while the schedule runs, the recorded exception is the one a failed
    task raised, and nothing is recorded while no task has failed. *)
Definition consistent (cfg : config store) : Prop :=
  (Cancelled ∉ cfg_tasks cfg)
  ∧ (match cfg_error cfg with
     | Some e => Failed e ∈ cfg_tasks cfg
     | None => ∀ e, Failed e ∉ cfg_tasks cfg
     end).

Lemma elem_of_insert_inv {A} (l : list A) i x y :
  y ∈ <[i := x]> l → y = x ∨ y ∈ l.
Proof.
  intros [j Hj]%list_elem_of_lookup.
  destruct (decide (i = j)) as [->|Hne].
  - destruct (decide (j < length l)).
    + rewrite list_lookup_insert_eq in Hj by done. left. congruence.
    + rewrite list_insert_ge in Hj by lia. right. by eapply list_elem_of_lookup_2.
  - rewrite list_lookup_insert_ne in Hj by done. right. by eapply list_elem_of_lookup_2.
Qed.

Lemma elem_of_insert_keep {A} (l : list A) i x y z :
  l !! i = Some z → y ≠ z → y ∈ l → y ∈ <[i := x]> l.
Proof.
  intros Hz Hne [j Hj]%list_elem_of_lookup.
  apply list_elem_of_lookup. exists j.
  rewrite list_lookup_insert_ne; [done|]. intros ->. congruence.
Qed.

Lemma step_consistent images cfg i :
  consistent cfg → consistent (step c images cfg i).
Proof.
  intros [Hc He].
  destruct (step_cases images cfg i) as [->|(s & s' & Hs & Ht & Hts & Hnc & Herr)]; [done|].
  unfold consistent. rewrite Hts. split.
  - intros [?|?]%elem_of_insert_inv; congruence.
  - destruct Herr as [[-> Hnf]|(e & -> & ->)].
    + destruct (cfg_error cfg) as [e0|].
      * eapply elem_of_insert_keep; [done| |done]. intros <-. done.
      * intros e [?|?]%elem_of_insert_inv; [by eapply Hnf|by eapply He].
    + destruct (cfg_error cfg) as [e0|]; simpl.
      * eapply elem_of_insert_keep; [done| |done]. intros <-. done.
      * apply list_elem_of_lookup. exists i.
        apply list_lookup_insert_eq. by eapply lookup_lt_Some.
Qed.

Lemma init_consistent images (st : store) : consistent (init images st).
Proof.
  unfold consistent, init. simpl. split.
  - intros [? ?]%elem_of_replicate. congruence.
  - intros e [? ?]%elem_of_replicate. congruence.
Qed.

Lemma run_consistent images sched cfg :
  consistent cfg → consistent (run c images sched cfg).
Proof.
  revert cfg. induction sched as [|i sched IH]; intros cfg H; [done|].
  unfold run in *. simpl. apply IH. by apply step_consistent.
Qed.

End StepFacts.

(** ** The semaphore and progress *)

Section Scheduling.

Context {store : Type} (c : client store).

Definition sem_count (s : tstate) : nat := if holds_sem s then 1 else 0.

Lemma active_cons s l : active (s :: l) = sem_count s + active l.
Proof.
  unfold active, sem_count. destruct (holds_sem s) eqn:H.
  - by rewrite filter_cons_True.
  - rewrite filter_cons_False; [done|]. congruence.
Qed.

Lemma active_insert l i s s' :
  l !! i = Some s → active (<[i := s']> l) + sem_count s = active l + sem_count s'.
Proof.
  revert i. induction l as [|s0 l IH]; intros [|i] H; simpl in *; try done.
  - injection H as ->. rewrite !active_cons. lia.
  - rewrite !active_cons. specialize (IH i H). lia.
Qed.

Lemma active_idle l : Forall (λ s, holds_sem s = false) l → active l = 0.
Proof.
  induction 1 as [|s l Hs _ IH]; [done|]. rewrite active_cons, IH.
  unfold sem_count. by rewrite Hs.
Qed.

(** A step that changes a task either does not take the semaphore, or
    takes it while fewer than [SEM_LIMIT] tasks hold it. *)
Lemma step_sem images cfg i :
  step c images cfg i = cfg
  ∨ ∃ s s', cfg_tasks cfg !! i = Some s
      ∧ cfg_tasks (step c images cfg i) = <[i := s']> (cfg_tasks cfg)
      ∧ (sem_count s' ≤ sem_count s
         ∨ (sem_count s = 0 ∧ active (cfg_tasks cfg) < SEM_LIMIT)).
Proof.
  destruct (images !! i) as [[file key]|] eqn:Hi; [|left; apply step_out_of_range; auto].
  destruct (cfg_tasks cfg !! i) as [s|] eqn:Hs; [|left; apply step_out_of_range; auto].
  destruct s; try (left; by eapply step_finished).
  - erewrite step_Waiting by done. case_decide; [|by left].
    right. exists Waiting, Probing. simpl. auto.
  - erewrite step_Probing by done. right. exists Probing. cbv zeta.
    destruct (head_object c (cfg_store cfg) S3_BUCKET key) as [[]|e].
    + exists Existed. simpl. split_and!; [done..|]. left. unfold sem_count. simpl. lia.
    + case_decide.
      * exists Putting. simpl. auto.
      * exists (Failed e). simpl. split_and!; [done..|]. left. unfold sem_count. simpl. lia.
  - erewrite step_Putting by done. right. exists Putting. cbv zeta.
    destruct (upload_file c (cfg_store cfg) file S3_BUCKET key "image/jpeg") as [st' [[]|e]].
    + exists Uploaded. simpl. split_and!; [done..|]. left. unfold sem_count. simpl. lia.
    + exists (Failed e). simpl. split_and!; [done..|]. left. unfold sem_count. simpl. lia.
Qed.

Lemma step_active images cfg i :
  active (cfg_tasks cfg) ≤ SEM_LIMIT → active (cfg_tasks (step c images cfg i)) ≤ SEM_LIMIT.
Proof.
  intros Hle. destruct (step_sem images cfg i) as [->|(s & s' & Hs & -> & Hsem)]; [done|].
  pose proof (active_insert _ _ _ s' Hs). unfold sem_count in *.
  destruct (holds_sem s), (holds_sem s'); lia.
Qed.

(** X1. At most [SEM_LIMIT] tasks are between entering and leaving
    [async with sem], under every schedule. *)
Lemma semaphore_bound images sched st :
  active (cfg_tasks (run c images sched (init images st))) ≤ SEM_LIMIT.
Proof.
  assert (H : ∀ cfg, active (cfg_tasks cfg) ≤ SEM_LIMIT →
                active (cfg_tasks (run c images sched cfg)) ≤ SEM_LIMIT).
  { induction sched as [|i sched IH]; intros cfg Hcfg; [done|].
    unfold run in *. simpl. by apply IH, step_active. }
  apply H. unfold init. simpl. rewrite active_idle; [unfold SEM_LIMIT; lia|].
  apply Forall_forall. intros s [-> _]%elem_of_replicate. done.
Qed.

Lemma run_app images sched1 sched2 cfg :
  run c images (sched1 ++ sched2) cfg = run c images sched2 (run c images sched1 cfg).
Proof. unfold run. apply foldl_app. Qed.

(** Where one step takes a task when no other task holds the semaphore. *)
Definition advances (s s' : tstate) : Prop :=
  match s with
  | Waiting => s' = Probing
  | Probing => terminal s' = true ∨ s' = Putting
  | Putting => terminal s' = true
  | _ => s' = s
  end.

Lemma step_advances images cfg a done rest s t :
  images !! a = Some t → cfg_tasks cfg = done ++ s :: rest → length done = a →
  Forall (λ s, holds_sem s = false) done → Forall (λ s, holds_sem s = false) rest →
  ∃ s', advances s s' ∧ cfg_tasks (step c images cfg a) = done ++ s' :: rest.
Proof.
  intros Hi Hts Hlen Hdone Hrest. destruct t as [file key].
  assert (Hins : ∀ x, <[a := x]> (cfg_tasks cfg) = done ++ x :: rest).
  { intros x. rewrite Hts, insert_app_r_alt by lia. by rewrite Hlen, Nat.sub_diag. }
  assert (Hlook : cfg_tasks cfg !! a = Some s).
  { rewrite Hts. by apply list_lookup_middle. }
  assert (Hfin : terminal s = true →
            ∃ s', advances s s' ∧ cfg_tasks (step c images cfg a) = done ++ s' :: rest).
  { intros Ht. exists s. split; [by destruct s|]. by erewrite step_finished. }
  destruct s; try (by apply Hfin).
  - erewrite (step_Waiting c images cfg a) by done.
    rewrite decide_True; [exists Probing; by rewrite <- Hins|].
    rewrite Hts, active_idle; [unfold SEM_LIMIT; lia|].
    apply Forall_app. split; [done|]. by constructor.
  - erewrite (step_Probing c images cfg a) by done. cbv zeta.
    destruct (head_object c (cfg_store cfg) S3_BUCKET key) as [[]|e].
    + exists Existed. simpl. rewrite Hins. auto.
    + case_decide.
      * exists Putting. simpl. rewrite Hins. auto.
      * exists (Failed e). simpl. rewrite Hins. auto.
  - erewrite (step_Putting c images cfg a) by done. cbv zeta.
    destruct (upload_file c (cfg_store cfg) file S3_BUCKET key "image/jpeg")
      as [st' [[]|e']].
    + exists Uploaded. simpl. rewrite Hins. auto.
    + exists (Failed e'). simpl. rewrite Hins. auto.
Qed.

(** Three steps take a waiting task to its end. *)
Lemma three_steps images cfg a done rest t :
  images !! a = Some t → cfg_tasks cfg = done ++ Waiting :: rest → length done = a →
  Forall (λ s, holds_sem s = false) done → Forall (λ s, holds_sem s = false) rest →
  ∃ s', terminal s' = true
    ∧ cfg_tasks (run c images [a; a; a] cfg) = done ++ s' :: rest.
Proof.
  intros Hi Hts Hlen Hdone Hrest. unfold run. cbn [foldl].
  destruct (step_advances images cfg a done rest Waiting t) as (s1 & Hs1 & H1); [done..|].
  simpl in Hs1. subst s1.
  destruct (step_advances images (step c images cfg a) a done rest Probing t)
    as (s2 & Hs2 & H2); [done..|].
  destruct (step_advances images (step c images (step c images cfg a) a) a done rest s2 t)
    as (s3 & Hs3 & H3); [done..|].
  exists s3. split; [|done].
  destruct Hs2 as [Hs2| ->]; [|done]. by destruct s2; simpl in *; subst.
Qed.

Lemma terminal_idle s : terminal s = true → holds_sem s = false.
Proof. by destruct s. Qed.

Lemma one_by_one_from images k a cfg done :
  a + k = length images → cfg_tasks cfg = done ++ replicate k Waiting → length done = a →
  Forall (λ s, terminal s = true) done →
  Forall (λ s, terminal s = true)
    (cfg_tasks (run c images (mjoin ((λ i, [i; i; i]) <$> seq a k)) cfg)).
Proof.
  revert a cfg done. induction k as [|k IH]; intros a cfg done Hak Hts Hlen Hdone.
  - simpl. rewrite Hts. simpl. by rewrite app_nil_r.
  - cbn [seq fmap list_fmap mjoin list_join]. rewrite run_app.
    destruct (lookup_lt_is_Some_2 images a) as [t Ht]; [lia|].
    destruct (three_steps images cfg a done (replicate k Waiting) t) as (s' & Hs' & Hts');
      [done..| | |].
    + eapply Forall_impl; [exact Hdone|]. apply terminal_idle.
    + apply Forall_forall. intros s [-> _]%elem_of_replicate. done.
    + apply (IH (S a) _ (done ++ [s'])).
      * lia.
      * by rewrite Hts', <- app_assoc.
      * rewrite length_app. simpl. lia.
      * apply Forall_app. split; [done|]. by constructor.
Qed.

(** X2. The uploader can always run to its end: under the schedule that
    takes the tasks one after the other it returns or raises. *)
Lemma one_by_one_finishes images st :
  res_outcome (upload_images_bulk c (one_by_one (length images)) images st) ≠ Pending.
Proof.
  unfold upload_images_bulk, one_by_one.
  pose proof (one_by_one_from images (length images) 0 (init images st) []) as H.
  specialize (H eq_refl eq_refl eq_refl (Forall_nil_2 _)).
  unfold finish. destruct (cfg_error _); simpl; [done|].
  rewrite (proj2 (forallb_forall _ _)); [done|].
  intros s Hs%list_elem_of_In. by eapply (proj1 (Forall_forall _ _) H).
Qed.

End Scheduling.

(** ** C3: one transfer task *)

(** C3. For one task: when the probe succeeds the uploader sends nothing
    else and returns; when the probe raises [ClientError] with code 404 it
    calls [upload_file] once, with content type image/jpeg, and ends as that
    call ends; any other exception of the probe is raised again and nothing
    is uploaded. *)
Theorem upload_image_probe_cases {store : Type} (c : client store) file key st :
  (head_object c st S3_BUCKET key = Ok () →
     upload_image c file key st = (st, [HeadObject S3_BUCKET key], Ok ()))
  ∧ (head_object c st S3_BUCKET key = Raise (ClientError "404") →
     upload_image c file key st =
       ((upload_file c st file S3_BUCKET key "image/jpeg").1,
        [HeadObject S3_BUCKET key; UploadFile file S3_BUCKET key "image/jpeg"],
        (upload_file c st file S3_BUCKET key "image/jpeg").2))
  ∧ (∀ e, head_object c st S3_BUCKET key = Raise e → e ≠ ClientError "404" →
     upload_image c file key st = (st, [HeadObject S3_BUCKET key], Raise e)
     ∧ put_keys (upload_image c file key st).1.2 = []).
Proof.
  unfold upload_image. split_and!.
  - by intros ->.
  - intros ->. rewrite decide_True by done.
    by destruct (upload_file c st file S3_BUCKET key "image/jpeg").
  - intros e -> Hne. destruct e; try done.
    rewrite decide_False; [done|]. intros ->. done.
Qed.

(** X3. Under [upload_images_bulk] a single task does what [upload_image]
    does. *)
Lemma bulk_single_task {store : Type} (c : client store) file key st :
  let r := upload_images_bulk c [0; 0; 0] [(file, key)] st in
  let '(st', calls, res) := upload_image c file key st in
  res_store r = st' ∧ res_calls r = calls
  ∧ res_outcome r = match res with Ok _ => Returned | Raise e => Raised e end.
Proof.
  unfold upload_images_bulk, run, init. cbn [foldl length replicate].
  rewrite (step_Waiting c _ (Config st [Waiting] [] None) 0 (file, key)) by done.
  rewrite decide_True by (compute; lia). cbn [cfg_store cfg_tasks cfg_calls cfg_error].
  rewrite (step_Probing c _ (Config st [Probing] [] None) 0 file key) by done.
  unfold upload_image. cbn [cfg_store cfg_tasks cfg_calls cfg_error].
  destruct (head_object c st S3_BUCKET key) as [[]|e].
  - by rewrite (step_finished c _ _ 0 Existed).
  - case_decide as He.
    + subst e. rewrite decide_True by done.
      rewrite (step_Putting c _ _ 0 file key) by done.
      cbn [cfg_store cfg_tasks cfg_calls cfg_error].
      by destruct (upload_file c st file S3_BUCKET key "image/jpeg") as [st' [[]|e]].
    + rewrite (step_finished c _ _ 0 (Failed e)) by done.
      destruct e; try done. rewrite decide_False; [done|]. congruence.
Qed.

(** ** C5: what the caller of the bulk uploader can rely on *)

Lemma finish_tasks_length {store : Type} (cfg : config store) :
  length (res_tasks (finish cfg)) = length (cfg_tasks cfg).
Proof. unfold finish. destruct (cfg_error cfg); simpl; [by rewrite length_fmap|done]. Qed.

Lemma terminal_cancel s : terminal (cancel s) = true.
Proof. by destruct s. Qed.

(** When the uploader returns, every task has uploaded or skipped. *)
Lemma returned_all_done {store : Type} (c : client store) sched images st :
  res_outcome (upload_images_bulk c sched images st) = Returned →
  Forall (λ s, s = Existed ∨ s = Uploaded) (res_tasks (upload_images_bulk c sched images st)).
Proof.
  unfold upload_images_bulk.
  pose proof (run_consistent c images sched _ (init_consistent images st)) as [Hc He].
  set (cfg := run c images sched (init images st)) in *.
  unfold finish. destruct (cfg_error cfg) as [e|]; simpl; [done|].
  destruct (forallb terminal (cfg_tasks cfg)) eqn:Hall; [|done]. intros _.
  apply Is_true_true, forallb_True in Hall.
  apply Forall_forall. intros s Hs.
  assert (Ht : Is_true (terminal s)) by (by eapply (proj1 (Forall_forall _ _) Hall)).
  destruct s; simpl in Ht; try done; [by left|by right|by destruct (He e)].
Qed.

(** C5, as the code has it. The uploader returns only when every task has
    returned, each having uploaded its image or found it present. It raises
    as soon as one task has raised, with the first exception raised (the
    head of the exceptions in the order in which the tasks raise them); the
    tasks are then all finished, the ones that were still pending by
    cancellation. *)
Theorem bulk_outcomes {store : Type} (c : client store) sched images st :
  let r := upload_images_bulk c sched images st in
  length (res_tasks r) = length images
  ∧ (res_outcome r = Returned →
       Forall (λ s, s = Existed ∨ s = Uploaded) (res_tasks r))
  ∧ (∀ e, res_outcome r = Raised e →
       Failed e ∈ res_tasks r ∧ Forall (λ s, terminal s = true) (res_tasks r))
  ∧ (∀ e, Failed e ∈ res_tasks r → ∃ e0, res_outcome r = Raised e0)
  ∧ (∀ e, res_outcome r = Raised e
          ↔ head (raised_along c images sched (init images st)) = Some e).
Proof.
  simpl. unfold upload_images_bulk.
  pose proof (run_consistent c images sched _ (init_consistent images st)) as [Hc He].
  pose proof (run_length c images sched (init images st)) as Hlen.
  pose proof (run_error c images sched (init images st)) as Hfirst.
  change (cfg_error (init images st)) with (@None exn) in Hfirst.
  set (cfg := run c images sched (init images st)) in *.
  split_and!; [| | | |intros e; unfold finish; rewrite <- Hfirst;
    destruct (cfg_error cfg) as [e0|]; simpl;
      [split; congruence|destruct (forallb terminal (cfg_tasks cfg)); split; congruence]].
  - rewrite finish_tasks_length, Hlen. unfold init. simpl. by rewrite length_replicate.
  - apply returned_all_done.
  - intros e. unfold finish. destruct (cfg_error cfg) as [e0|]; simpl.
    + intros [= ->]. split.
      * apply list_elem_of_fmap. by exists (Failed e).
      * apply Forall_fmap, Forall_true. intros s. apply terminal_cancel.
    + by destruct (forallb terminal (cfg_tasks cfg)).
  - intros e. unfold finish. destruct (cfg_error cfg) as [e0|]; simpl; [eauto|].
    intros H. by destruct (He e).
Qed.

(** Ten tasks with the keys k1 to k10. *)
Definition ten_tasks : list task :=
  (λ i, (Path "/images" ("img" +:+ pretty i), "k" +:+ pretty i)) <$> seq 1 10.

(** The claim of C5 as the specification words it: whenever the uploader
    returns or raises, every task has succeeded, been skipped or raised. *)
Definition every_task_resolved : Prop :=
  ∀ (c : client (gset string)) sched images st,
    let r := upload_images_bulk c sched images st in
    res_outcome r ≠ Pending →
    Forall (λ s, s = Existed ∨ s = Uploaded ∨ ∃ e, s = Failed e) (res_tasks r).

(** C5 fails on the code. Ten tasks enter the semaphore and probe; the
    probe of the third is refused before any other answer arrives. The
    uploader raises at once, and the nine other tasks are cancelled: none
    has uploaded or skipped its image. *)
(** Two refusals: the exception of the task that raises first is the one
    the uploader raises, whichever task of the list it is. *)
Definition refusing (codes : gmap string string) : client (gset string) := {|
  head_object st bucket key :=
    match codes !! key with
    | Some code => Raise (ClientError code)
    | None => head_object ideal st bucket key
    end;
  upload_file := upload_file ideal
|}.

Example first_exception_raised :
  let c := refusing {["k1" := "403"; "k2" := "500"]} in
  let images := [(Path "/images" "a", "k1"); (Path "/images" "b", "k2")] in
  res_outcome (upload_images_bulk c [0; 1; 0; 1] images ∅) = Raised (ClientError "403")
  ∧ res_outcome (upload_images_bulk c [0; 1; 1; 0] images ∅) = Raised (ClientError "500")
  ∧ raised_along c images [0; 1; 1; 0] (init images ∅)
    = [ClientError "500"; ClientError "403"].
Proof. split_and!; vm_compute; reflexivity. Qed.

Lemma bulk_failure_cancels_siblings :
  let r := upload_images_bulk (forbidding "k3") (seq 0 10 ++ [2]) ten_tasks ∅ in
  res_outcome r = Raised (ClientError "403")
  ∧ res_tasks r = [Cancelled; Cancelled; Failed (ClientError "403"); Cancelled; Cancelled;
                   Cancelled; Cancelled; Cancelled; Cancelled; Cancelled]
  ∧ put_keys (res_calls r) = []
  ∧ ¬ every_task_resolved.
Proof.
  set (r := upload_images_bulk (forbidding "k3") (seq 0 10 ++ [2]) ten_tasks ∅).
  assert (Ho : res_outcome r = Raised (ClientError "403")) by (vm_compute; reflexivity).
  assert (Ht : res_tasks r =
    [Cancelled; Cancelled; Failed (ClientError "403"); Cancelled; Cancelled;
     Cancelled; Cancelled; Cancelled; Cancelled; Cancelled]) by (vm_compute; reflexivity).
  assert (Hp : put_keys (res_calls r) = []) by (vm_compute; reflexivity).
  cbv zeta. split; [exact Ho|]. split; [exact Ht|]. split; [exact Hp|].
  intros Hclaim.
  specialize (Hclaim (forbidding "k3") (seq 0 10 ++ [2]) ten_tasks ∅).
  cbv zeta in Hclaim. fold r in Hclaim. clearbody r.
  rewrite Ho, Ht in Hclaim.
  assert (Hn : Raised (ClientError "403") ≠ Pending) by discriminate.
  specialize (Hclaim Hn).
  apply Forall_cons_1 in Hclaim as [[H|[H|[e H]]] _]; discriminate H.
Qed.

(** ** C4: running the uploader twice over the set of keys put so far *)

Lemma put_keys_snoc calls c0 : put_keys (calls ++ [c0]) = put_keys calls ++ put_keys [c0].
Proof. unfold put_keys. by rewrite omap_app. Qed.

Lemma uploaded_keys_sublist images ts : uploaded_keys images ts `sublist_of` keys images.
Proof.
  revert ts. induction images as [|[f k] images IH]; intros [|s ts]; simpl;
    try apply sublist_nil_l.
  case_decide; [by apply sublist_skip|by apply sublist_cons].
Qed.

Lemma uploaded_keys_insert_other images ts i s s' :
  ts !! i = Some s → s ≠ Uploaded → s' ≠ Uploaded →
  uploaded_keys images (<[i := s']> ts) = uploaded_keys images ts.
Proof.
  revert ts i. induction images as [|[f k] images IH]; intros [|s0 ts] [|i] Hs Hn Hn';
    simpl in *; try done.
  - injection Hs as ->. by rewrite !decide_False.
  - case_decide; [f_equal|]; eauto.
Qed.

Lemma uploaded_keys_insert_Uploaded images ts i file key s :
  images !! i = Some (file, key) → ts !! i = Some s → s ≠ Uploaded →
  uploaded_keys images (<[i := Uploaded]> ts) ≡ₚ key :: uploaded_keys images ts.
Proof.
  revert ts i. induction images as [|[f k] images IH]; intros [|s0 ts] [|i] Hi Hs Hn;
    simpl in *; try done.
  - injection Hi as -> ->. injection Hs as ->.
    by rewrite decide_False.
  - case_decide.
    + rewrite (IH ts i) by done. apply Permutation_swap.
    + by apply IH.
Qed.

(** While the uploader runs against a store that held none of the keys:
    the store holds what was there and what was put, the puts so far are
    those of the tasks that have uploaded, a task that has finished has its
    key in the store, and nothing has raised. *)
Definition first_run_inv (images : list task) (s0 : gset string)
    (cfg : config (gset string)) : Prop :=
  cfg_store cfg = list_to_set (put_keys (cfg_calls cfg)) ∪ s0
  ∧ put_keys (cfg_calls cfg) ≡ₚ uploaded_keys images (cfg_tasks cfg)
  ∧ (∀ i f k s, images !! i = Some (f, k) → cfg_tasks cfg !! i = Some s →
       s = Existed ∨ s = Uploaded → k ∈ cfg_store cfg)
  ∧ cfg_error cfg = None.

Lemma step_first_run_inv images s0 cfg i :
  first_run_inv images s0 cfg → first_run_inv images s0 (step ideal images cfg i).
Proof.
  intros (Hst & Hperm & Hin & Herr).
  destruct (images !! i) as [[file key]|] eqn:Hi;
    [|rewrite step_out_of_range by auto; by split_and!].
  destruct (cfg_tasks cfg !! i) as [s|] eqn:Hs;
    [|rewrite step_out_of_range by auto; by split_and!].
  destruct s; try (by erewrite step_finished by done; split_and!).
  - erewrite step_Waiting by done. case_decide; [|by split_and!].
    split_and!; simpl; [done| |..|done].
    + by erewrite uploaded_keys_insert_other.
    + intros j f k s Hj [(_ & <- & _)|[_ Hjs]]%list_lookup_insert_Some Hok.
      * naive_solver.
      * eauto.
  - erewrite step_Probing by done. cbn.
    destruct (decide (key ∈ cfg_store cfg)) as [Hk|Hk]; [|rewrite decide_True by done];
      (split_and!; simpl; [by rewrite put_keys_snoc, app_nil_r
                          |by (rewrite put_keys_snoc, app_nil_r; erewrite uploaded_keys_insert_other)
                          | |done]).
    + intros j f k s Hj [(-> & <- & _)|[_ Hjs]]%list_lookup_insert_Some Hok.
      * rewrite Hi in Hj. by injection Hj as _ <-.
      * eauto.
    + intros j f k s Hj [(-> & <- & _)|[_ Hjs]]%list_lookup_insert_Some Hok.
      * naive_solver.
      * eauto.
  - erewrite step_Putting by done. cbn. split_and!; simpl.
    + rewrite put_keys_snoc, list_to_set_app_L, Hst. simpl. set_solver.
    + rewrite put_keys_snoc. simpl.
      erewrite uploaded_keys_insert_Uploaded by done.
      rewrite <- Hperm. symmetry. apply Permutation_cons_append.
    + intros j f k s Hj [(-> & <- & _)|[_ Hjs]]%list_lookup_insert_Some Hok.
      * rewrite Hi in Hj. injection Hj as _ <-. set_solver.
      * apply elem_of_union_r. eauto.
    + done.
Qed.

Lemma run_first_run_inv images s0 sched cfg :
  first_run_inv images s0 cfg → first_run_inv images s0 (run ideal images sched cfg).
Proof.
  revert cfg. induction sched as [|i sched IH]; intros cfg H; [done|].
  unfold run in *. simpl. by apply IH, step_first_run_inv.
Qed.

Lemma init_first_run_inv images s0 : first_run_inv images s0 (init images s0).
Proof.
  unfold first_run_inv, init. simpl. split_and!; [set_solver| |..|done].
  - assert (H : ∀ n, uploaded_keys images (replicate n Waiting) = []); [|by rewrite H].
    induction images as [|[f k] images IH]; intros [|n]; simpl; auto.
  - intros i f k s _ [-> _]%lookup_replicate [?|?]; done.
Qed.

(** While it runs against a store that holds every key: no task uploads. *)
Definition rerun_inv (images : list task) (cfg : config (gset string)) : Prop :=
  (∀ k, k ∈ keys images → k ∈ cfg_store cfg)
  ∧ put_keys (cfg_calls cfg) = []
  ∧ Putting ∉ cfg_tasks cfg.

Lemma step_rerun_inv images cfg i :
  rerun_inv images cfg → rerun_inv images (step ideal images cfg i).
Proof.
  intros (Hst & Hputs & Hnp).
  destruct (images !! i) as [[file key]|] eqn:Hi;
    [|rewrite step_out_of_range by auto; by split_and!].
  destruct (cfg_tasks cfg !! i) as [s|] eqn:Hs;
    [|rewrite step_out_of_range by auto; by split_and!].
  destruct s; try (by erewrite step_finished by done; split_and!).
  - erewrite step_Waiting by done. case_decide; [|by split_and!].
    split_and!; simpl; [done..|]. intros [?|?]%elem_of_insert_inv; done.
  - erewrite step_Probing by done. cbn.
    rewrite decide_True.
    + split_and!; simpl; [done|by rewrite put_keys_snoc, app_nil_r|].
      intros [?|?]%elem_of_insert_inv; done.
    + apply Hst. unfold keys. apply list_elem_of_fmap. exists (file, key).
      split; [done|]. by eapply list_elem_of_lookup_2.
  - destruct Hnp. by eapply list_elem_of_lookup_2.
Qed.

Lemma run_rerun_inv images sched cfg :
  rerun_inv images cfg → rerun_inv images (run ideal images sched cfg).
Proof.
  revert cfg. induction sched as [|i sched IH]; intros cfg H; [done|].
  unfold run in *. simpl. by apply IH, step_rerun_inv.
Qed.

Lemma finish_no_error {store : Type} (cfg : config store) :
  cfg_error cfg = None →
  res_store (finish cfg) = cfg_store cfg ∧ res_calls (finish cfg) = cfg_calls cfg
  ∧ res_tasks (finish cfg) = cfg_tasks cfg.
Proof. unfold finish. by intros ->. Qed.

Lemma finish_calls {store : Type} (cfg : config store) :
  res_calls (finish cfg) = cfg_calls cfg ∧ res_store (finish cfg) = cfg_store cfg.
Proof. unfold finish. by destruct (cfg_error cfg). Qed.

(** C4, as the code has it. Against a store in which a key exists exactly
    once it has been put, and which held none of the keys: a first run that
    returns has put every key at least once and no key more often than it
    occurs in the task list, and a second run puts nothing. When the keys of
    the task list are pairwise distinct, the two runs together put each key
    exactly once. *)
Theorem bulk_twice images sched1 sched2 (s0 : gset string) :
  (∀ k, k ∈ keys images → k ∉ s0) →
  let r1 := upload_images_bulk ideal sched1 images s0 in
  let r2 := upload_images_bulk ideal sched2 images (res_store r1) in
  res_outcome r1 = Returned →
  put_keys (res_calls r2) = []
  ∧ (∀ k, k ∈ keys images → k ∈ put_keys (res_calls r1))
  ∧ put_keys (res_calls r1) ⊆+ keys images
  ∧ (NoDup (keys images) → put_keys (res_calls r1 ++ res_calls r2) ≡ₚ keys images).
Proof.
  intros Hfresh r1 r2 Hret.
  pose proof (run_first_run_inv images s0 sched1 _ (init_first_run_inv images s0))
    as (Hst & Hperm & Hin & Herr).
  pose proof (run_length ideal images sched1 (init images s0)) as Hlen.
  unfold init at 2 in Hlen. simpl in Hlen. rewrite length_replicate in Hlen.
  pose proof (finish_no_error _ Herr) as (Hs1 & Hc1 & Ht1).
  fold (upload_images_bulk ideal sched1 images s0) in Hs1, Hc1, Ht1. fold r1 in Hs1, Hc1, Ht1.
  pose proof (returned_all_done ideal sched1 images s0 Hret) as Hdone.
  fold r1 in Hdone. rewrite Ht1 in Hdone.
  assert (Hall : ∀ k, k ∈ keys images → k ∈ put_keys (res_calls r1)).
  { intros k [[f k'] [-> [i Hi]%list_elem_of_lookup]]%list_elem_of_fmap. simpl.
    destruct (lookup_lt_is_Some_2 (cfg_tasks (run ideal images sched1 (init images s0))) i)
      as [s Hs]; [rewrite Hlen; by eapply lookup_lt_Some|].
    assert (Hk : k' ∈ cfg_store (run ideal images sched1 (init images s0))).
    { eapply Hin; [done..|]. eapply (proj1 (Forall_forall _ _) Hdone).
      by eapply list_elem_of_lookup_2. }
    rewrite Hst, <- Hc1 in Hk. apply elem_of_union in Hk as [Hk|Hk].
    - by apply elem_of_list_to_set in Hk.
    - destruct (Hfresh k'); [|done]. apply list_elem_of_fmap. exists (f, k'). split; [done|].
      by eapply list_elem_of_lookup_2. }
  assert (Hsub : put_keys (res_calls r1) ⊆+ keys images).
  { rewrite Hc1, Hperm. apply sublist_submseteq, uploaded_keys_sublist. }
  assert (Hre : rerun_inv images (init images (res_store r1))).
  { unfold rerun_inv, init. simpl. split_and!; [|done|].
    - intros k Hk. rewrite Hs1, Hst, <- Hc1. apply elem_of_union_l, elem_of_list_to_set. auto.
    - intros [? ?]%elem_of_replicate. done. }
  apply (run_rerun_inv images sched2) in Hre as (_ & Hp2 & _).
  assert (Hputs2 : put_keys (res_calls r2) = []).
  { unfold r2, upload_images_bulk. by rewrite (proj1 (finish_calls _)). }
  split_and!; [done..|].
  intros Hnd. unfold put_keys in *. rewrite omap_app, Hputs2, app_nil_r.
  apply (anti_symm submseteq); [done|]. apply NoDup_submseteq; [done|]. apply Hall.
Qed.

(** For the task lists the two runs below use. *)
Definition same_key_tasks : list task :=
  [(Path "/images" "a.jpg", "summits/1_2_3_0.jpg");
   (Path "/images" "b.jpg", "summits/1_2_3_0.jpg")].

Lemma bulk_twice_witness :
  let r1 := upload_images_bulk ideal (one_by_one 10) ten_tasks ∅ in
  let r2 := upload_images_bulk ideal (one_by_one 10) ten_tasks (res_store r1) in
  (∀ k, k ∈ keys ten_tasks → k ∉ (∅ : gset string))
  ∧ res_outcome r1 = Returned
  ∧ put_keys (res_calls r2) = []
  ∧ (∀ k, k ∈ keys ten_tasks → k ∈ put_keys (res_calls r1))
  ∧ put_keys (res_calls r1) ⊆+ keys ten_tasks
  ∧ (NoDup (keys ten_tasks) → put_keys (res_calls r1 ++ res_calls r2) ≡ₚ keys ten_tasks).
Proof.
  assert (Hfresh : ∀ k, k ∈ keys ten_tasks → k ∉ (∅ : gset string))
    by (intros k _; apply not_elem_of_empty).
  assert (Hret : res_outcome (upload_images_bulk ideal (one_by_one 10) ten_tasks ∅) = Returned)
    by (vm_compute; reflexivity).
  cbv zeta. split; [exact Hfresh|]. split; [exact Hret|].
  exact (bulk_twice ten_tasks (one_by_one 10) (one_by_one 10) ∅ Hfresh Hret).
Defined.

(** C4 fails on the code for a task list that names a key twice. Both
    tasks probe before either has uploaded, both are told the key is not
    there, and both upload: two puts for one key. *)
Lemma bulk_duplicate_key_put_twice :
  let r1 := upload_images_bulk ideal [0; 1; 0; 1; 0; 1] same_key_tasks ∅ in
  let r2 := upload_images_bulk ideal (one_by_one 2) same_key_tasks (res_store r1) in
  res_outcome r1 = Returned ∧ res_outcome r2 = Returned
  ∧ put_keys (res_calls r1 ++ res_calls r2) = ["summits/1_2_3_0.jpg"; "summits/1_2_3_0.jpg"]
  ∧ put_keys (res_calls r2) = [].
Proof. vm_compute. split_and!; reflexivity. Qed.

(** ** The requests of a run, for any store *)

(** The keys of the [head_object] calls of a trace, in order. *)
Definition head_keys (calls : list call) : list string :=
  omap (λ c, match c with HeadObject _ k => Some k | UploadFile _ _ _ _ => None end) calls.

(** The keys of the tasks whose state satisfies [P]. *)
Fixpoint keys_where (P : tstate → bool) (images : list task) (ts : list tstate) : list string :=
  match images, ts with
  | (_, k) :: images', s :: ts' =>
      if P s then k :: keys_where P images' ts' else keys_where P images' ts'
  | _, _ => []
  end.

(** The task has had the answer to its probe. *)
Definition probed (s : tstate) : bool :=
  match s with Waiting | Probing | Cancelled => false | _ => true end.

(** A request of the uploader: in the one bucket, for a task of the list,
    an upload from that task's file and as image/jpeg. *)
Definition of_the_list (images : list task) (c : call) : Prop :=
  match c with
  | HeadObject bucket key => bucket = S3_BUCKET ∧ key ∈ keys images
  | UploadFile file bucket key content_type =>
      bucket = S3_BUCKET ∧ content_type = "image/jpeg" ∧ (file, key) ∈ images
  end.

Lemma head_keys_snoc calls c0 : head_keys (calls ++ [c0]) = head_keys calls ++ head_keys [c0].
Proof. unfold head_keys. by rewrite omap_app. Qed.

Lemma keys_where_sublist P images ts : keys_where P images ts `sublist_of` keys images.
Proof.
  revert ts. induction images as [|[f k] images IH]; intros [|s ts]; simpl;
    try apply sublist_nil_l.
  destruct (P s); [by apply sublist_skip|by apply sublist_cons].
Qed.

Lemma keys_where_insert_same P images ts i s s' :
  ts !! i = Some s → P s = P s' →
  keys_where P images (<[i := s']> ts) = keys_where P images ts.
Proof.
  revert ts i. induction images as [|[f k] images IH]; intros [|s0 ts] [|i] Hs HP;
    simpl in *; try done.
  - injection Hs as ->. by rewrite HP.
  - destruct (P s0); [f_equal|]; eauto.
Qed.

Lemma keys_where_insert_on P images ts i file key s s' :
  images !! i = Some (file, key) → ts !! i = Some s → P s = false → P s' = true →
  keys_where P images (<[i := s']> ts) ≡ₚ key :: keys_where P images ts.
Proof.
  revert ts i. induction images as [|[f k] images IH]; intros [|s0 ts] [|i] Hi Hs HP HP';
    simpl in *; try done.
  - injection Hi as -> ->. injection Hs as ->. by rewrite HP, HP'.
  - destruct (P s0).
    + rewrite (IH ts i) by done. apply Permutation_swap.
    + by apply IH.
Qed.

Lemma keys_where_weaken P Q images ts :
  (∀ s, s ∈ ts → P s = true → Q s = true) →
  keys_where P images ts `sublist_of` keys_where Q images ts.
Proof.
  revert ts. induction images as [|[f k] images IH]; intros [|s ts] H; simpl;
    try apply sublist_nil_l.
  assert (Hts : ∀ s0, s0 ∈ ts → P s0 = true → Q s0 = true)
    by (intros s0 Hs0; apply H; by right).
  destruct (P s) eqn:HP.
  - rewrite (H s) by (done || by left). by apply sublist_skip, IH.
  - destruct (Q s); [apply sublist_cons|]; by apply IH.
Qed.

(** While the uploader runs: the probes answered are those of the tasks
    past their probe, the uploads are among the tasks that have ended, and
    every request is for a task of the list. *)
Definition requests_inv {store : Type} (images : list task) (cfg : config store) : Prop :=
  head_keys (cfg_calls cfg) ≡ₚ keys_where probed images (cfg_tasks cfg)
  ∧ put_keys (cfg_calls cfg) ⊆+ keys_where terminal images (cfg_tasks cfg)
  ∧ Forall (of_the_list images) (cfg_calls cfg).

Lemma step_requests_inv {store : Type} (c : client store) images cfg i :
  requests_inv images cfg → requests_inv images (step c images cfg i).
Proof.
  intros (Hh & Hp & Hc).
  destruct (images !! i) as [[file key]|] eqn:Hi;
    [|rewrite step_out_of_range by auto; by split_and!].
  destruct (cfg_tasks cfg !! i) as [s|] eqn:Hs;
    [|rewrite step_out_of_range by auto; by split_and!].
  assert (Hkey : key ∈ keys images).
  { unfold keys. apply list_elem_of_fmap. exists (file, key). split; [done|].
    by eapply list_elem_of_lookup_2. }
  destruct s; try (by erewrite step_finished by done; split_and!).
  - erewrite step_Waiting by done. case_decide; [|by split_and!].
    unfold requests_inv. simpl.
    rewrite (keys_where_insert_same probed images _ i Waiting Probing) by done.
    by rewrite (keys_where_insert_same terminal images _ i Waiting Probing).
  - erewrite step_Probing by done. cbv zeta.
    assert (Hprobe : ∀ s' err, probed s' = true → terminal s' = true ∨ s' = Putting →
      requests_inv images
        (Config (cfg_store cfg) (<[i := s']> (cfg_tasks cfg))
           (cfg_calls cfg ++ [HeadObject S3_BUCKET key]) err)).
    { intros s' err Hs' Hterm.
      unfold requests_inv. simpl. rewrite head_keys_snoc, put_keys_snoc. simpl.
      rewrite app_nil_r. split_and!.
      - rewrite (keys_where_insert_on probed images _ i file key Probing s') by done.
        rewrite <- Hh. symmetry. apply Permutation_cons_append.
      - destruct Hterm as [Hterm| ->].
        + rewrite (keys_where_insert_on terminal images _ i file key Probing s') by done.
          by apply submseteq_cons.
        + by rewrite (keys_where_insert_same terminal images _ i Probing Putting).
      - apply Forall_app. split; [done|]. constructor; [|done]. by split. }
    destruct (head_object c (cfg_store cfg) S3_BUCKET key) as [[]|e].
    + apply Hprobe; auto.
    + case_decide; apply Hprobe; auto.
  - erewrite step_Putting by done. cbv zeta.
    assert (Hput : ∀ (st' : store) s' err, probed s' = true → terminal s' = true →
      requests_inv images
        (Config st' (<[i := s']> (cfg_tasks cfg))
           (cfg_calls cfg ++ [UploadFile file S3_BUCKET key "image/jpeg"]) err)).
    { intros st' s' err Hs' Hterm. unfold requests_inv. simpl.
      rewrite head_keys_snoc, put_keys_snoc. simpl. rewrite app_nil_r. split_and!.
      - by rewrite (keys_where_insert_same probed images _ i Putting s').
      - rewrite (keys_where_insert_on terminal images _ i file key Putting s') by done.
        rewrite <- Permutation_cons_append. by apply submseteq_skip.
      - apply Forall_app. split; [done|]. constructor; [|done]. split_and!; [done..|].
        by eapply list_elem_of_lookup_2. }
    destruct (upload_file c (cfg_store cfg) file S3_BUCKET key "image/jpeg")
      as [st' [[]|e]]; by apply Hput.
Qed.

Lemma run_requests_inv {store : Type} (c : client store) images sched cfg :
  requests_inv images cfg → requests_inv images (run c images sched cfg).
Proof.
  revert cfg. induction sched as [|i sched IH]; intros cfg H; [done|].
  unfold run in *. simpl. by apply IH, step_requests_inv.
Qed.

Lemma keys_where_replicate_Waiting P images n :
  P Waiting = false → keys_where P images (replicate n Waiting) = [].
Proof.
  intros HP. revert n. induction images as [|[f k] images IH]; intros [|n]; simpl; auto.
  by rewrite HP.
Qed.

(** X4. Whatever the store answers and however the tasks interleave, the
    uploader probes each task at most once and uploads at most once per
    probe; every request names the bucket and the key of a task of the
    list, and every upload sends that task's file as image/jpeg. *)
Theorem bulk_requests_bounded {store : Type} (c : client store) sched images st :
  let r := upload_images_bulk c sched images st in
  head_keys (res_calls r) ⊆+ keys images
  ∧ put_keys (res_calls r) ⊆+ head_keys (res_calls r)
  ∧ Forall (of_the_list images) (res_calls r).
Proof.
  cbv zeta. unfold upload_images_bulk. rewrite (proj1 (finish_calls _)).
  pose proof (run_consistent c images sched _ (init_consistent images st)) as [Hcancel _].
  assert (Hinit : requests_inv images (init images st)).
  { unfold requests_inv, init. simpl. by rewrite !keys_where_replicate_Waiting. }
  apply (run_requests_inv c images sched) in Hinit as (Hh & Hp & Hc).
  split_and!; [|..|done].
  - rewrite Hh. apply sublist_submseteq, keys_where_sublist.
  - rewrite Hh. etrans; [exact Hp|]. apply sublist_submseteq, keys_where_weaken.
    intros s Hs Ht. destruct s; try done.
Qed.

(** ** The store in which a key exists once it has been put *)

(** [upload_file] reads the local file before it puts the object: the
    store of [ideal] when the files of [unreadable] cannot be read (a file
    that is missing, a directory), with the exception the upload then
    raises. *)
Definition reading (unreadable : path → option exn) : client (gset string) := {|
  head_object := head_object ideal;
  upload_file st file bucket key content_type :=
    match unreadable file with
    | Some e => (st, Raise e)
    | None => ({[key]} ∪ st, Ok ())
    end
|}.

Example reading_all : reading (λ _, None) = ideal.
Proof. reflexivity. Qed.

(** While the uploader runs against that store: the store holds what was
    there and the keys of the tasks that have uploaded, a task that has
    finished without raising has its key in the store, a task that has
    raised could not read its file, a task that is uploading found its key
    absent, and the puts are of keys of the list that were not there at the
    start. *)
Definition reading_inv (unreadable : path → option exn) (images : list task)
    (s0 : gset string) (cfg : config (gset string)) : Prop :=
  (∀ k, k ∈ cfg_store cfg ↔ k ∈ uploaded_keys images (cfg_tasks cfg) ∨ k ∈ s0)
  ∧ (∀ i f k s, images !! i = Some (f, k) → cfg_tasks cfg !! i = Some s →
       s = Existed ∨ s = Uploaded → k ∈ cfg_store cfg)
  ∧ (∀ i e, cfg_tasks cfg !! i = Some (Failed e) →
       ∃ f k, images !! i = Some (f, k) ∧ unreadable f = Some e)
  ∧ (∀ i f k, images !! i = Some (f, k) → cfg_tasks cfg !! i = Some Putting → k ∉ s0)
  ∧ (∀ k, k ∈ put_keys (cfg_calls cfg) → (k ∉ s0) ∧ k ∈ keys images).

Lemma step_reading_inv unreadable images s0 cfg i :
  reading_inv unreadable images s0 cfg →
  reading_inv unreadable images s0 (step (reading unreadable) images cfg i).
Proof.
  intros (Hst & Hin & Hfail & Hput & Hputs).
  destruct (images !! i) as [[file key]|] eqn:Hi;
    [|rewrite step_out_of_range by auto; by split_and!].
  destruct (cfg_tasks cfg !! i) as [s|] eqn:Hs;
    [|rewrite step_out_of_range by auto; by split_and!].
  assert (Hkey : key ∈ keys images).
  { apply list_elem_of_fmap. exists (file, key). split; [done|].
    by eapply list_elem_of_lookup_2. }
  destruct s; try (by erewrite step_finished by done; split_and!).
  - erewrite step_Waiting by done. case_decide; [|by split_and!].
    split_and!; simpl; [|..|done].
    + intros k. by erewrite uploaded_keys_insert_other.
    + intros j f k s Hj [(_ & <- & _)|[_ Hjs]]%list_lookup_insert_Some Hok;
        [naive_solver|eauto].
    + intros j e [(_ & ? & _)|[_ Hjs]]%list_lookup_insert_Some; [done|eauto].
    + intros j f k Hj [(_ & ? & _)|[_ Hjs]]%list_lookup_insert_Some; [done|eauto].
  - erewrite step_Probing by done. cbn.
    destruct (decide (key ∈ cfg_store cfg)) as [Hk|Hk]; [|rewrite decide_True by done];
      (split_and!; simpl;
       [intros k; by erewrite uploaded_keys_insert_other
       | | | |by rewrite put_keys_snoc, app_nil_r]).
    + intros j f k s Hj [(-> & <- & _)|[_ Hjs]]%list_lookup_insert_Some Hok; [|eauto].
      rewrite Hi in Hj. by injection Hj as _ <-.
    + intros j e [(_ & ? & _)|[_ Hjs]]%list_lookup_insert_Some; [done|eauto].
    + intros j f k Hj [(_ & ? & _)|[_ Hjs]]%list_lookup_insert_Some; [done|eauto].
    + intros j f k s Hj [(-> & <- & _)|[_ Hjs]]%list_lookup_insert_Some Hok;
        [naive_solver|eauto].
    + intros j e [(_ & ? & _)|[_ Hjs]]%list_lookup_insert_Some; [done|eauto].
    + intros j f k Hj [(-> & _ & _)|[_ Hjs]]%list_lookup_insert_Some; [|eauto].
      rewrite Hi in Hj. injection Hj as _ <-. intros Hk0. apply Hk, Hst. by right.
  - erewrite step_Putting by done. cbn.
    assert (Hnew : ∀ k, k ∈ put_keys (cfg_calls cfg ++ [UploadFile file S3_BUCKET key "image/jpeg"])
                      → (k ∉ s0) ∧ k ∈ keys images).
    { intros k. rewrite put_keys_snoc. simpl. intros [Hk|Hk]%elem_of_app; [eauto|].
      apply list_elem_of_singleton in Hk as ->. eauto. }
    destruct (unreadable file) as [e|] eqn:Hread; simpl; split_and!; simpl; try done.
    + intros k. by erewrite uploaded_keys_insert_other.
    + intros j f k s Hj [(_ & <- & _)|[_ Hjs]]%list_lookup_insert_Some Hok;
        [naive_solver|eauto].
    + intros j e' [(-> & [= <-] & _)|[_ Hjs]]%list_lookup_insert_Some; [eauto|eauto].
    + intros j f k Hj [(_ & ? & _)|[_ Hjs]]%list_lookup_insert_Some; [done|eauto].
    + intros k. rewrite elem_of_union, elem_of_singleton, Hst.
      rewrite (uploaded_keys_insert_Uploaded images _ i file key Putting) by done.
      rewrite elem_of_cons. tauto.
    + intros j f k s Hj [(-> & <- & _)|[_ Hjs]]%list_lookup_insert_Some Hok.
      * rewrite Hi in Hj. injection Hj as _ <-. set_solver.
      * apply elem_of_union_r. eauto.
    + intros j e' [(_ & ? & _)|[_ Hjs]]%list_lookup_insert_Some; [done|eauto].
    + intros j f k Hj [(_ & ? & _)|[_ Hjs]]%list_lookup_insert_Some; [done|eauto].
Qed.

Lemma run_reading_inv unreadable images s0 sched cfg :
  reading_inv unreadable images s0 cfg →
  reading_inv unreadable images s0 (run (reading unreadable) images sched cfg).
Proof.
  revert cfg. induction sched as [|i sched IH]; intros cfg H; [done|].
  unfold run in *. simpl. by apply IH, step_reading_inv.
Qed.

Lemma init_reading_inv unreadable images s0 :
  reading_inv unreadable images s0 (init images s0).
Proof.
  assert (H : ∀ n, uploaded_keys images (replicate n Waiting) = []).
  { induction images as [|[f k] images IH]; intros [|n]; simpl; auto. }
  unfold reading_inv, init. simpl. rewrite H. split_and!.
  - intros k. rewrite elem_of_nil. tauto.
  - intros i f k s _ [-> _]%lookup_replicate [?|?]; done.
  - intros i e [? _]%lookup_replicate. done.
  - intros i f k _ [? _]%lookup_replicate. done.
  - intros k Hk. by apply elem_of_nil in Hk.
Qed.

(** What a caller of the uploader sees of that store. *)
Lemma reading_raised unreadable images sched (s0 : gset string) e :
  res_outcome (upload_images_bulk (reading unreadable) sched images s0) = Raised e →
  ∃ f k, (f, k) ∈ images ∧ unreadable f = Some e.
Proof.
  unfold upload_images_bulk.
  pose proof (run_consistent (reading unreadable) images sched _ (init_consistent images s0))
    as [_ Hc].
  destruct (run_reading_inv unreadable images s0 sched _ (init_reading_inv unreadable images s0))
    as (_ & _ & Hfail & _).
  unfold finish. destruct (cfg_error _) as [e0|]; simpl.
  - intros [= ->]. apply list_elem_of_lookup in Hc as [i Hi].
    destruct (Hfail i e Hi) as (f & k & Hfk & Hread). exists f, k.
    split; [by eapply list_elem_of_lookup_2|done].
  - by destruct (forallb _ _).
Qed.

Lemma reading_store unreadable images sched (s0 : gset string) :
  let r := upload_images_bulk (reading unreadable) sched images s0 in
  (∀ k, k ∈ res_store r → k ∈ keys images ∨ k ∈ s0)
  ∧ (∀ k, k ∈ s0 → k ∈ res_store r)
  ∧ (∀ k, k ∈ put_keys (res_calls r) → (k ∉ s0) ∧ k ∈ keys images).
Proof.
  cbv zeta. unfold upload_images_bulk.
  destruct (run_reading_inv unreadable images s0 sched _ (init_reading_inv unreadable images s0))
    as (Hst & _ & _ & _ & Hputs).
  assert (Hs : ∀ cfg : config (gset string),
            res_store (finish cfg) = cfg_store cfg ∧ res_calls (finish cfg) = cfg_calls cfg).
  { intros cfg. unfold finish. by destruct (cfg_error cfg). }
  destruct (Hs (run (reading unreadable) images sched (init images s0))) as [-> ->].
  split_and!; [|intros k Hk; apply Hst; by right|done].
  intros k [Hk|Hk]%Hst; [left|by right].
  eapply elem_of_submseteq; [exact Hk|]. apply sublist_submseteq, uploaded_keys_sublist.
Qed.

Lemma reading_returned_keys unreadable images sched (s0 : gset string) k :
  res_outcome (upload_images_bulk (reading unreadable) sched images s0) = Returned →
  k ∈ keys images → k ∈ res_store (upload_images_bulk (reading unreadable) sched images s0).
Proof.
  intros Hret Hk.
  pose proof (returned_all_done (reading unreadable) sched images s0 Hret) as Hdone.
  pose proof (run_length (reading unreadable) images sched (init images s0)) as Hlen.
  unfold init at 2 in Hlen. simpl in Hlen. rewrite length_replicate in Hlen.
  destruct (run_reading_inv unreadable images s0 sched _ (init_reading_inv unreadable images s0))
    as (_ & Hin & _).
  unfold upload_images_bulk in *. unfold finish in *.
  destruct (cfg_error (run (reading unreadable) images sched (init images s0))); [done|].
  simpl in *.
  apply list_elem_of_fmap in Hk as ([f k'] & -> & [i Hi]%list_elem_of_lookup). simpl.
  destruct (lookup_lt_is_Some_2
              (cfg_tasks (run (reading unreadable) images sched (init images s0))) i)
    as [s Hsi]; [rewrite Hlen; by eapply lookup_lt_Some|].
  eapply Hin; [done..|]. eapply (proj1 (Forall_forall _ _) Hdone).
  by eapply list_elem_of_lookup_2.
Qed.

(** X5. Against a store in which a key exists once it has been put, and in
    which an upload fails only when its local file cannot be read, whatever
    the store holds at the start and however the tasks interleave: the
    uploader raises only what reading the file of one of its tasks raises
    (so nothing when every file can be read); it never puts a key that was
    there at the start and never a key outside the list; the store keeps
    what it held and gains keys of the list only, and when the uploader
    returns it holds every key of the list. *)
Theorem bulk_skips_existing unreadable images sched (s0 : gset string) :
  let r := upload_images_bulk (reading unreadable) sched images s0 in
  (∀ e, res_outcome r = Raised e → ∃ f k, (f, k) ∈ images ∧ unreadable f = Some e)
  ∧ (Forall (λ t, unreadable t.1 = None) images → ∀ e, res_outcome r ≠ Raised e)
  ∧ (∀ k, k ∈ put_keys (res_calls r) → (k ∉ s0) ∧ k ∈ keys images)
  ∧ (∀ k, k ∈ s0 → k ∈ res_store r)
  ∧ (∀ k, k ∈ res_store r → k ∈ keys images ∨ k ∈ s0)
  ∧ (res_outcome r = Returned → res_store r = list_to_set (keys images) ∪ s0).
Proof.
  cbv zeta. destruct (reading_store unreadable images sched s0) as (Hsub & Hkeep & Hputs).
  split_and!; [| |done..|].
  - intros e. apply reading_raised.
  - intros Hall e (f & k & Hfk & Hread)%reading_raised.
    apply (proj1 (Forall_forall _ _) Hall) in Hfk. simpl in Hfk. congruence.
  - intros Hret. apply set_eq. intros k. rewrite elem_of_union, elem_of_list_to_set. split.
    + apply Hsub.
    + intros [Hk|Hk]; [by apply reading_returned_keys|by apply Hkeep].
Qed.

End Uploader.

(* ===================================================================== *)
(** * The exporter: [import_ridges] and [import_summits] *)
(* ===================================================================== *)

Module Summits.

Import Uploader.

(** ** [itertools.groupby] *)

Section Groupby.

Context {A K : Type} (key : A → K) (eqb : K → K → bool).

(** The iterator keeps the key of the group it is in ([tgtkey]) and compares
    the key of each next element with it. [groupby_from tgtkey l] reads [l]
    inside the group of [tgtkey]: it returns the elements that still belong
    to that group and the groups that follow. *)
Fixpoint groupby_from (tgtkey : K) (l : list A) : list A * list (K * list A) :=
  match l with
  | [] => ([], [])
  | x :: l' =>
      if eqb tgtkey (key x)
      then let '(g, gs) := groupby_from tgtkey l' in (x :: g, gs)
      else let '(g, gs) := groupby_from (key x) l' in ([], (key x, x :: g) :: gs)
  end.

Definition groupby (l : list A) : list (K * list A) :=
  match l with
  | [] => []
  | x :: l' => let '(g, gs) := groupby_from (key x) l' in (key x, x :: g) :: gs
  end.

(** A run: a non-empty stretch whose elements all have the key of the
    first one. *)
Definition is_run (kg : K * list A) : Prop :=
  ∃ x g, kg.2 = x :: g ∧ kg.1 = key x ∧ Forall (λ y, eqb kg.1 (key y) = true) g.

(** The key changes from each run to the next. *)
Definition starts_after (k : K) (gs : list (K * list A)) : Prop :=
  match gs with
  | [] => True
  | kg :: _ => eqb k kg.1 = false
  end.

Fixpoint maximal (gs : list (K * list A)) : Prop :=
  match gs with
  | [] => True
  | kg :: gs' => starts_after kg.1 gs' ∧ maximal gs'
  end.

(** [gs] cuts [l] into its contiguous runs of equal key. *)
Definition runs_of (l : list A) (gs : list (K * list A)) : Prop :=
  mjoin gs.*2 = l ∧ Forall is_run gs ∧ maximal gs.

Lemma groupby_from_spec tgtkey l :
  let '(g, gs) := groupby_from tgtkey l in
  g ++ mjoin gs.*2 = l
  ∧ Forall (λ y, eqb tgtkey (key y) = true) g
  ∧ Forall is_run gs ∧ starts_after tgtkey gs ∧ maximal gs.
Proof.
  revert tgtkey. induction l as [|x l IH]; intros tgtkey; simpl; [done|].
  destruct (eqb tgtkey (key x)) eqn:Hx.
  - specialize (IH tgtkey). destruct (groupby_from tgtkey l) as [g gs].
    destruct IH as (<- & Hg & Hr & Hs & Hm). split_and!; try done. by constructor.
  - specialize (IH (key x)). destruct (groupby_from (key x) l) as [g gs].
    destruct IH as (<- & Hg & Hr & Hs & Hm). split_and!; simpl; try done.
    constructor; [|done]. exists x, g. done.
Qed.

Lemma groupby_runs l : runs_of l (groupby l).
Proof.
  destruct l as [|x l]; simpl; [done|].
  pose proof (groupby_from_spec (key x) l) as H.
  destruct (groupby_from (key x) l) as [g gs].
  destruct H as (<- & Hg & Hr & Hs & Hm). unfold runs_of. split_and!; simpl; try done.
  constructor; [|done]. exists x, g. done.
Qed.

(** Rows of equal key are contiguous: once a run has ended, no later
    element has its key. [contiguous_in k l] reads [l] inside the run of
    key [k]. *)
Fixpoint contiguous_in (k : K) (l : list A) : Prop :=
  match l with
  | [] => True
  | x :: l' =>
      if eqb k (key x) then contiguous_in k l'
      else Forall (λ y, eqb k (key y) = false) l' ∧ contiguous_in (key x) l'
  end.

Definition contiguous (l : list A) : Prop :=
  match l with
  | [] => True
  | x :: l' => contiguous_in (key x) l'
  end.

(** No two groups have the same key. *)
Fixpoint distinct_keys (gs : list (K * list A)) : Prop :=
  match gs with
  | [] => True
  | kg :: gs' => Forall (λ kg', eqb kg.1 kg'.1 = false) gs' ∧ distinct_keys gs'
  end.

Lemma groupby_from_keys tgtkey l :
  Forall (λ kg, ∃ y, y ∈ l ∧ kg.1 = key y) (groupby_from tgtkey l).2.
Proof.
  revert tgtkey. induction l as [|x l IH]; intros tgtkey; simpl; [done|].
  destruct (eqb tgtkey (key x)).
  - specialize (IH tgtkey). destruct (groupby_from tgtkey l) as [g gs]. simpl in *.
    eapply Forall_impl; [exact IH|]. intros kg (y & Hy & Hk). exists y. split; [by right|done].
  - specialize (IH (key x)). destruct (groupby_from (key x) l) as [g gs]. simpl in *.
    constructor.
    + exists x. split; [by left|done].
    + eapply Forall_impl; [exact IH|]. intros kg (y & Hy & Hk). exists y.
      split; [by right|done].
Qed.

Lemma groupby_from_distinct tgtkey l :
  contiguous_in tgtkey l →
  Forall (λ kg, eqb tgtkey kg.1 = false) (groupby_from tgtkey l).2
  ∧ distinct_keys (groupby_from tgtkey l).2.
Proof.
  revert tgtkey. induction l as [|x l IH]; intros tgtkey Hc; simpl in *; [done|].
  destruct (eqb tgtkey (key x)) eqn:Hx.
  - specialize (IH tgtkey Hc). by destruct (groupby_from tgtkey l) as [g gs].
  - destruct Hc as [Hfresh Hc]. specialize (IH (key x) Hc).
    pose proof (groupby_from_keys (key x) l) as Hkeys.
    destruct (groupby_from (key x) l) as [g gs]. simpl in *. destruct IH as [IH1 IH2].
    split_and!; [|done..]. constructor; [done|].
    eapply Forall_impl; [exact Hkeys|]. intros kg (y & Hy & ->).
    by eapply (proj1 (Forall_forall _ _) Hfresh).
Qed.

(** When the rows of equal key are contiguous, the groups have pairwise
    different keys: one group per key. *)
Lemma groupby_distinct_keys l : contiguous l → distinct_keys (groupby l).
Proof.
  destruct l as [|x l]; simpl; [done|]. intros Hc.
  pose proof (groupby_from_distinct (key x) l Hc) as H.
  by destruct (groupby_from (key x) l) as [g gs].
Qed.

End Groupby.

(** ** Rows, documents and the export directory *)

Section Exporter.

(** Python's [float] with [==] on it, and the two string functions whose
    tables are not part of the program: [translit(s, "ru", reversed=True)]
    of the transliterate package and [str.lower]. *)
Variable F : Type.
Variable float_eqb : F → F → bool.
Variable translit_ru : string → string.
Variable lower : string → string.

(** The first eight columns of the summits query. The POINT column comes
    through [Point.cast_point]: a pair of floats or [None]. *)
Record summit_cols : Type := SummitCols {
  summit_id : sqlval;
  ridge_id : sqlval;
  name : sqlval;
  name_alt : sqlval;
  height : sqlval;
  description : sqlval;
  interpretation : sqlval;
  coordinates : option (F * F)
}.

(** One row of the query: the summit and the three columns of the joined
    [summits_images] row ([None] when the summit has no image). *)
Record row : Type := Row {
  parent : summit_cols;
  image : option string;
  preview : option string;
  comment : option string
}.

Definition coordinates_eqb (a b : option (F * F)) : bool :=
  match a, b with
  | None, None => true
  | Some (x, y), Some (x', y') => float_eqb x x' && float_eqb y y'
  | _, _ => false
  end.

(** [==] on the tuples [tuple(row[:8])]. *)
Definition cols_eqb (a b : summit_cols) : bool :=
  bool_decide (summit_id a = summit_id b)
  && bool_decide (ridge_id a = ridge_id b)
  && bool_decide (name a = name b)
  && bool_decide (name_alt a = name_alt b)
  && bool_decide (height a = height b)
  && bool_decide (description a = description b)
  && bool_decide (interpretation a = interpretation b)
  && coordinates_eqb (coordinates a) (coordinates b).

(** An entry of [summit_data["images"]]. *)
Record image_ref : Type := ImageRef {
  url : string;
  preview_url : string;
  ref_comment : option string
}.

Record summit_data : Type := SummitData {
  d_name : sqlval;
  d_name_alt : sqlval;
  d_height : sqlval;
  d_description : sqlval;
  d_interpretation : sqlval;
  d_coordinates : list F;
  d_images : list image_ref
}.

(** What [yaml.dump] is given. *)
Inductive content : Type :=
  | MetaYaml (name color : sqlval)
  | SummitYaml (d : summit_data).

(** [DEST_DIR]: the ridge directories in it, and the files written into
    them, oldest first, each with its directory and its name. *)
Record fs : Type := Fs {
  dirs : list string;
  files : list (string * string * content)
}.

(** *** Paths below [DEST_DIR]

    [DEST_DIR / d] and [DEST_DIR / d / file] are pathlib joins: the text is
    cut at each [/], empty components and [.] are dropped and [..] is kept;
    a text that starts with [/] replaces [DEST_DIR]. *)
Definition parts (p : string) : list string :=
  filter (λ c, c ≠ "" ∧ c ≠ ".") (split "/" p).

Definition absolute (p : string) : bool :=
  match p with
  | String "/" _ => true
  | _ => false
  end.

(** A place below [DEST_DIR] is named by its components joined with [/];
    [dirs] lists the directories under these names, and a file is logged
    with the name of its directory and its own. [DEST_DIR] itself exists. *)
Definition path_text (comps : list string) : string := String.concat "/" comps.

Definition is_dir (s : fs) (comps : list string) : bool :=
  bool_decide (path_text comps ∈ dirs s).

Definition is_file (s : fs) (cur : list string) (n : string) : bool :=
  bool_decide ((path_text cur, n) ∈ (files s).*1).

(** The state describes [DEST_DIR] only. Where a path leaves it (an
    absolute text, or [..] above [DEST_DIR]) what the code does depends on
    the rest of the disk: the model stops there with [outside], and the
    theorems on what is created are about paths that stay below
    [DEST_DIR]. *)
Definition outside : exn := OtherError "outside DEST_DIR".

(** The system follows the components one by one from the directory [cur]:
    [..] leads to the parent, a name to the directory of that name, which
    has to exist. *)
Fixpoint walk (s : fs) (cur : list string) (comps : list string) : result (list string) :=
  match comps with
  | [] => Ok cur
  | c :: rest =>
      if decide (c = "..") then
        match cur with
        | [] => Raise outside
        | _ => walk s (removelast cur) rest
        end
      else if is_dir s (cur ++ [c]) then walk s (cur ++ [c]) rest
      else if is_file s cur c then Raise (OtherError "NotADirectoryError")
      else Raise FileNotFoundError
  end.

(** The system calls refuse a path that holds a null byte. *)
Definition null_byte (p : string) : bool := bool_decide ("000"%char ∈ chars p).

(** [os.mkdir(DEST_DIR / d)]: the directories before the last component
    have to exist, the last one must not. *)
Definition mkdir (d : string) (s : fs) : result fs :=
  if null_byte d then Raise ValueError
  else if absolute d then Raise outside
  else
    match last (parts d) with
    | None => Raise FileExistsError
    | Some c =>
        cur ← walk s [] (removelast (parts d));
        if decide (c = "..") then Raise FileExistsError
        else if is_dir s (cur ++ [c]) || is_file s cur c then Raise FileExistsError
        else Ok (Fs (dirs s ++ [path_text (cur ++ [c])]) (files s))
    end.

(** [open(DEST_DIR / d / file, "w")] and [yaml.dump] into it: the file is
    created or replaced in a directory that exists; [files] logs the
    writes. *)
Definition write_file (d file : string) (c : content) (s : fs) : result fs :=
  if null_byte d || null_byte file then Raise ValueError
  else if absolute d || absolute file then Raise outside
  else
    match last (parts d ++ parts file) with
    | None => Raise (OtherError "IsADirectoryError")
    | Some n =>
        cur ← walk s [] (removelast (parts d ++ parts file));
        if decide (n = "..") then Raise (OtherError "IsADirectoryError")
        else if is_dir s (cur ++ [n]) then Raise (OtherError "IsADirectoryError")
        else Ok (Fs (dirs s) (files s ++ [(path_text cur, n, c)]))
    end.

(** A plain name: one component, which is not [.] or [..], without a null
    byte and of at most 255 bytes (the longest name the usual file systems
    take; the model itself knows no such limit). *)
Definition plain (d : string) : Prop :=
  ("/"%char ∉ chars d) ∧ ("000"%char ∉ chars d)
  ∧ d ≠ "" ∧ d ≠ "." ∧ d ≠ ".." ∧ String.length d ≤ 255.

Lemma parts_plain d : plain d → parts d = [d].
Proof.
  intros (Hs & _ & He & Hd & _). unfold parts. rewrite split_none by done.
  by rewrite filter_cons_True, filter_nil.
Qed.

Lemma plain_no_null_byte d : plain d → null_byte d = false.
Proof. intros (_ & Hn & _). unfold null_byte. by rewrite bool_decide_eq_false_2. Qed.

Lemma plain_not_absolute d : plain d → absolute d = false.
Proof.
  intros (Hs & _). destruct d as [|a d]; [done|]. cbn in Hs.
  apply not_elem_of_cons in Hs as [Ha _]. unfold absolute.
  destruct a as [[] [] [] [] [] [] [] []]; try done.
Qed.

(** Creating a directory and writing a file, for plain names. *)
Lemma mkdir_plain d s :
  plain d →
  mkdir d s =
    if decide (d ∈ dirs s ∨ ("", d) ∈ (files s).*1) then Raise FileExistsError
    else Ok (Fs (dirs s ++ [d]) (files s)).
Proof.
  intros Hd. unfold mkdir.
  rewrite plain_no_null_byte, plain_not_absolute, parts_plain by done. simpl.
  destruct Hd as (_ & _ & _ & _ & Hdd & _). rewrite decide_False by done.
  unfold is_dir, is_file. simpl. case_decide as H.
  - destruct H as [H|H].
    + by rewrite bool_decide_eq_true_2.
    + rewrite (bool_decide_eq_true_2 (_ ∈ (files s).*1)) by done. by rewrite orb_true_r.
  - apply Decidable.not_or in H as [H1 H2]. by rewrite !bool_decide_eq_false_2.
Qed.

Lemma write_file_plain d file c s :
  plain d → plain file →
  write_file d file c s =
    if decide (d ∈ dirs s) then
      if decide (path_text [d; file] ∈ dirs s) then Raise (OtherError "IsADirectoryError")
      else Ok (Fs (dirs s) (files s ++ [(d, file, c)]))
    else if decide (("", d) ∈ (files s).*1) then Raise (OtherError "NotADirectoryError")
    else Raise FileNotFoundError.
Proof.
  intros Hd Hf. unfold write_file.
  rewrite !plain_no_null_byte, !plain_not_absolute, !parts_plain by done.
  destruct Hd as (_ & _ & _ & _ & Hdd & _). destruct Hf as (_ & _ & _ & _ & Hff & _).
  cbn [app last removelast walk orb].
  rewrite (decide_False (P := d = "..")) by done. unfold is_dir, is_file.
  change (path_text ([] ++ [d])) with d. change (path_text []) with "".
  destruct (decide (d ∈ dirs s)) as [H1|H1].
  - rewrite bool_decide_eq_true_2 by done. cbn [walk mbind result_bind app].
    rewrite (decide_False (P := file = "..")) by done.
    destruct (decide (path_text [d; file] ∈ dirs s)) as [H2|H2].
    + by rewrite bool_decide_eq_true_2.
    + rewrite bool_decide_eq_false_2 by done. done.
  - rewrite bool_decide_eq_false_2 by done.
    destruct (decide (("", d) ∈ (files s).*1)) as [H2|H2].
    + by rewrite bool_decide_eq_true_2.
    + by rewrite bool_decide_eq_false_2.
Qed.

(** Writing a file, whatever its name: it adds one entry to the log and
    leaves the directories as they are. *)
Lemma write_file_Ok_inv d file c s s' :
  write_file d file c s = Ok s' →
  ∃ d' n, s' = Fs (dirs s) (files s ++ [(d', n, c)]).
Proof.
  unfold write_file. destruct (null_byte d || null_byte file); [done|].
  destruct (absolute d || absolute file); [done|].
  destruct (last (parts d ++ parts file)) as [n|]; [|done].
  destruct (walk s [] (removelast (parts d ++ parts file))) as [cur|e]; [|done]. simpl.
  repeat case_decide; try done. destruct (is_dir s (cur ++ [n])); [done|].
  intros [= <-]. eauto.
Qed.

(** [DEST_DIR / v]: a path component has to be a [str]. *)
Definition dir_name (v : sqlval) : result string :=
  match v with
  | SText d => Ok d
  | _ => Raise TypeError
  end.

(** [import_ridges], on the rows [(id, name, color)] of the ridges query. *)
Fixpoint import_ridges (rows : list (sqlval * sqlval * sqlval)) (s : fs) : result fs :=
  match rows with
  | [] => Ok s
  | (id, nm, color) :: rest =>
      ridge_dir ← dir_name id;
      s ← mkdir ridge_dir s;
      s ← write_file ridge_dir "_meta.yaml" (MetaYaml nm color) s;
      import_ridges rest s
  end.

(** ** [gen_image_key] and the loop of [import_summits] *)

(** [translit] calls [value.translate]: [None] has no such attribute. *)
Definition gen_image_key (sid : sqlval) (comment : option string) : result string :=
  match comment with
  | None => Raise AttributeError
  | Some c => Ok (str sid +:+ "_" +:+ lower (replace " " "_" (translit_ru c)))
  end.

Definition image_s3_key (image_key : string) (i : nat) : string :=
  "summits/" +:+ image_key +:+ "_" +:+ pretty i +:+ ".jpg".

Definition preview_s3_key (image_key : string) (i : nat) : string :=
  "summits/" +:+ image_key +:+ "_" +:+ pretty i +:+ "_preview.jpg".

(** [for img in img_group: ...] with the variables it updates: the
    position [i], [summit_data["images"]] and [images_to_upload]. *)
Fixpoint image_loop (images_src_dir : string) (sid : sqlval) (img_group : list row)
    (i : nat) (images : list image_ref) (images_to_upload : list task)
  : result (list image_ref * list task) :=
  match img_group with
  | [] => Ok (images, images_to_upload)
  | img :: rest =>
      match image img with
      | None => image_loop images_src_dir sid rest i images images_to_upload
      | Some image_filename =>
          image_path ← path_join images_src_dir (Some image_filename);
          preview_path ← path_join images_src_dir (preview img);
          image_key ← gen_image_key sid (comment img);
          let images_to_upload :=
            images_to_upload ++ [(image_path, image_s3_key image_key i);
                                 (preview_path, preview_s3_key image_key i)] in
          let images :=
            images ++ [ImageRef (image_s3_key image_key i) (preview_s3_key image_key i)
                         (comment img)] in
          image_loop images_src_dir sid rest (i + 1) images images_to_upload
      end
  end.

(** [list(coordinates)] *)
Definition coordinates_list (c : option (F * F)) : result (list F) :=
  match c with
  | Some (x, y) => Ok [x; y]
  | None => Raise TypeError
  end.

(** [for summit, img_group in groupby(...)]: the body builds the document
    of one summit, queues its images and writes the file. *)
Fixpoint summits_loop (images_src_dir : string) (groups : list (summit_cols * list row))
    (s : fs) (images_to_upload : list task) : result (fs * list task) :=
  match groups with
  | [] => Ok (s, images_to_upload)
  | (summit, img_group) :: rest =>
      coords ← coordinates_list (coordinates summit);
      '(images, images_to_upload) ←
        image_loop images_src_dir (summit_id summit) img_group 0 [] images_to_upload;
      let summit_data :=
        SummitData (name summit) (name_alt summit) (height summit) (description summit)
          (interpretation summit) coords images in
      ridge_dir ← dir_name (ridge_id summit);
      s ← write_file ridge_dir (str (summit_id summit) +:+ ".yaml") (SummitYaml summit_data) s;
      summits_loop images_src_dir rest s images_to_upload
  end.

(** Lines 104 to 150 of [import_summits]: everything before the upload. *)
Definition export_summits (images_src_dir : string) (rows : list row) (s : fs)
  : result (fs * list task) :=
  summits_loop images_src_dir (groupby parent cols_eqb rows) s [].

(** [import_summits]: the export, then
    [asyncio.run(upload_images_bulk(s3_session, images_to_upload))]. *)
Definition import_summits {store : Type} (c : client store) (sched : list nat)
    (images_src_dir : string) (rows : list row) (s : fs) (st : store)
  : result (fs * bulk_result store) :=
  '(s', images_to_upload) ← export_summits images_src_dir rows s;
  let r := upload_images_bulk c sched images_to_upload st in
  match res_outcome r with
  | Raised e => Raise e
  | _ => Ok (s', r)
  end.

(** ** What the loops compute *)

(** The rows of a group that carry an image, in order. *)
Definition image_rows (g : list row) : list row :=
  filter (λ r, is_Some (image r)) g.

(** A row with an image also has a preview and a comment. *)
Definition complete_row (r : row) : Prop :=
  is_Some (image r) → is_Some (preview r) ∧ is_Some (comment r).

(** What the [j]-th image row of a group adds, when the position was [i]
    on entering the group: the reference [refs !! j] and the two tasks at
    [2 * j] and [2 * j + 1], all three with the position [i + j]. *)
Definition placed (images_src_dir : string) (sid : sqlval) (i : nat)
    (g : list row) (refs : list image_ref) (tasks : list task) : Prop :=
  length refs = length (image_rows g)
  ∧ length tasks = 2 * length (image_rows g)
  ∧ ∀ j r, image_rows g !! j = Some r →
      ∃ f p c key,
        image r = Some f ∧ preview r = Some p ∧ comment r = Some c
        ∧ gen_image_key sid (Some c) = Ok key
        ∧ refs !! j = Some (ImageRef (image_s3_key key (i + j)) (preview_s3_key key (i + j)) (Some c))
        ∧ tasks !! (2 * j) = Some (Path images_src_dir f, image_s3_key key (i + j))
        ∧ tasks !! (2 * j + 1) = Some (Path images_src_dir p, preview_s3_key key (i + j)).

Lemma image_loop_ok dir sid g i images up :
  Forall complete_row g →
  ∃ refs tasks,
    image_loop dir sid g i images up = Ok (images ++ refs, up ++ tasks)
    ∧ placed dir sid i g refs tasks.
Proof.
  unfold placed, image_rows.
  revert i images up. induction g as [|r g IH]; intros i images up Hg.
  - exists [], []. rewrite !app_nil_r. split; [done|]. by split_and!.
  - apply Forall_cons_1 in Hg as [Hr Hg]. simpl.
    destruct (image r) as [f|] eqn:Hf.
    + destruct (Hr ltac:(done)) as [[p Hp] [c Hc]]. rewrite Hp, Hc. simpl.
      edestruct (IH (i + 1)) as (refs & tasks & -> & Hl1 & Hl2 & Hpos); [done|].
      eexists (_ :: refs), (_ :: _ :: tasks). rewrite <- !app_assoc. simpl.
      split; [done|].
      rewrite filter_cons_True by (by rewrite Hf).
      split_and!; simpl; [lia..|].
      intros [|j] r' Hj; simpl in Hj.
      * injection Hj as <-. exists f, p, c. eexists. rewrite Nat.add_0_r. by split_and!.
      * destruct (Hpos j r' Hj) as (f' & p' & c' & key & ? & ? & ? & ? & ? & ? & ?).
        exists f', p', c', key.
        replace (i + S j) with (i + 1 + j) by lia.
        replace (S j + (S j + 0)) with (S (S (2 * j))) by lia.
        replace (S (S (2 * j)) + 1) with (S (S (2 * j + 1))) by lia. by split_and!.
    + rewrite filter_cons_False by (rewrite Hf; by intros [? ?]). by apply IH.
Qed.

(** What exporting one group adds to the directory and to the queue: the
    file of the summit, with its columns, its two coordinates and one
    reference per image row, and two tasks per image row, the positions
    counted from zero within the group. *)
Definition exported (images_src_dir : string) (kg : summit_cols * list row)
    (out : (string * string * content) * list task) : Prop :=
  ∃ d x y refs,
    ridge_id kg.1 = SText d ∧ coordinates kg.1 = Some (x, y)
    ∧ out.1 = (d, str (summit_id kg.1) +:+ ".yaml",
               SummitYaml (SummitData (name kg.1) (name_alt kg.1) (height kg.1)
                             (description kg.1) (interpretation kg.1) [x; y] refs))
    ∧ placed images_src_dir (summit_id kg.1) 0 kg.2 refs out.2.

(** A group the body of the loop gets through: the summit has coordinates
    and a ridge whose directory exists, the ridge id and the name of the
    document are plain names, no directory stands where the document goes,
    and the image rows are complete. *)
Definition complete_group (s : fs) (kg : summit_cols * list row) : Prop :=
  is_Some (coordinates kg.1)
  ∧ (∃ d, ridge_id kg.1 = SText d ∧ plain d ∧ d ∈ dirs s
          ∧ path_text [d; str (summit_id kg.1) +:+ ".yaml"] ∉ dirs s)
  ∧ plain (str (summit_id kg.1) +:+ ".yaml")
  ∧ Forall complete_row kg.2.

Lemma summits_loop_ok dir groups s up :
  Forall (complete_group s) groups →
  ∃ outs,
    summits_loop dir groups s up = Ok (Fs (dirs s) (files s ++ outs.*1), up ++ mjoin outs.*2)
    ∧ Forall2 (exported dir) groups outs.
Proof.
  revert s up. induction groups as [|[summit g] groups IH]; intros s up Hgs.
  - exists []. simpl. rewrite !app_nil_r. by destruct s.
  - apply Forall_cons_1 in Hgs as [([[x y] Hxy] & (d & Hd & Hpl & Hin & Hfree) & Hsid & Hg) Hgs].
    simpl in Hxy, Hd, Hg, Hfree, Hsid. simpl. rewrite Hxy. simpl.
    destruct (image_loop_ok dir (summit_id summit) g 0 [] up Hg)
      as (refs & tasks & -> & Hplaced).
    simpl. rewrite Hd. simpl.
    rewrite write_file_plain by done.
    rewrite decide_True, decide_False by done. simpl.
    edestruct (IH (Fs (dirs s) (files s ++ [(d, str (summit_id summit) +:+ ".yaml",
      SummitYaml (SummitData (name summit) (name_alt summit) (height summit)
        (description summit) (interpretation summit) [x; y] refs))])) (up ++ tasks))
      as (outs & -> & Houts); [done|].
    eexists ((_, tasks) :: outs). simpl. rewrite <- !app_assoc. simpl. split; [done|].
    constructor; [|done]. exists d, x, y, refs. by split_and!.
Qed.

(** A row the exporter gets through, wherever it stands in its group. *)
Definition exportable (s : fs) (r : row) : Prop :=
  is_Some (coordinates (parent r))
  ∧ (∃ d, ridge_id (parent r) = SText d ∧ plain d ∧ d ∈ dirs s
          ∧ path_text [d; str (summit_id (parent r)) +:+ ".yaml"] ∉ dirs s)
  ∧ plain (str (summit_id (parent r)) +:+ ".yaml")
  ∧ complete_row r.

(** Every group has the key of one of its rows. *)
Lemma groupby_rows rows k g :
  (k, g) ∈ groupby parent cols_eqb rows →
  (∃ r, r ∈ g ∧ k = parent r) ∧ ∀ r, r ∈ g → r ∈ rows.
Proof.
  intros Hkg. destruct (groupby_runs parent cols_eqb rows) as (Hjoin & Hruns & _).
  split.
  - eapply (proj1 (Forall_forall _ _) Hruns) in Hkg as (x & g' & Hg & Hk & _). simpl in *.
    subst g k. exists x. split; [by left|done].
  - intros r Hr. rewrite <- Hjoin. apply list_elem_of_join. exists g. split; [done|].
    apply list_elem_of_fmap. by exists (k, g).
Qed.

Lemma exportable_groups s rows :
  Forall (exportable s) rows →
  Forall (complete_group s) (groupby parent cols_eqb rows).
Proof.
  intros Hrows. apply Forall_forall. intros [k g] Hkg.
  destruct (groupby_rows rows k g Hkg) as [(x & Hx & ->) Hsub].
  assert (Hall : ∀ r, r ∈ g → exportable s r).
  { intros r Hr. eapply (proj1 (Forall_forall _ _) Hrows). by apply Hsub. }
  destruct (Hall x Hx) as (Hc & Hd & Hsid & _).
  split_and!; simpl; [done..|].
  apply Forall_forall. intros r Hr. by apply Hall.
Qed.

(** ** C1 *)

(** C1, as the code has it. When every row has coordinates and a ridge
    whose directory exists (the ridge id and the name of the document
    plain names, and no directory where the document goes), and every row
    with an image filename also has a
    preview filename and a comment, the exporter cuts the rows into their
    contiguous runs of equal parent key and writes exactly one document per
    run, in order (when rows of equal key are contiguous, no two runs have
    the same key); within a run the image rows get the positions 0, 1, 2,
    ..., rows without an image filename taking none, and each image row
    adds one reference to the document and two tasks to the queue. *)
Theorem export_summits_groups dir rows s :
  Forall (exportable s) rows →
  runs_of parent cols_eqb rows (groupby parent cols_eqb rows)
  ∧ (contiguous parent cols_eqb rows →
     distinct_keys cols_eqb (groupby parent cols_eqb rows))
  ∧ ∃ outs,
      export_summits dir rows s = Ok (Fs (dirs s) (files s ++ outs.*1), mjoin outs.*2)
      ∧ Forall2 (exported dir) (groupby parent cols_eqb rows) outs.
Proof.
  intros Hrows. split; [apply groupby_runs|]. split; [apply groupby_distinct_keys|].
  unfold export_summits.
  destruct (summits_loop_ok dir (groupby parent cols_eqb rows) s [])
    as (outs & Hloop & Houts); [by apply exportable_groups|].
  exists outs. by rewrite Hloop.
Qed.

(** ** C8 *)

Lemma image_loop_raises dir sid g i images up :
  Exists (λ r, is_Some (image r) ∧ preview r = None) g →
  raised (image_loop dir sid g i images up).
Proof.
  revert i images up. induction g as [|r g IH]; intros i images up Hg.
  - by apply Exists_nil in Hg.
  - simpl. apply Exists_cons in Hg as [[[f Hf] Hp]|Hg].
    + by rewrite Hf, Hp.
    + destruct (image r) as [f|]; [|by apply IH].
      destruct (preview r) as [p|]; [|done]. simpl.
      destruct (gen_image_key sid (comment r)) as [key|e]; [|done]. simpl. by apply IH.
Qed.

Lemma summits_loop_raises dir groups s up :
  Exists (λ kg, Exists (λ r, is_Some (image r) ∧ preview r = None) kg.2) groups →
  raised (summits_loop dir groups s up).
Proof.
  revert s up. induction groups as [|[summit g] groups IH]; intros s up Hgs.
  - by apply Exists_nil in Hgs.
  - simpl. destruct (coordinates_list (coordinates summit)) as [coords|e]; [|done]. simpl.
    apply Exists_cons in Hgs as [Hg|Hgs]; simpl in *.
    + pose proof (image_loop_raises dir (summit_id summit) g 0 [] up Hg) as Hr.
      by destruct (image_loop dir (summit_id summit) g 0 [] up).
    + destruct (image_loop dir (summit_id summit) g 0 [] up) as [[images up']|e]; [|done].
      simpl. destruct (dir_name (ridge_id summit)) as [d|e]; [|done]. simpl.
      destruct (write_file _ _ _ s) as [s'|e]; [|done]. simpl. by apply IH.
Qed.

(** C8, as the code has it. A row without an image filename is skipped,
    whatever its preview: no reference, no task, no position, no error. A
    row with an image filename and no preview filename is not skipped:
    building the preview path raises [TypeError], and an export whose rows
    include such a row raises. *)
Theorem null_image_skipped_null_preview_raises dir :
  (∀ sid r rest i images up,
      image r = None →
      image_loop dir sid (r :: rest) i images up = image_loop dir sid rest i images up)
  ∧ (∀ sid r rest i images up,
      is_Some (image r) → preview r = None →
      image_loop dir sid (r :: rest) i images up = Raise TypeError)
  ∧ (∀ rows s,
      Exists (λ r, is_Some (image r) ∧ preview r = None) rows →
      raised (export_summits dir rows s)).
Proof.
  split_and!.
  - intros sid r rest i images up Hf. simpl. by rewrite Hf.
  - intros sid r rest i images up [f Hf] Hp. simpl. by rewrite Hf, Hp.
  - intros rows s Hbad. unfold export_summits. apply summits_loop_raises.
    destruct (groupby_runs parent cols_eqb rows) as (Hjoin & _ & _).
    apply Exists_exists in Hbad as (r & Hr & Hbad).
    rewrite <- Hjoin in Hr. apply list_elem_of_join in Hr as (g & Hrg & Hg).
    apply list_elem_of_fmap in Hg as ([k g'] & -> & Hkg).
    apply Exists_exists. exists (k, g'). split; [done|].
    apply Exists_exists. by exists r.
Qed.

(** ** C2 *)

Lemma image_loop_inv dir sid g i images up images' up' :
  image_loop dir sid g i images up = Ok (images', up') →
  ∃ refs tasks,
    images' = images ++ refs ∧ up' = up ++ tasks
    ∧ ∀ ref, ref ∈ refs → url ref ∈ keys tasks ∧ preview_url ref ∈ keys tasks.
Proof.
  revert i images up. induction g as [|r g IH]; intros i images up H; simpl in H.
  - injection H as <- <-. exists [], []. rewrite !app_nil_r. split_and!; [done..|].
    intros ref Href. by apply elem_of_nil in Href.
  - destruct (image r) as [f|]; [|by eapply IH].
    destruct (preview r) as [p|]; [|done]. simpl in H.
    destruct (gen_image_key sid (comment r)) as [key|e]; [|done]. simpl in H.
    apply IH in H as (refs & tasks & -> & -> & Hrefs).
    eexists (_ :: refs), (_ :: _ :: tasks). rewrite <- !app_assoc. simpl.
    split_and!; [done..|].
    intros ref [->|Href]%elem_of_cons; unfold keys; simpl.
    + split; [by left|by right; left].
    + destruct (Hrefs ref Href) as [H1 H2]. split; by do 2 right.
Qed.

Lemma summits_loop_inv dir groups s up s' up' :
  summits_loop dir groups s up = Ok (s', up') →
  ∃ docs tasks,
    s' = Fs (dirs s) (files s ++ docs) ∧ up' = up ++ tasks
    ∧ ∀ d file data ref,
        (d, file, SummitYaml data) ∈ docs → ref ∈ d_images data →
        url ref ∈ keys tasks ∧ preview_url ref ∈ keys tasks.
Proof.
  revert s up. induction groups as [|[summit g] groups IH]; intros s up H; simpl in H.
  - injection H as <- <-. exists [], []. rewrite !app_nil_r. split_and!; [by destruct s|done|].
    intros d file data ref Hd. by apply elem_of_nil in Hd.
  - destruct (coordinates_list (coordinates summit)) as [coords|e]; [|done]. simpl in H.
    destruct (image_loop dir (summit_id summit) g 0 [] up) as [[images up1]|e] eqn:Himg;
      [|done]. simpl in H.
    destruct (dir_name (ridge_id summit)) as [d|e]; [|done]. simpl in H.
    destruct (write_file d _ _ s) as [s1|e] eqn:Hw; [|done]. simpl in H.
    apply write_file_Ok_inv in Hw as (d0 & n0 & ->).
    apply image_loop_inv in Himg as (refs & tasks & -> & -> & Hrefs).
    apply IH in H as (docs & tasks' & -> & -> & Hdocs). simpl.
    eexists (_ :: docs), (tasks ++ tasks'). rewrite <- !app_assoc. simpl.
    split_and!; [done..|].
    intros d' file data ref [Heq|Hd]%elem_of_cons Href; unfold keys in *; rewrite fmap_app.
    + injection Heq as -> -> ->. simpl in Href.
      destruct (Hrefs ref Href). split; by apply elem_of_app; left.
    + destruct (Hdocs d' file data ref Hd Href). split; by apply elem_of_app; right.
Qed.

(** C2. When the exporter has gone through all rows, the list it hands to
    the bulk uploader names, as destination keys, the [url] and the
    [preview_url] of every image of every document it has written. *)
Theorem export_references_queued dir rows s s' tasks :
  export_summits dir rows s = Ok (s', tasks) →
  (∃ docs, files s' = files s ++ docs
     ∧ ∀ d file data ref,
         (d, file, SummitYaml data) ∈ docs → ref ∈ d_images data →
         url ref ∈ keys tasks ∧ preview_url ref ∈ keys tasks)
  ∧ ∀ (store : Type) (c : client store) sched st,
      import_summits c sched dir rows s st =
        match res_outcome (upload_images_bulk c sched tasks st) with
        | Raised e => Raise e
        | _ => Ok (s', upload_images_bulk c sched tasks st)
        end.
Proof.
  intros H. split.
  - unfold export_summits in H.
    apply summits_loop_inv in H as (docs & tasks' & -> & -> & Hdocs).
    exists docs. done.
  - intros store c sched st. unfold import_summits. by rewrite H.
Qed.

(** ** [import_ridges]: what it creates and when it raises *)

(** The [_meta.yaml] of the ridge row [r] in the directory [d]. *)
Definition ridge_meta (d : string) (r : sqlval * sqlval * sqlval) : string * string * content :=
  (d, "_meta.yaml", MetaYaml r.1.2 r.2).

(** The ridge ids that are text are plain names. *)
Definition plain_ids (rows : list (sqlval * sqlval * sqlval)) : Prop :=
  Forall (λ r, ∀ d, r.1.1 = SText d → plain d) rows.

(** Nothing stands in [DEST_DIR] where the ridge [d] goes. *)
Definition vacant (s : fs) (d : string) : Prop :=
  (d ∉ dirs s) ∧ (("", d) ∉ (files s).*1) ∧ path_text [d; "_meta.yaml"] ∉ dirs s.

Lemma plain_meta : plain "_meta.yaml".
Proof. split_and!; [cbn; set_solver..|done|done|done|cbn; lia]. Qed.

Lemma path_text_nested d n : "/"%char ∈ chars (path_text [d; n]).
Proof.
  change (path_text [d; n]) with (d +:+ "/" +:+ n). rewrite !chars_app. apply elem_of_app. right.
  apply elem_of_app. left. cbn. by left.
Qed.

Lemma ridge_step d nm color s :
  plain d →
  (mkdir d s ≫= write_file d "_meta.yaml" (MetaYaml nm color)) =
    if decide (d ∈ dirs s ∨ ("", d) ∈ (files s).*1) then Raise FileExistsError
    else if decide (path_text [d; "_meta.yaml"] ∈ dirs s)
         then Raise (OtherError "IsADirectoryError")
         else Ok (Fs (dirs s ++ [d]) (files s ++ [(d, "_meta.yaml", MetaYaml nm color)])).
Proof.
  intros Hd. rewrite mkdir_plain by done. case_decide as H; [done|]. simpl.
  rewrite write_file_plain by (done || apply plain_meta). simpl.
  rewrite decide_True by (apply elem_of_app; right; by left).
  assert (Hne : path_text [d; "_meta.yaml"] ≠ d).
  { intros Heq. destruct Hd as (Hs & _). apply Hs. rewrite <- Heq. apply path_text_nested. }
  case_decide as H1; case_decide as H2; try done.
  - apply elem_of_app in H1 as [H1|H1%list_elem_of_singleton]; done.
  - destruct H1. apply elem_of_app. by left.
Qed.

Lemma import_ridges_cons id nm color rest s :
  import_ridges ((id, nm, color) :: rest) s =
    d ← dir_name id;
    s' ← mkdir d s ≫= write_file d "_meta.yaml" (MetaYaml nm color);
    import_ridges rest s'.
Proof.
  simpl. destruct (dir_name id) as [d|e]; [|done]. simpl.
  by destruct (mkdir d s) as [s1|e].
Qed.

Lemma import_ridges_Ok_inv rows s s' :
  plain_ids rows →
  import_ridges rows s = Ok s' →
  ∃ ids, rows.*1.*1 = SText <$> ids ∧ NoDup ids ∧ (∀ d, d ∈ ids → vacant s d)
    ∧ s' = Fs (dirs s ++ ids) (files s ++ zip_with ridge_meta ids rows).
Proof.
  revert s. induction rows as [|[[id nm] color] rows IH]; intros s Hpl H.
  - simpl in H. injection H as <-. exists []. simpl. rewrite !app_nil_r.
    split_and!; [done|constructor|intros d Hd; by apply elem_of_nil in Hd|by destruct s].
  - apply Forall_cons_1 in Hpl as [Hd Hpl]. rewrite import_ridges_cons in H.
    destruct id as [|d|n]; try done. simpl in H, Hd. specialize (Hd d eq_refl).
    rewrite ridge_step in H by done.
    case_decide as H1; [done|]. case_decide as H2; [done|]. simpl in H.
    apply IH in H as (ids & Hids & Hnd & Hfresh & ->); [|done].
    exists (d :: ids). rewrite !fmap_cons, Hids. cbn [dirs files zip_with fst snd].
    rewrite <- !app_assoc. split_and!; [done| | |done].
    + constructor; [|done]. intros Hin. destruct (Hfresh d Hin) as (Hdd & _).
      apply Hdd. simpl. apply elem_of_app. right. by left.
    + intros d' [->|Hin]%elem_of_cons.
      * unfold vacant. split_and!; [| |done]; intros Hdd; apply H1; [by left|by right].
      * destruct (Hfresh d' Hin) as (Hdd & Hff & Hmm). unfold vacant. simpl in *.
        split_and!.
        -- intros Hd'. apply Hdd. apply elem_of_app. by left.
        -- intros Hf'. apply Hff. rewrite fmap_app. apply elem_of_app. by left.
        -- intros Hm'. apply Hmm. apply elem_of_app. by left.
Qed.

Lemma import_ridges_ok rows s ids :
  Forall plain ids →
  rows.*1.*1 = SText <$> ids → NoDup ids → (∀ d, d ∈ ids → vacant s d) →
  import_ridges rows s = Ok (Fs (dirs s ++ ids) (files s ++ zip_with ridge_meta ids rows)).
Proof.
  revert s ids. induction rows as [|[[id nm] color] rows IH];
    intros s [|d ids] Hpl Hids Hnd Hfresh; simpl in Hids; try done.
  - simpl. rewrite !app_nil_r. by destruct s.
  - injection Hids as -> Hids. apply NoDup_cons in Hnd as [Hd Hnd].
    apply Forall_cons_1 in Hpl as [Hdpl Hpl].
    rewrite import_ridges_cons. simpl. rewrite ridge_step by done.
    destruct (Hfresh d) as (Hdd & Hff & Hmm); [by left|].
    rewrite decide_False by (intros [?|?]; done). rewrite decide_False by done. simpl.
    rewrite (IH _ ids); [simpl; by rewrite <- !app_assoc|done..|].
    intros d' Hd'. destruct (Hfresh d') as (Hdd' & Hff' & Hmm'); [by right|].
    assert (Hd'pl : plain d') by (by eapply (proj1 (Forall_forall _ _) Hpl)).
    assert (d' ≠ d) by (by intros ->). unfold vacant. split_and!; simpl.
    + intros [Hin|Hin%list_elem_of_singleton]%elem_of_app; done.
    + rewrite fmap_app. intros [Hin|Hin%list_elem_of_singleton]%elem_of_app; [done|].
      simpl in Hin. injection Hin as Hin _. destruct Hdpl as (_ & _ & ? & _). done.
    + intros [Hin|Hin%list_elem_of_singleton]%elem_of_app; [done|].
      destruct Hdpl as (Hs & _). apply Hs. rewrite <- Hin. apply path_text_nested.
Qed.

Lemma import_ridges_raises rows s e :
  plain_ids rows →
  import_ridges rows s = Raise e →
  e = TypeError ∨ e = FileExistsError ∨ e = OtherError "IsADirectoryError".
Proof.
  revert s. induction rows as [|[[id nm] color] rows IH]; intros s Hpl H; [done|].
  apply Forall_cons_1 in Hpl as [Hd Hpl]. rewrite import_ridges_cons in H.
  destruct id as [|d|n]; simpl in H; try (left; congruence).
  simpl in Hd. specialize (Hd d eq_refl). rewrite ridge_step in H by done.
  case_decide as H1; [simpl in H; right; left; congruence|].
  case_decide as H2; [simpl in H; right; right; congruence|]. simpl in H. by eapply IH.
Qed.

(** X6. For ridge rows whose text ids are plain names (one component, not
    [.] or [..]), [import_ridges] succeeds exactly when the ids are text,
    pairwise different, and nothing stands in [DEST_DIR] where a ridge
    goes; it then has created one directory per ridge, in order, each with
    its [_meta.yaml] of name and color, and has touched nothing else. When
    it raises, it is with [TypeError] (an id that is not text),
    [FileExistsError] (the directory, or a file of that name, exists) or
    [IsADirectoryError] (a directory stands where [_meta.yaml] goes). *)
Theorem import_ridges_creates rows s :
  plain_ids rows →
  (∀ s', import_ridges rows s = Ok s' ↔
     ∃ ids, rows.*1.*1 = SText <$> ids ∧ NoDup ids ∧ (∀ d, d ∈ ids → vacant s d)
       ∧ s' = Fs (dirs s ++ ids) (files s ++ zip_with ridge_meta ids rows))
  ∧ (∀ e, import_ridges rows s = Raise e →
       e = TypeError ∨ e = FileExistsError ∨ e = OtherError "IsADirectoryError").
Proof.
  intros Hpl. split.
  - intros s'. split; [by apply import_ridges_Ok_inv|].
    intros (ids & Hids & Hnd & Hfresh & ->). apply import_ridges_ok; [|done..].
    apply Forall_forall. intros d [i Hd]%list_elem_of_lookup.
    assert (Hrow : rows.*1.*1 !! i = Some (SText d)) by (by rewrite Hids, list_lookup_fmap, Hd).
    rewrite !list_lookup_fmap in Hrow.
    destruct (rows !! i) as [r|] eqn:Hr; [|done]. simpl in Hrow. injection Hrow as Hrow.
    eapply (proj1 (Forall_forall _ _) Hpl); [by eapply list_elem_of_lookup_2|done].
  - intros e. by apply import_ridges_raises.
Qed.

(** The paths of the importer's own data: a ridge id with a [/] names a
    place below another directory, which has to exist, and an empty id
    names [DEST_DIR] itself. *)
Example mkdir_nested_and_empty :
  mkdir "a/b" (Fs [] []) = Raise FileNotFoundError
  ∧ mkdir "" (Fs [] []) = Raise FileExistsError
  ∧ mkdir "r1/" (Fs [] []) = Ok (Fs ["r1"] [])
  ∧ mkdir "a/b" (Fs ["a"] []) = Ok (Fs ["a"; "a/b"] [])
  ∧ write_file "r1" "a/b.yaml" (MetaYaml SNull SNull) (Fs ["r1"] [])
      = Raise FileNotFoundError.
Proof. split_and!; reflexivity. Qed.

(** ** When the export gets through *)

(** The ridge id, when it is text, and the name of the document are
    plain names. *)
Definition plain_names (k : summit_cols) : Prop :=
  (∀ d, ridge_id k = SText d → plain d) ∧ plain (str (summit_id k) +:+ ".yaml").

Lemma image_loop_Ok_complete dir sid g i images up res :
  image_loop dir sid g i images up = Ok res → Forall complete_row g.
Proof.
  revert i images up. induction g as [|r g IH]; intros i images up H; [constructor|].
  simpl in H. unfold complete_row at 1.
  destruct (image r) as [f|] eqn:Hf.
  - destruct (preview r) as [p|] eqn:Hp; [|done]. simpl in H.
    destruct (comment r) as [c|] eqn:Hc; [|done]. simpl in H.
    constructor; [|by eapply IH]. rewrite Hp, Hc. intros _. by split.
  - constructor; [|by eapply IH]. rewrite Hf. by intros [? ?].
Qed.

Lemma complete_group_dirs s s' kg :
  dirs s' = dirs s → complete_group s kg → complete_group s' kg.
Proof. unfold complete_group. by intros ->. Qed.

Lemma summits_loop_Ok_complete dir groups s up res :
  Forall (λ kg, plain_names kg.1) groups →
  summits_loop dir groups s up = Ok res → Forall (complete_group s) groups.
Proof.
  revert s up. induction groups as [|[summit g] groups IH]; intros s up Hpl H; [constructor|].
  apply Forall_cons_1 in Hpl as [[Hrid Hsid] Hpl]. simpl in H, Hrid, Hsid.
  destruct (coordinates summit) as [[x y]|] eqn:Hxy; [|done]. simpl in H.
  destruct (image_loop dir (summit_id summit) g 0 [] up) as [[images up1]|e] eqn:Himg;
    [|done]. simpl in H.
  destruct (ridge_id summit) as [|d|n] eqn:Hd; try done. simpl in H.
  specialize (Hrid d eq_refl).
  rewrite write_file_plain in H by done.
  case_decide as Hin; [|by case_decide]. case_decide as Hfree; [done|]. simpl in H.
  constructor.
  - unfold complete_group. simpl. rewrite Hxy, Hd. split_and!; [done|by exists d|done|].
    by eapply image_loop_Ok_complete.
  - apply IH in H; [|done]. eapply Forall_impl; [exact H|]. intros kg.
    by apply complete_group_dirs.
Qed.

(** X7. For rows whose ridge ids and document names are plain names, the
    export of the summits gets through exactly when every
    group has coordinates, a text ridge id whose directory exists, no
    directory where its document goes, and a preview and a comment on each
    of its rows that has an image: these are all the ways the loop of
    [import_summits] can raise. *)
Theorem export_summits_succeeds_iff dir rows s :
  Forall (λ r, plain_names (parent r)) rows →
  (∃ res, export_summits dir rows s = Ok res)
  ↔ Forall (complete_group s) (groupby parent cols_eqb rows).
Proof.
  intros Hpl. unfold export_summits. split.
  - intros [res H]. eapply summits_loop_Ok_complete; [|done].
    apply Forall_forall. intros [k g] Hkg.
    destruct (groupby_rows rows k g Hkg) as [(x & Hx & ->) Hsub]. simpl.
    eapply (proj1 (Forall_forall _ _) Hpl). by apply Hsub.
  - intros H. destruct (summits_loop_ok dir _ s [] H) as (outs & -> & _). eauto.
Qed.

(** [DEST_DIR] holds no directory below a directory. *)
Definition flat (s : fs) : Prop := Forall (λ p, "/"%char ∉ chars p) (dirs s).

(** X8. After [import_ridges] has filled a [DEST_DIR] that had no nested
    directory with ridges of plain names, the export of summits whose ridge
    ids are among the imported ones never fails on a path: it gets through
    whenever the rows have coordinates, a document name that is a plain
    name, and a
    preview and a comment on their image rows, and writes one document per
    group into the directories created for the ridges. *)
Theorem ridges_then_summits dir ridges rows s0 s :
  plain_ids ridges → flat s0 →
  import_ridges ridges s0 = Ok s →
  Forall (λ r, is_Some (coordinates (parent r))
               ∧ ridge_id (parent r) ∈ ridges.*1.*1
               ∧ plain (str (summit_id (parent r)) +:+ ".yaml")
               ∧ complete_row r) rows →
  ∃ outs,
    export_summits dir rows s = Ok (Fs (dirs s) (files s ++ outs.*1), mjoin outs.*2)
    ∧ Forall2 (exported dir) (groupby parent cols_eqb rows) outs
    ∧ Forall (λ out, out.1.1.1 ∈ dirs s) outs.
Proof.
  intros Hpl Hflat Hridges Hrows.
  apply import_ridges_Ok_inv in Hridges as (ids & Hids & _ & _ & ->); [|done].
  assert (Hplain : ∀ d, d ∈ ids → plain d).
  { intros d [i Hd]%list_elem_of_lookup.
    assert (Hrow : ridges.*1.*1 !! i = Some (SText d))
      by (by rewrite Hids, list_lookup_fmap, Hd).
    rewrite !list_lookup_fmap in Hrow.
    destruct (ridges !! i) as [r|] eqn:Hr; [|done]. simpl in Hrow. injection Hrow as Hrow.
    eapply (proj1 (Forall_forall _ _) Hpl); [by eapply list_elem_of_lookup_2|done]. }
  assert (Hexp : Forall (exportable (Fs (dirs s0 ++ ids)
                   (files s0 ++ zip_with ridge_meta ids ridges))) rows).
  { eapply Forall_impl; [exact Hrows|]. intros r (Hc & Hr & Hsid & Hrow).
    split_and!; [done| |done..]. rewrite Hids in Hr.
    apply list_elem_of_fmap in Hr as (d & -> & Hd). exists d. simpl.
    split_and!; [done|by apply Hplain|apply elem_of_app; by right|].
    intros [Hin|Hin]%elem_of_app.
    - apply (proj1 (Forall_forall _ _) Hflat) in Hin. apply Hin, path_text_nested.
    - apply Hplain in Hin as (Hin & _). apply Hin, path_text_nested. }
  apply exportable_groups in Hexp.
  destruct (summits_loop_ok dir _ _ [] Hexp) as (outs & Hloop & Houts).
  exists outs. unfold export_summits. rewrite Hloop. split_and!; [done..|].
  clear Hloop. revert Hexp. induction Houts as [|kg out groups outs Hout _ IH]; [constructor|].
  intros [(_ & (d & Hd & _ & Hin & _) & _) Hexp]%Forall_cons_1. constructor; [|by apply IH].
  destruct Hout as (d' & x & y & refs & Hd' & _ & -> & _). simpl.
  rewrite Hd in Hd'. by injection Hd' as <-.
Qed.

(** ** The object keys *)

Lemma chars_image_s3_key k i :
  chars (image_s3_key k i) =
    chars "summits/" ++ chars k ++ "_"%char :: (chars (pretty i) ++ chars ".jpg").
Proof. unfold image_s3_key. by rewrite !chars_app. Qed.

Lemma chars_preview_s3_key k i :
  chars (preview_s3_key k i) =
    chars "summits/" ++ (chars k ++ "_"%char :: chars (pretty i))
      ++ "_"%char :: chars "preview.jpg".
Proof. unfold preview_s3_key. rewrite !chars_app. cbn. by rewrite <- !app_assoc. Qed.

Lemma position_no_underscore (i : nat) : "_"%char ∉ chars (pretty i) ++ chars ".jpg".
Proof.
  intros [H|H]%elem_of_app.
  - by eapply digits_no_underscore; [apply pretty_nat_digits|].
  - cbn in H. set_solver.
Qed.

Lemma key_and_position_inj k (i : nat) k' (j : nat) :
  chars k ++ "_"%char :: chars (pretty i) = chars k' ++ "_"%char :: chars (pretty j) →
  k = k' ∧ i = j.
Proof.
  intros H. apply not_elem_of_app_cons_inv_r in H as (Hk & _ & Hi);
    [|apply digits_no_underscore, pretty_nat_digits..].
  split; [by apply chars_inj|]. by apply (inj pretty), chars_inj.
Qed.

Lemma image_s3_key_inj k i k' j :
  image_s3_key k i = image_s3_key k' j → k = k' ∧ i = j.
Proof.
  intros H%(f_equal chars). rewrite !chars_image_s3_key in H.
  apply app_inv_head in H.
  apply not_elem_of_app_cons_inv_r in H as (Hk & _ & Hi); [|apply position_no_underscore..].
  apply app_inv_tail in Hi. split; [by apply chars_inj|]. by apply (inj pretty), chars_inj.
Qed.

Lemma preview_s3_key_inj k i k' j :
  preview_s3_key k i = preview_s3_key k' j → k = k' ∧ i = j.
Proof.
  intros H%(f_equal chars). rewrite !chars_preview_s3_key in H.
  apply app_inv_head, app_inv_tail in H. by apply key_and_position_inj.
Qed.

Lemma image_s3_key_not_preview k i k' j : image_s3_key k i ≠ preview_s3_key k' j.
Proof.
  intros H%(f_equal chars). rewrite chars_image_s3_key, chars_preview_s3_key in H.
  apply app_inv_head in H.
  apply not_elem_of_app_cons_inv_r in H as (_ & _ & H);
    [|cbn; set_solver|apply position_no_underscore].
  pose proof (pretty_nat_digits i) as Hd.
  destruct (chars (pretty i)) as [|a l]; [done|].
  injection H as -> _. apply Forall_cons_1 in Hd as [[n Hn] _]. done.
Qed.

(** X9. The naming of the objects loses nothing: the key of an image and
    the key of a preview each determine the image key and the position they
    were built from, and no image key is a preview key. *)
Theorem s3_keys_injective :
  (∀ k i k' j, image_s3_key k i = image_s3_key k' j → k = k' ∧ i = j)
  ∧ (∀ k i k' j, preview_s3_key k i = preview_s3_key k' j → k = k' ∧ i = j)
  ∧ (∀ k i k' j, image_s3_key k i ≠ preview_s3_key k' j).
Proof.
  split_and!;
    [apply image_s3_key_inj|apply preview_s3_key_inj|apply image_s3_key_not_preview].
Qed.

(** The keys a document names, image and preview by image. *)
Definition ref_keys (refs : list image_ref) : list string :=
  mjoin ((λ r, [url r; preview_url r]) <$> refs).

(** A key built for a position from [i] on. *)
Definition from_position (i : nat) (key : string) : Prop :=
  ∃ k j, i ≤ j ∧ (key = image_s3_key k j ∨ key = preview_s3_key k j).

Lemma image_loop_distinct dir sid g i images up images' up' :
  image_loop dir sid g i images up = Ok (images', up') →
  ∃ refs tasks,
    images' = images ++ refs ∧ up' = up ++ tasks
    ∧ ref_keys refs = keys tasks
    ∧ NoDup (keys tasks) ∧ Forall (from_position i) (keys tasks).
Proof.
  revert i images up. induction g as [|r g IH]; intros i images up H; simpl in H.
  - injection H as <- <-. exists [], []. rewrite !app_nil_r.
    split_and!; [done..|constructor|constructor].
  - destruct (image r) as [f|]; [|by eapply IH].
    destruct (preview r) as [p|]; [|done]. simpl in H.
    destruct (gen_image_key sid (comment r)) as [key|e]; [|done]. simpl in H.
    apply IH in H as (refs & tasks & -> & -> & Hkeys & Hnd & Hpos).
    eexists (_ :: refs), (_ :: _ :: tasks). rewrite <- !app_assoc. simpl.
    split_and!; [done..| | |].
    + unfold ref_keys, keys in *. simpl. by rewrite <- Hkeys.
    + unfold keys in *. simpl.
      assert (Hlater : ∀ key0, key0 ∈ tasks.*2 → from_position (i + 1) key0)
        by (intros key0; apply (proj1 (Forall_forall _ _) Hpos)).
      apply NoDup_cons. split.
      * intros [Heq|Hin]%elem_of_cons; [by apply image_s3_key_not_preview in Heq|].
        destruct (Hlater _ Hin) as (k & j & Hj & [Heq|Heq]).
        -- apply image_s3_key_inj in Heq as [_ ->]. lia.
        -- by apply image_s3_key_not_preview in Heq.
      * apply NoDup_cons. split; [|done]. intros Hin.
        destruct (Hlater _ Hin) as (k & j & Hj & [Heq|Heq]).
        -- symmetry in Heq. by apply image_s3_key_not_preview in Heq.
        -- apply preview_s3_key_inj in Heq as [_ ->]. lia.
    + unfold keys in *. simpl. constructor; [exists key, i; auto|].
      constructor; [exists key, i; auto|].
      eapply Forall_impl; [exact Hpos|]. intros key0 (k & j & Hj & Hk).
      exists k, j. split; [lia|done].
Qed.

Lemma summits_loop_distinct dir groups s up s' up' :
  summits_loop dir groups s up = Ok (s', up') →
  ∃ docs, files s' = files s ++ docs
    ∧ ∀ d file data, (d, file, SummitYaml data) ∈ docs → NoDup (ref_keys (d_images data)).
Proof.
  revert s up. induction groups as [|[summit g] groups IH]; intros s up H; simpl in H.
  - injection H as <- <-. exists []. rewrite app_nil_r. split; [done|].
    intros d file data Hd. by apply elem_of_nil in Hd.
  - destruct (coordinates_list (coordinates summit)) as [coords|e]; [|done]. simpl in H.
    destruct (image_loop dir (summit_id summit) g 0 [] up) as [[images up1]|e] eqn:Himg;
      [|done]. simpl in H.
    destruct (dir_name (ridge_id summit)) as [d|e]; [|done]. simpl in H.
    destruct (write_file d _ _ s) as [s1|e] eqn:Hw; [|done]. simpl in H.
    apply write_file_Ok_inv in Hw as (d0 & n0 & ->).
    apply image_loop_distinct in Himg as (refs & tasks & -> & -> & Hkeys & Hnd & _).
    apply IH in H as (docs & -> & Hdocs). simpl.
    eexists (_ :: docs). rewrite <- app_assoc. split; [done|].
    intros d' file data [Heq|Hd]%elem_of_cons; [|by eapply Hdocs].
    injection Heq as -> -> ->. simpl. by rewrite Hkeys.
Qed.

(** X10. Within one summit document no two images share an object key,
    whatever their comments: the urls and preview urls of the document are
    pairwise different, because each carries the position of its row. *)
Theorem document_keys_distinct dir rows s s' tasks :
  export_summits dir rows s = Ok (s', tasks) →
  ∃ docs, files s' = files s ++ docs
    ∧ ∀ d file data, (d, file, SummitYaml data) ∈ docs → NoDup (ref_keys (d_images data)).
Proof. unfold export_summits. apply summits_loop_distinct. Qed.

(** The keys built for the summit [sid]. *)
Definition owned_by (sid : sqlval) (key : string) : Prop :=
  ∃ rest, key = "summits/" +:+ str sid +:+ "_" +:+ rest.

Lemma owned_by_same sid sid' key :
  "_"%char ∉ chars (str sid) → "_"%char ∉ chars (str sid') →
  owned_by sid key → owned_by sid' key → str sid = str sid'.
Proof.
  intros Hs Hs' [rest ->] [rest' H%(f_equal chars)].
  rewrite !chars_app in H. apply app_inv_head in H.
  apply not_elem_of_app_cons_inv_l in H as (H & _); [|done..].
  by apply chars_inj.
Qed.

Lemma image_loop_owned dir sid g i images up images' up' :
  image_loop dir sid g i images up = Ok (images', up') →
  ∃ tasks, up' = up ++ tasks ∧ Forall (owned_by sid) (keys tasks).
Proof.
  revert i images up. induction g as [|r g IH]; intros i images up H; simpl in H.
  - injection H as <- <-. exists []. rewrite app_nil_r. split; [done|constructor].
  - destruct (image r) as [f|]; [|by eapply IH].
    destruct (preview r) as [p|]; [|done]. simpl in H.
    destruct (comment r) as [c|]; [|done]. simpl in H.
    apply IH in H as (tasks & -> & Hown).
    eexists (_ :: _ :: tasks). rewrite <- !app_assoc. split; [done|].
    unfold keys in *. simpl. constructor; [|constructor; [|done]]; eexists;
      unfold image_s3_key, preview_s3_key; by rewrite !append_assoc.
Qed.

Lemma summits_loop_distinct_keys dir groups s up s' up' :
  summits_loop dir groups s up = Ok (s', up') →
  Forall (λ kg, "_"%char ∉ chars (str (summit_id kg.1))) groups →
  NoDup ((λ kg, str (summit_id kg.1)) <$> groups) →
  ∃ tasks, up' = up ++ tasks ∧ NoDup (keys tasks)
    ∧ Forall (λ key, ∃ kg, kg ∈ groups ∧ owned_by (summit_id kg.1) key) (keys tasks).
Proof.
  revert s up. induction groups as [|[summit g] groups IH]; intros s up H Hids Hnd; simpl in H.
  - injection H as <- <-. exists []. rewrite app_nil_r. split_and!; [done|constructor..].
  - destruct (coordinates_list (coordinates summit)) as [coords|e]; [|done]. simpl in H.
    destruct (image_loop dir (summit_id summit) g 0 [] up) as [[images up1]|e] eqn:Himg;
      [|done]. simpl in H.
    destruct (dir_name (ridge_id summit)) as [d|e]; [|done]. simpl in H.
    destruct (write_file d _ _ s) as [s1|e] eqn:Hw; [|done]. simpl in H.
    apply write_file_Ok_inv in Hw as (d0 & n0 & ->).
    apply Forall_cons_1 in Hids as [Hid Hids]. rewrite fmap_cons in Hnd.
    apply NoDup_cons in Hnd as [Hfresh Hnd]. simpl in Hid, Hfresh.
    pose proof (image_loop_owned _ _ _ _ _ _ _ _ Himg) as (tasks0 & Hup1 & Hown).
    apply image_loop_distinct in Himg as (refs & tasks & _ & -> & _ & Hnd1 & _).
    apply app_inv_head in Hup1 as <-.
    apply IH in H as (tasks' & -> & Hnd2 & Hown2); [|done..].
    exists (tasks ++ tasks'). rewrite <- app_assoc. split; [done|].
    unfold keys in *. rewrite fmap_app. split.
    + apply NoDup_app. split_and!; [done| |done].
      intros key Hk1 Hk2.
      apply (proj1 (Forall_forall _ _) Hown) in Hk1.
      apply (proj1 (Forall_forall _ _) Hown2) in Hk2 as (kg & Hkg & Hk2).
      apply Hfresh. apply list_elem_of_fmap. exists kg. split; [|done].
      eapply owned_by_same; [done| |done..].
      by apply (proj1 (Forall_forall _ _) Hids).
    + apply Forall_app. split.
      * eapply Forall_impl; [exact Hown|]. intros key Hk. exists (summit, g).
        split; [by left|done].
      * eapply Forall_impl; [exact Hown2|]. intros key (kg & Hkg & Hk). exists kg.
        split; [by right|done].
Qed.

(** X11. When the summit ids of the groups are pairwise different and
    none holds an underscore, no two tasks of the queue have the same
    object key: no image of the export overwrites another one. *)
Theorem export_keys_distinct dir rows s s' tasks :
  export_summits dir rows s = Ok (s', tasks) →
  Forall (λ kg, "_"%char ∉ chars (str (summit_id kg.1))) (groupby parent cols_eqb rows) →
  NoDup ((λ kg, str (summit_id kg.1)) <$> groupby parent cols_eqb rows) →
  NoDup (keys tasks).
Proof.
  unfold export_summits. intros H Hids Hnd.
  by destruct (summits_loop_distinct_keys _ _ _ _ _ _ H Hids Hnd) as (tasks' & -> & ? & _).
Qed.

(** X12. [import_summits] against a store in which a key exists once it
    has been put and an upload fails only when its local file cannot be
    read: when it raises, either the export loop has raised or the file of
    a queued task could not be read (the loop queues the paths without
    looking at the disk); and once the function has returned with the
    upload finished, the bucket holds the image and the preview of every
    reference of every document written. *)
Theorem import_summits_images_stored unreadable sched dir rows s (s0 : gset string) :
  (∀ e, import_summits (reading unreadable) sched dir rows s s0 = Raise e →
        export_summits dir rows s = Raise e
        ∨ ∃ s' tasks f k,
            export_summits dir rows s = Ok (s', tasks)
            ∧ (f, k) ∈ tasks ∧ unreadable f = Some e)
  ∧ ∀ s' r,
      import_summits (reading unreadable) sched dir rows s s0 = Ok (s', r) →
      res_outcome r = Returned →
      ∃ docs, files s' = files s ++ docs
        ∧ ∀ d file data ref,
            (d, file, SummitYaml data) ∈ docs → ref ∈ d_images data →
            url ref ∈ res_store r ∧ preview_url ref ∈ res_store r.
Proof.
  unfold import_summits, export_summits.
  destruct (summits_loop dir (groupby parent cols_eqb rows) s []) as [[s1 up]|e0] eqn:H;
    simpl; [|split; [intros e [= ->]; by left|intros s' r Hr; discriminate Hr]].
  split.
  - intros e He. right. exists s1, up.
    destruct (res_outcome (upload_images_bulk (reading unreadable) sched up s0)) as [|e1|] eqn:Ho;
      [done| |done].
    injection He as ->. apply reading_raised in Ho as (f & k & Hfk & Hread). by exists f, k.
  - intros s' r Hr Hret.
    assert (s' = s1 ∧ r = upload_images_bulk (reading unreadable) sched up s0) as [-> ->].
    { destruct (res_outcome (upload_images_bulk (reading unreadable) sched up s0)); [|done|];
        by injection Hr as <- <-. }
    apply summits_loop_inv in H as (docs & tasks & -> & Hup & Hdocs).
    simpl in Hup. subst up. exists docs. split; [done|].
    intros d file data ref Hd Href. destruct (Hdocs d file data ref Hd Href).
    split; by apply reading_returned_keys.
Qed.

End Exporter.

Arguments SummitCols {F} _ _ _ _ _ _ _ _.
Arguments Row {F} _ _ _ _.
Arguments SummitData {F} _ _ _ _ _ _ _.
Arguments MetaYaml {F} _ _.
Arguments SummitYaml {F} _.
Arguments Fs {F} _ _.
Arguments parent {F} _.
Arguments image {F} _.
Arguments preview {F} _.
Arguments comment {F} _.
Arguments dirs {F} _.
Arguments files {F} _.
Arguments d_coordinates {F} _.
Arguments d_images {F} _.
Arguments image_rows {F} _.
Arguments complete_row {F} _.
Arguments exportable {F} _ _.

End Summits.

(* ===================================================================== *)
(** * The mirror: [import_users] and [import_climbs] *)
(* ===================================================================== *)

Module Mirror.

Import Uploader.

(** The SQLite tables. [users] has [id INTEGER PRIMARY KEY]: a map from the
    id to the other columns. [user_images] and [climbs] have no key: the
    rows in the order of their insertion. *)
Record user : Type := User {
  oauth_id : string;
  src : Z;
  user_name : string
}.

Record user_image : Type := UserImage {
  ui_user_id : Z;
  ui_size : string;
  ui_url : string
}.

Record climb : Type := Climb {
  c_user_id : sqlval;
  c_summit_id : sqlval;
  c_comment : sqlval;
  c_year : sqlval;
  c_month : sqlval;
  c_day : sqlval
}.

Record db : Type := Db {
  users : gmap Z user;
  user_images : list user_image;
  climbs : list climb
}.

(** [INSERT INTO users (...) VALUES (...) ON CONFLICT DO NOTHING] *)
Definition insert_user (id : Z) (u : user) (d : db) : db :=
  match users d !! id with
  | Some _ => d
  | None => Db (<[id := u]> (users d)) (user_images d) (climbs d)
  end.

(** [INSERT INTO user_images (user_id, size, url) VALUES (?, ?, ?)] *)
Definition insert_user_image (x : user_image) (d : db) : db :=
  Db (users d) (user_images d ++ [x]) (climbs d).

(** [INSERT INTO climbs (...) VALUES (?, ?, ?, ?, ?, ?)] *)
Definition insert_climb (x : climb) (d : db) : db :=
  Db (users d) (user_images d) (climbs d ++ [x]).

(** A row of the users query. *)
Record user_row : Type := UserRow {
  u_id : Z;
  u_oauth_id : string;
  u_src : Z;
  u_name : string;
  u_image : option string;
  u_preview : option string
}.

(** [if image:] holds for a non-empty [str]. *)
Definition truthy (v : option string) : bool :=
  match v with
  | Some s => negb (bool_decide (s = ""))
  | None => false
  end.

Definition user_key (id : Z) (size : string) : string :=
  "users/" +:+ pretty id +:+ "_" +:+ size +:+ ".jpg".

Section Users.

(** [Path.exists] on the local disk. *)
Variable path_exists : path → bool.

(** [for img, size in [(image, "M"), (preview, "S")]: ...] *)
Fixpoint assets_loop (images_src_dir : string) (id : Z) (l : list (option string * string))
    (d : db) (images_to_upload : list task) : result (db * list task) :=
  match l with
  | [] => Ok (d, images_to_upload)
  | (img, size) :: rest =>
      img_path ← path_join images_src_dir img;
      if path_exists img_path then
        let img_key := user_key id size in
        assets_loop images_src_dir id rest
          (insert_user_image (UserImage id size img_key) d)
          (images_to_upload ++ [(img_path, img_key)])
      else assets_loop images_src_dir id rest d images_to_upload
  end.

(** [for row in cur: ...] of [import_users]. *)
Fixpoint users_loop (images_src_dir : string) (rows : list user_row)
    (d : db) (images_to_upload : list task) : result (db * list task) :=
  match rows with
  | [] => Ok (d, images_to_upload)
  | row :: rest =>
      let d := insert_user (u_id row) (User (u_oauth_id row) (u_src row) (u_name row)) d in
      if truthy (u_image row) then
        '(d, images_to_upload) ←
          assets_loop images_src_dir (u_id row) [(u_image row, "M"); (u_preview row, "S")]
            d images_to_upload;
        users_loop images_src_dir rest d images_to_upload
      else users_loop images_src_dir rest d images_to_upload
  end.

(** [import_users]: the loop, the upload, then [sqlite_conn.commit()]. The
    result is the committed database; when the loop or the upload raises,
    nothing is committed. *)
Definition import_users {store : Type} (c : client store) (sched : list nat)
    (images_src_dir : string) (rows : list user_row) (d : db) (st : store)
  : result (db * bulk_result store) :=
  '(d', images_to_upload) ← users_loop images_src_dir rows d [];
  let r := upload_images_bulk c sched images_to_upload st in
  match res_outcome r with
  | Raised e => Raise e
  | _ => Ok (d', r)
  end.

(** [import_climbs]: one [INSERT] per row, then the commit. *)
Definition import_climbs (rows : list climb) (d : db) : db :=
  foldl (λ d x, insert_climb x d) d rows.

(** ** The association rows a run adds *)

Definition with_images (d : db) (imgs : list user_image) : db :=
  Db (users d) (user_images d ++ imgs) (climbs d).

Lemma with_images_nil d : with_images d [] = d.
Proof. unfold with_images. rewrite app_nil_r. by destruct d. Qed.

Lemma with_images_app d l1 l2 : with_images (with_images d l1) l2 = with_images d (l1 ++ l2).
Proof. unfold with_images. simpl. by rewrite app_assoc. Qed.

(** The inner loop appends rows and tasks that depend on the files on
    disk only, not on the tables. *)
Lemma assets_loop_frame dir id l d up d' up' :
  assets_loop dir id l d up = Ok (d', up') →
  ∃ imgs tasks,
    d' = with_images d imgs ∧ up' = up ++ tasks
    ∧ ∀ dx upx, assets_loop dir id l dx upx = Ok (with_images dx imgs, upx ++ tasks).
Proof.
  revert d up. induction l as [|[img size] l IH]; intros d up H; simpl in H.
  - injection H as <- <-. exists [], []. rewrite with_images_nil, app_nil_r.
    split_and!; [done..|]. intros dx upx. simpl. by rewrite with_images_nil, app_nil_r.
  - destruct img as [f|]; [|done]. simpl in H.
    destruct (path_exists (Path dir f)) eqn:Hex.
    + apply IH in H as (imgs & tasks & -> & -> & Hx).
      exists (UserImage id size (user_key id size) :: imgs),
             ((Path dir f, user_key id size) :: tasks).
      split_and!.
      * unfold with_images, insert_user_image. simpl. by rewrite <- app_assoc.
      * by rewrite <- app_assoc.
      * intros dx upx. simpl. rewrite Hex, Hx.
        unfold with_images, insert_user_image. simpl. by rewrite <- !app_assoc.
    + apply IH in H as (imgs & tasks & -> & -> & Hx). exists imgs, tasks.
      split_and!; [done..|]. intros dx upx. simpl. by rewrite Hex.
Qed.

Lemma insert_user_present id u d : is_Some (users d !! id) → insert_user id u d = d.
Proof. unfold insert_user. by intros [u0 ->]. Qed.

Lemma insert_user_lookup id u d : is_Some (users (insert_user id u d) !! id).
Proof.
  unfold insert_user. destruct (users d !! id) as [u0|] eqn:H.
  - by rewrite H.
  - simpl. by rewrite lookup_insert_eq.
Qed.

Lemma insert_user_mono id u d j :
  is_Some (users d !! j) → is_Some (users (insert_user id u d) !! j).
Proof.
  unfold insert_user. destruct (users d !! id) as [u0|] eqn:H; [done|].
  simpl. intros Hj. destruct (decide (id = j)) as [->|Hne].
  - by rewrite lookup_insert_eq.
  - by rewrite lookup_insert_ne.
Qed.

Lemma insert_user_tables id u d :
  user_images (insert_user id u d) = user_images d ∧ climbs (insert_user id u d) = climbs d.
Proof. unfold insert_user. by destruct (users d !! id). Qed.

(** The loop over the rows: the rows and tasks it appends, and what the
    same loop does to a database that already holds every user. *)
Lemma users_loop_cons dir row rest d up :
  users_loop dir (row :: rest) d up =
    let d := insert_user (u_id row) (User (u_oauth_id row) (u_src row) (u_name row)) d in
    if truthy (u_image row) then
      assets_loop dir (u_id row) [(u_image row, "M"); (u_preview row, "S")] d up
        ≫= λ '(d, up), users_loop dir rest d up
    else users_loop dir rest d up.
Proof. reflexivity. Qed.

Lemma users_loop_frame dir rows d up d' up' :
  users_loop dir rows d up = Ok (d', up') →
  ∃ imgs tasks,
    user_images d' = user_images d ++ imgs ∧ climbs d' = climbs d ∧ up' = up ++ tasks
    ∧ (∀ j, is_Some (users d !! j) → is_Some (users d' !! j))
    ∧ (∀ r, r ∈ rows → is_Some (users d' !! u_id r))
    ∧ ∀ dx upx,
        (∀ r, r ∈ rows → is_Some (users dx !! u_id r)) →
        users_loop dir rows dx upx = Ok (with_images dx imgs, upx ++ tasks).
Proof.
  revert d up. induction rows as [|row rows IH]; intros d up H.
  - simpl in H. injection H as <- <-. exists [], []. rewrite !app_nil_r. split_and!; try done.
    + intros r Hr. by apply elem_of_nil in Hr.
    + intros dx upx _. simpl. by rewrite with_images_nil, app_nil_r.
  - rewrite users_loop_cons in H. cbv zeta in H.
    set (u := User (u_oauth_id row) (u_src row) (u_name row)) in *.
    destruct (insert_user_tables (u_id row) u d) as [Hui Hcl].
    destruct (truthy (u_image row)) eqn:Ht.
    + destruct (assets_loop dir (u_id row) _ (insert_user (u_id row) u d) up)
        as [[d1 up1]|e] eqn:Ha; [|done]. simpl in H.
      apply assets_loop_frame in Ha as (imgs1 & tasks1 & -> & -> & Hx1).
      apply IH in H as (imgs & tasks & Hi & Hc & -> & Hmono & Hall & Hx).
      exists (imgs1 ++ imgs), (tasks1 ++ tasks). simpl in Hi, Hc.
      split_and!.
      * by rewrite Hi, Hui, app_assoc.
      * by rewrite Hc, Hcl.
      * by rewrite app_assoc.
      * intros j Hj. by apply Hmono, insert_user_mono.
      * intros r [->|Hr]%elem_of_cons; [|by apply Hall].
        apply Hmono. simpl. apply insert_user_lookup.
      * intros dx upx Hdx. rewrite users_loop_cons. cbv zeta. rewrite Ht.
        rewrite insert_user_present by (apply Hdx; by left).
        rewrite Hx1. simpl. rewrite Hx by (intros r Hr; simpl; apply Hdx; by right).
        by rewrite with_images_app, app_assoc.
    + apply IH in H as (imgs & tasks & Hi & Hc & -> & Hmono & Hall & Hx).
      exists imgs, tasks. split_and!.
      * by rewrite Hi, Hui.
      * by rewrite Hc, Hcl.
      * done.
      * intros j Hj. by apply Hmono, insert_user_mono.
      * intros r [->|Hr]%elem_of_cons; [|by apply Hall].
        apply Hmono. apply insert_user_lookup.
      * intros dx upx Hdx. rewrite users_loop_cons. cbv zeta. rewrite Ht.
        rewrite insert_user_present by (apply Hdx; by left).
        apply Hx. intros r Hr. apply Hdx. by right.
Qed.

Lemma import_climbs_climbs rows d :
  import_climbs rows d = Db (users d) (user_images d) (climbs d ++ rows).
Proof.
  unfold import_climbs. revert d. induction rows as [|x rows IH]; intros d; simpl.
  - rewrite app_nil_r. by destruct d.
  - rewrite IH. unfold insert_climb. simpl. by rewrite <- app_assoc.
Qed.

Lemma import_users_Ok_inv {store : Type} (c : client store) sched dir rows d st d1 r :
  import_users c sched dir rows d st = Ok (d1, r) →
  ∃ up, users_loop dir rows d [] = Ok (d1, up).
Proof.
  unfold import_users.
  destruct (users_loop dir rows d []) as [[d' up]|e]; simpl; [|done].
  destruct (res_outcome (upload_images_bulk c sched up st)); [|done|];
    intros [= <- _]; by exists up.
Qed.

(** ** C10 *)

Lemma assets_loop_raises_TypeError dir id l d up e :
  assets_loop dir id l d up = Raise e → e = TypeError.
Proof.
  revert d up. induction l as [|[img size] l IH]; intros d up H; simpl in H; [done|].
  destruct img as [f|]; simpl in H; [|congruence].
  destruct (path_exists (Path dir f)); by eapply IH.
Qed.

Lemma users_loop_raises_TypeError dir rows d up e :
  users_loop dir rows d up = Raise e → e = TypeError.
Proof.
  revert d up. induction rows as [|row rows IH]; intros d up H; [done|].
  rewrite users_loop_cons in H. cbv zeta in H.
  destruct (truthy (u_image row)); [|by eapply IH].
  destruct (assets_loop dir (u_id row) _ _ up) as [[d1 up1]|e1] eqn:Ha; simpl in H.
  - by eapply IH.
  - injection H as <-. by eapply assets_loop_raises_TypeError.
Qed.

(** The rows the loop gets through: a row with an image has a preview. *)
Definition has_preview (r : user_row) : Prop :=
  truthy (u_image r) = true → is_Some (u_preview r).

Lemma users_loop_total dir rows d up :
  Forall has_preview rows → ∃ d' up', users_loop dir rows d up = Ok (d', up').
Proof.
  revert d up. induction rows as [|row rows IH]; intros d up Hrows; simpl; [eauto|].
  apply Forall_cons_1 in Hrows as [Hrow Hrows].
  destruct (truthy (u_image row)) eqn:Ht; [|by apply IH].
  destruct (Hrow Ht) as [p Hp]. rewrite Hp.
  destruct (u_image row) as [f|]; [|done]. simpl.
  destruct (path_exists (Path dir f)); destruct (path_exists (Path dir p)); simpl; by apply IH.
Qed.

Lemma users_loop_null_preview dir rows d up :
  Exists (λ r, truthy (u_image r) = true ∧ u_preview r = None) rows →
  users_loop dir rows d up = Raise TypeError.
Proof.
  intros Hbad.
  destruct (users_loop dir rows d up) as [[d' up']|e] eqn:H.
  - exfalso. revert d up H. induction rows as [|row rows IH]; intros d up H.
    + by apply Exists_nil in Hbad.
    + rewrite users_loop_cons in H. cbv zeta in H.
      apply Exists_cons in Hbad as [[Ht Hp]|Hbad].
      * rewrite Ht, Hp in H. destruct (u_image row) as [f|]; [|done]. simpl in H.
        by destruct (path_exists (Path dir f)).
      * destruct (truthy (u_image row)); [|by eapply IH].
        destruct (assets_loop dir (u_id row) _ _ up) as [[d1 up1]|e1]; simpl in H; [|done].
        by eapply IH.
  - f_equal. by eapply users_loop_raises_TypeError.
Qed.

(** The assets of a row that are on disk. *)
Definition on_disk (dir : string) (l : list (string * string)) : list (string * string) :=
  filter (λ a, path_exists (Path dir a.1) = true) l.

(** C10. For a user row with an image the path of each asset is built
    before its existence is checked, so a row with an image and no preview
    makes [import_users] raise [TypeError] instead of skipping the preview:
    the loop gets through the rows exactly when every row with an image has
    a preview. An asset whose file is not on disk is skipped: it gets no
    task and no [user_images] row, and the assets on disk get one each. *)
Theorem import_users_null_preview dir :
  (∀ rows d up,
      Exists (λ r, truthy (u_image r) = true ∧ u_preview r = None) rows →
      users_loop dir rows d up = Raise TypeError)
  ∧ (∀ (store : Type) (c : client store) sched rows d st,
      Exists (λ r, truthy (u_image r) = true ∧ u_preview r = None) rows →
      import_users c sched dir rows d st = Raise TypeError)
  ∧ (∀ rows d up,
      Forall has_preview rows ↔ ∃ d' up', users_loop dir rows d up = Ok (d', up'))
  ∧ (∀ id f p d up,
      let assets := on_disk dir [(f, "M"); (p, "S")] in
      assets_loop dir id [(Some f, "M"); (Some p, "S")] d up =
        Ok (with_images d ((λ a, UserImage id a.2 (user_key id a.2)) <$> assets),
            up ++ ((λ a, (Path dir a.1, user_key id a.2)) <$> assets))).
Proof.
  split_and!.
  - apply users_loop_null_preview.
  - intros store c sched rows d st Hbad. unfold import_users.
    by rewrite users_loop_null_preview.
  - intros rows d up. split; [apply users_loop_total|].
    intros (d' & up' & H). apply Forall_forall. intros r Hr Ht.
    destruct (u_preview r) as [p|] eqn:Hp; [done|].
    rewrite users_loop_null_preview in H; [done|].
    apply Exists_exists. by exists r.
  - intros id f p d up. simpl. unfold on_disk.
    destruct (path_exists (Path dir f)) eqn:Hf; destruct (path_exists (Path dir p)) eqn:Hp;
      simpl.
    + rewrite filter_cons_True by done. rewrite filter_cons_True by done.
      simpl. unfold with_images, insert_user_image. simpl. by rewrite <- !app_assoc.
    + rewrite filter_cons_True by done. rewrite filter_cons_False by (simpl; congruence).
      simpl. done.
    + rewrite filter_cons_False by (simpl; congruence). rewrite filter_cons_True by done.
      simpl. done.
    + rewrite filter_cons_False by (simpl; congruence).
      rewrite filter_cons_False by (simpl; congruence).
      simpl. by rewrite with_images_nil, app_nil_r.
Qed.

(** ** What a pass of [import_users] leaves in the tables *)

(** The columns of a row that go into [users]. *)
Definition user_of (r : user_row) : user := User (u_oauth_id r) (u_src r) (u_name r).

Lemma insert_user_union id u d : users (insert_user id u d) = users d ∪ {[id := u]}.
Proof.
  unfold insert_user. destruct (users d !! id) as [u0|] eqn:H; simpl.
  - apply map_eq. intros j. rewrite lookup_union. destruct (decide (id = j)) as [<-|Hne].
    + by rewrite H, lookup_singleton_eq.
    + rewrite lookup_singleton_ne by done. by destruct (users d !! j).
  - by apply insert_union_singleton_r.
Qed.

Lemma users_loop_users dir rows d up d' up' :
  users_loop dir rows d up = Ok (d', up') →
  users d' = users d ∪ list_to_map ((λ r, (u_id r, user_of r)) <$> rows).
Proof.
  revert d up. induction rows as [|row rows IH]; intros d up H.
  - simpl in H. injection H as <- <-. simpl. by rewrite (right_id_L ∅ (∪)).
  - rewrite users_loop_cons in H. cbv zeta in H.
    rewrite fmap_cons, list_to_map_cons, insert_union_singleton_l, (assoc_L (∪)).
    rewrite <- (insert_user_union (u_id row) (user_of row) d).
    destruct (truthy (u_image row)); [|by eapply IH].
    destruct (assets_loop dir (u_id row) _ _ up) as [[d1 up1]|e] eqn:Ha; [|done].
    simpl in H. apply assets_loop_frame in Ha as (imgs & tasks & -> & -> & _).
    by apply IH in H.
Qed.

Lemma first_of_its_id pre r post :
  u_id r ∉ u_id <$> pre →
  (list_to_map ((λ r, (u_id r, user_of r)) <$> pre ++ r :: post) : gmap Z user) !! u_id r
    = Some (user_of r).
Proof.
  induction pre as [|r0 pre IH]; intros Hpre; simpl.
  - by rewrite lookup_insert_eq.
  - rewrite fmap_cons in Hpre. apply not_elem_of_cons in Hpre as [Hne Hpre].
    rewrite lookup_insert_ne by done. by apply IH.
Qed.

(** ** C9 *)

(** The [user_images] rows of a user row, as the specification has them:
    for a row with an image, one row per asset (the image with size M, the
    preview with size S) whose file is on disk. *)
Definition asset_rows (dir : string) (r : user_row) : list user_image :=
  if truthy (u_image r) then
    match u_image r, u_preview r with
    | Some f, Some p =>
        (λ a, UserImage (u_id r) a.2 (user_key (u_id r) a.2)) <$> on_disk dir [(f, "M"); (p, "S")]
    | _, _ => []
    end
  else [].

Lemma assets_loop_on_disk dir id f p d up :
  assets_loop dir id [(Some f, "M"); (Some p, "S")] d up =
    Ok (with_images d ((λ a, UserImage id a.2 (user_key id a.2))
                         <$> on_disk dir [(f, "M"); (p, "S")]),
        up ++ ((λ a, (Path dir a.1, user_key id a.2)) <$> on_disk dir [(f, "M"); (p, "S")])).
Proof.
  simpl. unfold on_disk.
  destruct (path_exists (Path dir f)) eqn:Hf; destruct (path_exists (Path dir p)) eqn:Hp;
    simpl.
  - rewrite filter_cons_True by done. rewrite filter_cons_True by done.
    simpl. unfold with_images, insert_user_image. simpl. by rewrite <- !app_assoc.
  - rewrite filter_cons_True by done. rewrite filter_cons_False by (simpl; congruence).
    simpl. done.
  - rewrite filter_cons_False by (simpl; congruence). rewrite filter_cons_True by done.
    simpl. done.
  - rewrite filter_cons_False by (simpl; congruence).
    rewrite filter_cons_False by (simpl; congruence).
    simpl. by rewrite with_images_nil, app_nil_r.
Qed.

Lemma users_loop_new dir rows d up d' up' :
  users_loop dir rows d up = Ok (d', up') →
  user_images d' = user_images d ++ mjoin (asset_rows dir <$> rows).
Proof.
  revert d up. induction rows as [|row rows IH]; intros d up H.
  - simpl in H. injection H as <- <-. simpl. by rewrite app_nil_r.
  - rewrite users_loop_cons in H. cbv zeta in H. rewrite fmap_cons. cbn [mjoin list_join].
    destruct (insert_user_tables (u_id row) (User (u_oauth_id row) (u_src row) (u_name row)) d)
      as [Hui _].
    unfold asset_rows at 1. destruct (truthy (u_image row)) eqn:Ht.
    + destruct (u_image row) as [f|]; [|done]. destruct (u_preview row) as [p|].
      * rewrite assets_loop_on_disk in H. simpl in H. apply IH in H. rewrite H. simpl.
        by rewrite Hui, <- app_assoc.
      * simpl in H. by destruct (path_exists (Path dir f)).
    + apply IH in H. by rewrite H, Hui.
Qed.

(** C9. Inserting a user whose id is already in [users] changes nothing
    and raises nothing: the first row stays; a user whose id is not there
    is inserted, and no other user and no other table is touched.
    [user_images] and [climbs] rows are appended whatever the table holds.
    Hence a second [import_climbs] adds every climb a second time; a pass
    of [import_users] leaves in [users] the users it found and, of the
    rows with a new id, the first one, and appends one [user_images] row
    per asset on disk; and a second pass over the database that went
    through a first one leaves [users] as it is and appends the same
    [user_images] rows again. *)
Theorem mirror_inserts :
  (∀ id u d, users (insert_user id u d) !! id = Some (default u (users d !! id)))
  ∧ (∀ id u d j, j ≠ id → users (insert_user id u d) !! j = users d !! j)
  ∧ (∀ id u d, user_images (insert_user id u d) = user_images d
               ∧ climbs (insert_user id u d) = climbs d)
  ∧ (∀ id u u0 d, users d !! id = Some u0 → insert_user id u d = d)
  ∧ (∀ x d, insert_user_image x d = Db (users d) (user_images d ++ [x]) (climbs d))
  ∧ (∀ x d, insert_climb x d = Db (users d) (user_images d) (climbs d ++ [x]))
  ∧ (∀ rows d,
       import_climbs rows d = Db (users d) (user_images d) (climbs d ++ rows)
       ∧ climbs (import_climbs rows (import_climbs rows d)) = climbs d ++ rows ++ rows
       ∧ users (import_climbs rows (import_climbs rows d)) = users d)
  ∧ (∀ dir rows d d1 up1,
       users_loop dir rows d [] = Ok (d1, up1) →
       users d1 = users d ∪ list_to_map ((λ r, (u_id r, user_of r)) <$> rows)
       ∧ user_images d1 = user_images d ++ mjoin (asset_rows dir <$> rows)
       ∧ climbs d1 = climbs d
       ∧ users_loop dir rows d1 [] =
           Ok (Db (users d1) (user_images d1 ++ mjoin (asset_rows dir <$> rows)) (climbs d1),
               up1))
  ∧ (∀ (store : Type) (c : client store) sched1 sched2 dir rows d st1 st2 d1 r1 d2 r2,
       import_users c sched1 dir rows d st1 = Ok (d1, r1) →
       import_users c sched2 dir rows d1 st2 = Ok (d2, r2) →
       users d2 = users d1
       ∧ user_images d1 = user_images d ++ mjoin (asset_rows dir <$> rows)
       ∧ user_images d2 = user_images d1 ++ mjoin (asset_rows dir <$> rows)).
Proof.
  assert (Hpass : ∀ dir rows d d1 up1,
    users_loop dir rows d [] = Ok (d1, up1) →
    users d1 = users d ∪ list_to_map ((λ r, (u_id r, user_of r)) <$> rows)
    ∧ user_images d1 = user_images d ++ mjoin (asset_rows dir <$> rows)
    ∧ climbs d1 = climbs d
    ∧ users_loop dir rows d1 [] =
        Ok (Db (users d1) (user_images d1 ++ mjoin (asset_rows dir <$> rows)) (climbs d1),
            up1)).
  { intros dir rows d d1 up1 H.
    pose proof (users_loop_users _ _ _ _ _ _ H) as Hu.
    pose proof (users_loop_new _ _ _ _ _ _ H) as Hn.
    apply users_loop_frame in H as (imgs & tasks & Hi & Hc & -> & _ & Hall & Hx).
    split_and!; [done..|]. rewrite (Hx d1 [] Hall). unfold with_images.
    rewrite Hn in Hi. apply app_inv_head in Hi as <-. done. }
  split_and!.
  - intros id u d. unfold insert_user. destruct (users d !! id) as [u0|] eqn:H; simpl.
    + by rewrite H.
    + by rewrite lookup_insert_eq.
  - intros id u d j Hj. unfold insert_user. destruct (users d !! id); [done|]. simpl.
    by rewrite lookup_insert_ne.
  - intros id u d. apply insert_user_tables.
  - intros id u u0 d H. apply insert_user_present. by rewrite H.
  - done.
  - done.
  - intros rows d. rewrite !import_climbs_climbs. simpl. by rewrite <- app_assoc.
  - exact Hpass.
  - intros store c sched1 sched2 dir rows d st1 st2 d1 r1 d2 r2 H1 H2.
    apply import_users_Ok_inv in H1 as [up1 H1].
    apply Hpass in H1 as (_ & Hi & _ & H1').
    apply import_users_Ok_inv in H2 as [up2 H2].
    rewrite H1' in H2. injection H2 as <- _. simpl. done.
Qed.

(** X13. [users] after [import_users]: a user that was in the table is
    left as it was; of the rows with an id that was not in the table the
    first one is inserted, whether or not it has an image; and no other id
    appears. *)
Theorem users_first_row_wins {store : Type} (c : client store) sched dir rows d st d' r :
  import_users c sched dir rows d st = Ok (d', r) →
  (∀ id u, users d !! id = Some u → users d' !! id = Some u)
  ∧ (∀ pre row post,
       rows = pre ++ row :: post → users d !! u_id row = None → u_id row ∉ u_id <$> pre →
       users d' !! u_id row = Some (user_of row))
  ∧ (∀ id, users d' !! id = None ↔ users d !! id = None ∧ id ∉ u_id <$> rows).
Proof.
  intros [up H%users_loop_users]%import_users_Ok_inv. rewrite H. split_and!.
  - intros id u Hid. by apply lookup_union_Some_l.
  - intros pre row post -> Hnone Hpre. rewrite lookup_union_r by done.
    by apply first_of_its_id.
  - intros id. rewrite lookup_union_None, <- not_elem_of_list_to_map.
    by rewrite <- list_fmap_compose.
Qed.

(** ** The [user_images] rows and the queue *)

Lemma user_key_inj id size id' size' :
  user_key id size = user_key id' size' → id = id' ∧ size = size'.
Proof.
  unfold user_key. intros H%(f_equal chars). rewrite !chars_app in H.
  apply app_inv_head in H. cbn in H.
  apply not_elem_of_app_cons_inv_l in H as (Hid & _ & Hsize);
    [|apply pretty_Z_no_underscore..].
  apply app_inv_tail in Hsize.
  split; [by apply (inj pretty), chars_inj|by apply chars_inj].
Qed.

(** A [user_images] row the loop adds for the user [id], and its task. *)
Definition image_row_of (sizes : list string) (id : Z) (x : user_image) (t : task) : Prop :=
  ui_user_id x = id ∧ ui_size x ∈ sizes ∧ ui_url x = user_key id (ui_size x)
  ∧ t.2 = ui_url x ∧ path_exists t.1 = true.

Lemma assets_loop_rows dir id l d up d' up' :
  assets_loop dir id l d up = Ok (d', up') →
  ∃ imgs tasks,
    d' = with_images d imgs ∧ up' = up ++ tasks
    ∧ Forall2 (image_row_of l.*2 id) imgs tasks
    ∧ ui_size <$> imgs `sublist_of` l.*2.
Proof.
  revert d up. induction l as [|[img size] l IH]; intros d up H; simpl in H.
  - injection H as <- <-. exists [], []. rewrite with_images_nil, app_nil_r.
    split_and!; [done..|constructor|constructor].
  - destruct img as [f|]; [|done]. simpl in H.
    assert (Hweaken : ∀ imgs tasks,
      Forall2 (image_row_of l.*2 id) imgs tasks →
      Forall2 (image_row_of ((Some f, size) :: l).*2 id) imgs tasks).
    { intros imgs tasks Hf. eapply Forall2_impl; [exact Hf|]. intros x t (? & ? & ? & ? & ?).
      split_and!; [done|by right|done..]. }
    destruct (path_exists (Path dir f)) eqn:Hex.
    + apply IH in H as (imgs & tasks & -> & -> & Hrows & Hsub).
      exists (UserImage id size (user_key id size) :: imgs),
             ((Path dir f, user_key id size) :: tasks).
      split_and!.
      * unfold with_images, insert_user_image. simpl. by rewrite <- app_assoc.
      * by rewrite <- app_assoc.
      * constructor; [|by apply Hweaken]. split_and!; simpl; [done|by left|done..].
      * simpl. by constructor.
    + apply IH in H as (imgs & tasks & -> & -> & Hrows & Hsub). exists imgs, tasks.
      split_and!; [done..|by apply Hweaken|]. simpl. by constructor.
Qed.

Lemma users_loop_rows dir rows d up d' up' :
  users_loop dir rows d up = Ok (d', up') →
  ∃ imgs tasks,
    user_images d' = user_images d ++ imgs ∧ up' = up ++ tasks
    ∧ Forall2 (λ x t, image_row_of ["M"; "S"] (ui_user_id x) x t
                      ∧ ∃ row, row ∈ rows ∧ u_id row = ui_user_id x
                               ∧ truthy (u_image row) = true) imgs tasks
    ∧ (NoDup (u_id <$> rows) → NoDup (keys tasks)).
Proof.
  revert d up. induction rows as [|row rows IH]; intros d up H.
  - simpl in H. injection H as <- <-. exists [], []. rewrite !app_nil_r.
    split_and!; [done..|constructor|constructor].
  - rewrite users_loop_cons in H. cbv zeta in H.
    destruct (insert_user_tables (u_id row) (User (u_oauth_id row) (u_src row) (u_name row)) d)
      as [Hui _].
    assert (Hlater : ∀ imgs tasks,
      Forall2 (λ x t, image_row_of ["M"; "S"] (ui_user_id x) x t
                      ∧ ∃ row0, row0 ∈ rows ∧ u_id row0 = ui_user_id x
                                ∧ truthy (u_image row0) = true) imgs tasks →
      Forall2 (λ x t, image_row_of ["M"; "S"] (ui_user_id x) x t
                      ∧ ∃ row0, row0 ∈ row :: rows ∧ u_id row0 = ui_user_id x
                                ∧ truthy (u_image row0) = true) imgs tasks).
    { intros imgs tasks Hf. eapply Forall2_impl; [exact Hf|].
      intros x t (? & row0 & ? & ? & ?).
      split; [done|]. exists row0. split; [by right|done]. }
    destruct (truthy (u_image row)) eqn:Ht.
    + destruct (assets_loop dir (u_id row) _ _ up) as [[d1 up1]|e] eqn:Ha; [|done].
      simpl in H. apply assets_loop_rows in Ha as (imgs1 & tasks1 & -> & -> & Hrows1 & Hsub).
      apply IH in H as (imgs & tasks & Hi & -> & Hrows & Hnd). simpl in Hi.
      exists (imgs1 ++ imgs), (tasks1 ++ tasks). split_and!.
      * by rewrite Hi, Hui, app_assoc.
      * by rewrite app_assoc.
      * apply Forall2_app; [|by apply Hlater].
        eapply Forall2_impl; [exact Hrows1|]. intros x t Hx.
        pose proof Hx as (Hid & _). rewrite Hid. split; [done|].
        exists row. split; [by left|done].
      * rewrite fmap_cons. intros [Hfresh Hnd']%NoDup_cons.
        unfold keys in *. rewrite fmap_app. apply NoDup_app. split_and!; [| |by apply Hnd].
        -- assert (Hk : tasks1.*2 = user_key (u_id row) <$> (ui_size <$> imgs1)).
           { clear -Hrows1. induction Hrows1 as [|x t imgs1 tasks1 (_ & _ & Hu & Ht & _) _ IH'];
               [done|]. rewrite !fmap_cons. by rewrite IH', Ht, Hu. }
           rewrite Hk. apply NoDup_fmap_2.
           { intros a b Hab. by apply user_key_inj in Hab as [_ ?]. }
           eapply sublist_NoDup; [|exact Hsub]. simpl.
           apply NoDup_cons. split; [set_solver|]. apply NoDup_singleton.
        -- intros key Hk1 Hk2.
           apply list_elem_of_fmap in Hk1 as (t1 & -> & Ht1).
           apply list_elem_of_fmap in Hk2 as (t2 & Heq & Ht2).
           apply list_elem_of_lookup in Ht1 as [i1 Ht1].
           destruct (Forall2_lookup_r _ _ _ _ _ Hrows1 Ht1) as (x1 & _ & Hx1).
           apply list_elem_of_lookup in Ht2 as [i2 Ht2].
           destruct (Forall2_lookup_r _ _ _ _ _ Hrows Ht2)
             as (x2 & _ & Hx2 & row0 & Hrow0 & Hid0 & _).
           destruct Hx1 as (Hid1 & _ & Hu1 & Hk1 & _). destruct Hx2 as (_ & _ & Hu2 & Hk2 & _).
           rewrite Hk1, Hk2, Hu1, Hu2 in Heq. apply user_key_inj in Heq as [Heq _].
           apply Hfresh. apply list_elem_of_fmap. exists row0. split; [|done]. congruence.
    + apply IH in H as (imgs & tasks & Hi & -> & Hrows & Hnd).
      exists imgs, tasks. split_and!; [by rewrite Hi, Hui|done|by apply Hlater|].
      rewrite fmap_cons. intros [_ Hnd']%NoDup_cons. by apply Hnd.
Qed.

(** X14. The [user_images] rows [import_users] adds and the tasks it
    hands to the uploader go by pairs, in order: each row has size M or S,
    the url [users/<id>_<size>.jpg], a user of that id in [users], and a
    task that uploads to that url a file that exists on disk; rows without
    an image add none. When the rows have pairwise different ids, no two
    tasks share a key. *)
Theorem user_images_match_uploads {store : Type} (c : client store) sched dir rows d st
    d' r :
  import_users c sched dir rows d st = Ok (d', r) →
  ∃ imgs tasks,
    user_images d' = user_images d ++ imgs
    ∧ r = upload_images_bulk c sched tasks st
    ∧ Forall2 (λ x t, image_row_of ["M"; "S"] (ui_user_id x) x t
                      ∧ is_Some (users d' !! ui_user_id x)
                      ∧ ∃ row, row ∈ rows ∧ u_id row = ui_user_id x
                               ∧ truthy (u_image row) = true) imgs tasks
    ∧ (NoDup (u_id <$> rows) → NoDup (keys tasks)).
Proof.
  unfold import_users. intros H.
  destruct (users_loop dir rows d []) as [[d1 up]|e] eqn:Hloop; [|done]. simpl in H.
  assert (d' = d1 ∧ r = upload_images_bulk c sched up st) as [-> ->].
  { destruct (res_outcome (upload_images_bulk c sched up st)); [|done|];
      by injection H as <- <-. }
  pose proof (users_loop_frame _ _ _ _ _ _ Hloop) as (_ & _ & _ & _ & _ & _ & Hall & _).
  apply users_loop_rows in Hloop as (imgs & tasks & Hi & Hup & Hrows & Hnd).
  simpl in Hup. subst up. exists imgs, tasks. split_and!; [done..| |done].
  eapply Forall2_impl; [exact Hrows|]. intros x t (Hx & row & Hrow & Hid & Ht).
  split_and!; [done| |by exists row]. rewrite <- Hid. by apply Hall.
Qed.

(** X15. [import_users] against a store in which a key exists once it has
    been put and an upload fails only when its local file cannot be read:
    when it raises, either the loop over the rows has raised or a queued
    file, which the loop has seen on disk, could not be read; and once it
    has returned with the upload finished, the bucket holds the url of
    every [user_images] row it has added. *)
Theorem import_users_images_stored unreadable sched dir rows d (s0 : gset string) :
  (∀ e, import_users (reading unreadable) sched dir rows d s0 = Raise e →
        users_loop dir rows d [] = Raise e
        ∨ ∃ d' tasks f k,
            users_loop dir rows d [] = Ok (d', tasks)
            ∧ (f, k) ∈ tasks ∧ path_exists f = true ∧ unreadable f = Some e)
  ∧ ∀ d' r,
      import_users (reading unreadable) sched dir rows d s0 = Ok (d', r) →
      res_outcome r = Returned →
      ∃ imgs, user_images d' = user_images d ++ imgs
        ∧ ∀ x, x ∈ imgs → ui_url x ∈ res_store r.
Proof.
  unfold import_users.
  destruct (users_loop dir rows d []) as [[d1 up]|e0] eqn:Hloop; simpl;
    [|split; [intros e [= ->]; by left|intros d' r Hr; discriminate Hr]].
  pose proof (users_loop_rows _ _ _ _ _ _ Hloop) as (imgs & tasks & Hi & Hup & Hrows & _).
  simpl in Hup. subst up. split.
  - intros e He. right. exists d1, tasks.
    destruct (res_outcome (upload_images_bulk (reading unreadable) sched tasks s0))
      as [|e1|] eqn:Ho; [done| |done].
    injection He as ->. apply reading_raised in Ho as (f & k & Hfk & Hread).
    exists f, k. split_and!; [done..| |done].
    apply list_elem_of_lookup in Hfk as [i Hfk].
    by destruct (Forall2_lookup_r _ _ _ _ _ Hrows Hfk) as (x & _ & (_ & _ & _ & _ & Hex) & _).
  - intros d' r Hr Hret.
    assert (d' = d1 ∧ r = upload_images_bulk (reading unreadable) sched tasks s0) as [-> ->].
    { destruct (res_outcome (upload_images_bulk (reading unreadable) sched tasks s0));
        [|done|]; by injection Hr as <- <-. }
    exists imgs. split; [done|].
    intros x [i Hx]%list_elem_of_lookup.
    destruct (Forall2_lookup_l _ _ _ _ _ Hrows Hx) as (t & Ht & (_ & _ & _ & Hk & _) & _).
    apply reading_returned_keys; [done|]. rewrite <- Hk.
    apply list_elem_of_fmap. exists t. split; [done|]. by eapply list_elem_of_lookup_2.
Qed.

End Users.

End Mirror.

(* ===================================================================== *)
(** * IEEE-754 doubles: [float()] and [round()] *)
(* ===================================================================== *)

Module Binary64.

(** CPython's [float] is the binary64 format: 53 bits of precision. A
    finite double is [S754_finite neg m e], of value [(-1)^neg * m * 2^e]. *)
Definition prec : Z := 53.
Definition emax : Z := 1024.

Abbreviation float := spec_float.

(** The double nearest to [(-1)^neg * n / d], ties to even: both [float()]
    and [round()] end with this conversion. The division of [SpecFloat]
    rounds the exact quotient once. *)
Definition of_ratio (neg : bool) (n : N) (d : positive) : float :=
  match n with
  | N0 => S754_zero neg
  | Npos m => SFdiv prec emax (S754_finite neg m 0) (S754_finite false d 0)
  end.

(** [(-1)^neg * m * 10^e10] *)
Definition of_decimal (neg : bool) (m : N) (e10 : Z) : float :=
  match e10 with
  | Zneg p => of_ratio neg m (10 ^ p)
  | _ => of_ratio neg (m * 10 ^ Z.to_N e10) 1
  end.

Definition digit (c : ascii) : option N := N.of_nat <$> Ascii.is_nat c.

(** Reads the digits [s] starts with: their value after [acc], how many
    they are, and the rest of [s]. *)
Fixpoint read_digits (s : string) (acc : N) (n : nat) : N * nat * string :=
  match s with
  | EmptyString => (acc, n, s)
  | String c s' =>
      match digit c with
      | Some d => read_digits s' (acc * 10 + d) (S n)
      | None => (acc, n, s)
      end
  end.

Definition read_sign (s : string) : bool * string :=
  match s with
  | String "-" s' => (true, s')
  | String "+" s' => (false, s')
  | _ => (false, s)
  end.

(** The exponent part, which has to end the numeral. *)
Definition read_exponent (s : string) : option Z :=
  match s with
  | EmptyString => Some 0%Z
  | String c s' =>
      if bool_decide (c = "e"%char ∨ c = "E"%char) then
        let '(neg, s'') := read_sign s' in
        match read_digits s'' 0 0 with
        | (_, O, _) => None
        | (e, _, EmptyString) => Some (if neg then - Z.of_N e else Z.of_N e)%Z
        | _ => None
        end
      else None
  end.

Definition whitespace : list ascii :=
  [" "; "009"; "010"; "011"; "012"; "013"]%char.

(** [float(s)] on decimal numerals: surrounding whitespace, a sign,
    digits with an optional point, an optional exponent. [None] is
    [ValueError]. (The builtin also reads [inf], [nan] and digits grouped
    by underscores, which the importer's data does not use.) *)
Definition py_float (s : string) : option float :=
  let '(neg, s) := read_sign (strip whitespace s) in
  let '(m, ni, s) := read_digits s 0 0 in
  let '(m, nf, s) :=
    match s with
    | String "." s' => read_digits s' m 0
    | _ => (m, 0, s)
    end in
  if decide (ni + nf = 0) then None
  else e ← read_exponent s; Some (of_decimal neg m (e - Z.of_nat nf)).

(** [a / b] rounded to an integer, ties to even. *)
Definition round_half_even (a : N) (b : positive) : N :=
  let q := (a / Npos b)%N in
  let r := (a mod Npos b)%N in
  match (2 * r ?= Npos b)%N with
  | Lt => q
  | Gt => (q + 1)%N
  | Eq => if N.even q then q else (q + 1)%N
  end.

Definition pow_pos (base : positive) (e : Z) : positive :=
  match e with
  | Zpos p => (base ^ p)%positive
  | _ => 1%positive
  end.

(** [round(x, ndigits)]: the exact value of [x] is rounded to [ndigits]
    decimals, ties to even, and the decimal obtained is converted back to
    the nearest double. Infinities, NaN and zeros round to themselves. *)
Definition py_round (x : float) (ndigits : Z) : float :=
  match x with
  | S754_finite neg m e =>
      (* |x| * 10^ndigits = a / b *)
      let a := (Npos m * Npos (pow_pos 2 e) * Npos (pow_pos 10 ndigits))%N in
      let b := (pow_pos 2 (- e) * pow_pos 10 (- ndigits))%positive in
      let r := round_half_even a b in
      of_ratio neg (r * Npos (pow_pos 10 (- ndigits)))%N (pow_pos 10 ndigits)
  | _ => x
  end.

(** [==] on floats. *)
Definition float_eqb (x y : float) : bool := SFeqb x y.

End Binary64.

(* ===================================================================== *)
(** * The importer on doubles, and an end-to-end run *)
(* ===================================================================== *)

Module Scenario.

Import Uploader Summits.

(** The Russian table of the transliterate package, read from Cyrillic to
    Latin ([reversed=True]): what each letter becomes. *)
Definition ru_table : list (string * string) :=
  [("а", "a"); ("б", "b"); ("в", "v"); ("г", "g"); ("д", "d"); ("е", "e");
   ("ё", "e"); ("ж", "zh"); ("з", "z"); ("и", "i"); ("й", "j"); ("к", "k");
   ("л", "l"); ("м", "m"); ("н", "n"); ("о", "o"); ("п", "p"); ("р", "r");
   ("с", "s"); ("т", "t"); ("у", "u"); ("ф", "f"); ("х", "h"); ("ц", "ts");
   ("ч", "ch"); ("ш", "sh"); ("щ", "sch"); ("ъ", "'"); ("ы", "y"); ("ь", "'");
   ("э", "e"); ("ю", "ju"); ("я", "ja");
   ("А", "A"); ("Б", "B"); ("В", "V"); ("Г", "G"); ("Д", "D"); ("Е", "E");
   ("Ё", "E"); ("Ж", "Zh"); ("З", "Z"); ("И", "I"); ("Й", "J"); ("К", "K");
   ("Л", "L"); ("М", "M"); ("Н", "N"); ("О", "O"); ("П", "P"); ("Р", "R");
   ("С", "S"); ("Т", "T"); ("У", "U"); ("Ф", "F"); ("Х", "H"); ("Ц", "Ts");
   ("Ч", "Ch"); ("Ш", "Sh"); ("Щ", "Sch"); ("Ъ", "'"); ("Ы", "Y"); ("Ь", "'");
   ("Э", "E"); ("Ю", "Ju"); ("Я", "Ja")].

Definition ru_letter (l : string) : option string :=
  (λ found : nat * (string * string), found.2.2) <$> list_find (λ kv, kv.1 = l) ru_table.

(** [translit(s, "ru", reversed=True)] on UTF-8 text: a Cyrillic letter
    takes two bytes; every other character is kept. *)
Fixpoint translit_ru (s : string) : string :=
  match s with
  | EmptyString => EmptyString
  | String c1 s1 =>
      match s1 with
      | EmptyString => s
      | String c2 s2 =>
          match ru_letter (String c1 (String c2 EmptyString)) with
          | Some latin => latin +:+ translit_ru s2
          | None => String c1 (translit_ru s1)
          end
      end
  end.

Definition lower_char (c : ascii) : ascii :=
  let n := nat_of_ascii c in
  if bool_decide (65 ≤ n ≤ 90) then ascii_of_nat (n + 32) else c.

(** [str.lower] on ASCII text: a letter outside ASCII is left as it is,
    which [str.lower] does not do; the runs below apply the function to
    transliterated Russian and to English comments only. *)
Fixpoint lower (s : string) : string :=
  match s with
  | EmptyString => EmptyString
  | String c s' => String (lower_char c) (lower s')
  end.

Definition IMAGES_SRC_DIR : string := "/home/rush/thousands-backup/images".

(** The importer's functions on doubles. *)
Definition cast_point := Point.cast_point Binary64.float Binary64.py_float Binary64.py_round.

Definition export_summits :=
  Summits.export_summits Binary64.float Binary64.float_eqb translit_ru lower IMAGES_SRC_DIR.

(** ** One ridge, one summit, one image *)

Definition ridges : list (sqlval * sqlval * sqlval) :=
  [(SText "r1", SText "Ridge One", SText "red")].

Definition peak (xy : option (Binary64.float * Binary64.float)) : summit_cols Binary64.float :=
  SummitCols (SText "s1") (SText "r1") (SText "Peak") SNull (SInt 4000) SNull SNull xy.

(** [main] up to the upload of the summit images: the ridges, then the
    summits, whose POINT column the cursor passes through [cast_point]. *)
Definition end_to_end : result (fs Binary64.float * list task) :=
  s ← import_ridges Binary64.float ridges (Fs [] []);
  xy ← cast_point (Some "(45.12345,7.6789)");
  export_summits [Row (peak xy) (Some "a.jpg") (Some "a_p.jpg") (Some "Вид")] s.

(** The summit document the run has written. *)
Definition the_document : option (summit_data Binary64.float) :=
  match end_to_end with
  | Ok (s, _) =>
      match last (files s) with
      | Some (_, _, SummitYaml d) => Some d
      | _ => None
      end
  | Raise _ => None
  end.

Example translit_vid : lower (replace " " "_" (translit_ru "Вид")) = "vid".
Proof. reflexivity. Qed.

Example float_45_12345_below_the_tie :
  Binary64.py_float "45.12345" = Some (S754_finite false 6350561018927225 (-47))
  ∧ (6350561018927225 * 100000 < 4512345 * 2 ^ 47)%Z.
Proof. split; [vm_compute; reflexivity|lia]. Qed.

(** C7, as the code has it. The run writes [_meta.yaml] under [r1] and the
    document [r1/s1.yaml] with one image entry, url
    [summits/s1_vid_0.jpg], preview_url [summits/s1_vid_0_preview.jpg],
    and queues the two tasks for those keys; the coordinates of the
    document are [[45.1234, 7.6789]]. *)
Theorem end_to_end_document :
  ∃ x y,
    Binary64.py_float "45.1234" = Some x ∧ Binary64.py_float "7.6789" = Some y
    ∧ end_to_end =
        Ok (Fs ["r1"]
              [("r1", "_meta.yaml", MetaYaml (SText "Ridge One") (SText "red"));
               ("r1", "s1.yaml",
                SummitYaml (SummitData (SText "Peak") SNull (SInt 4000) SNull SNull [x; y]
                  [ImageRef "summits/s1_vid_0.jpg" "summits/s1_vid_0_preview.jpg"
                     (Some "Вид")]))],
            [(Path IMAGES_SRC_DIR "a.jpg", "summits/s1_vid_0.jpg");
             (Path IMAGES_SRC_DIR "a_p.jpg", "summits/s1_vid_0_preview.jpg")]).
Proof.
  exists (S754_finite false 6350553982052807 (-47)), (S754_finite false 8645672794653825 (-50)).
  split_and!; vm_compute; reflexivity.
Qed.

(** C7 fails on the code in its coordinates: the double nearest to
    45.12345 lies below the tie, so [round] gives 45.1234, not 45.1235. *)
Lemma end_to_end_coordinates_not_45_1235 :
  ∃ d x x',
    the_document = Some d
    ∧ Binary64.py_float "45.1235" = Some x
    ∧ Binary64.py_float "45.1234" = Some x'
    ∧ d_coordinates d !! 0 = Some x'
    ∧ x' ≠ x.
Proof.
  eexists _, (S754_finite false 6350568055801643 (-47)),
    (S754_finite false 6350553982052807 (-47)).
  split_and!; [vm_compute; reflexivity..|discriminate].
Qed.

(** ** Two summits, five rows *)

Definition xy : option (Binary64.float * Binary64.float) :=
  Some (S754_finite false 6350553982052807 (-47), S754_finite false 8645672794653825 (-50)).

Definition crest : summit_cols Binary64.float :=
  SummitCols (SText "s2") (SText "r1") (SText "Crest") SNull (SInt 3900) SNull SNull xy.

(** Rows 1 to 3 are of the summit s1, the second without an image; rows 4
    and 5 are of s2. *)
Definition five : list (row Binary64.float) :=
  [Row (peak xy) (Some "a1.jpg") (Some "a1_p.jpg") (Some "Вид с юга");
   Row (peak xy) None None None;
   Row (peak xy) (Some "a3.jpg") (Some "a3_p.jpg") (Some "Вид");
   Row crest (Some "b1.jpg") (Some "b1_p.jpg") (Some "North face");
   Row crest (Some "b2.jpg") (Some "b2_p.jpg") (Some "Вид")].

Definition r1_only : fs Binary64.float := Fs ["r1"] [].

Example five_rows_two_documents :
  ∃ s tasks,
    export_summits five r1_only = Ok (s, tasks)
    ∧ (λ f, (f.1.2, match f.2 with SummitYaml d => url <$> d_images d | _ => [] end))
        <$> files s
      = [("s1.yaml", ["summits/s1_vid_s_juga_0.jpg"; "summits/s1_vid_1.jpg"]);
         ("s2.yaml", ["summits/s2_north_face_0.jpg"; "summits/s2_vid_1.jpg"])]
    ∧ length tasks = 8.
Proof. eexists _, _. split_and!; vm_compute; reflexivity. Qed.

Example five_contiguous :
  contiguous parent (cols_eqb _ Binary64.float_eqb) five.
Proof. vm_compute. repeat first [split|constructor]. Qed.

(** Rows that are not ordered by summit: s1, s2, s1. The summit s1 is
    exported twice, the second document replacing the first on disk. *)
Example interleaved_rows_three_documents :
  let rows := [Row (peak xy) (Some "a1.jpg") (Some "a1_p.jpg") (Some "Вид");
               Row crest (Some "b1.jpg") (Some "b1_p.jpg") (Some "Вид");
               Row (peak xy) (Some "a3.jpg") (Some "a3_p.jpg") (Some "Вид")] in
  ¬ contiguous parent (cols_eqb _ Binary64.float_eqb) rows
  ∧ ∃ s tasks,
      export_summits rows r1_only = Ok (s, tasks)
      ∧ (λ f, f.1.2) <$> files s = ["s1.yaml"; "s2.yaml"; "s1.yaml"].
Proof.
  assert (E1 : cols_eqb _ Binary64.float_eqb (peak xy) crest = false)
    by (vm_compute; reflexivity).
  assert (E2 : cols_eqb _ Binary64.float_eqb (peak xy) (peak xy) = true)
    by (vm_compute; reflexivity).
  split.
  - unfold contiguous. cbn [contiguous_in parent]. rewrite E1. intros [H _].
    apply Forall_cons_1 in H as [H _]. cbn [parent] in H. rewrite E2 in H. discriminate H.
  - eexists _, _. split; vm_compute; reflexivity.
Qed.

Lemma plain_r1 : plain "r1".
Proof. split_and!; [cbn; set_solver..|done|done|done|cbn; lia]. Qed.

Lemma plain_s1 : plain "s1.yaml".
Proof. split_and!; [cbn; set_solver..|done|done|done|cbn; lia]. Qed.

Lemma plain_s2 : plain "s2.yaml".
Proof. split_and!; [cbn; set_solver..|done|done|done|cbn; lia]. Qed.

Lemma five_exportable : Forall (exportable r1_only) five.
Proof.
  repeat apply Forall_cons_2; [..|apply Forall_nil_2];
    (split_and!;
     [by eexists
     |exists "r1"; split_and!; [done|exact plain_r1|by left|cbn; set_solver]
     |first [exact plain_s1|exact plain_s2]
     |unfold complete_row; simpl; first [intros [? ?]; done|intros _; split; by eexists]]).
Qed.

Lemma export_summits_groups_witness :
  Forall (exportable r1_only) five
  ∧ runs_of parent (cols_eqb _ Binary64.float_eqb) five
      (groupby parent (cols_eqb _ Binary64.float_eqb) five)
  ∧ (contiguous parent (cols_eqb _ Binary64.float_eqb) five →
     distinct_keys (cols_eqb _ Binary64.float_eqb)
       (groupby parent (cols_eqb _ Binary64.float_eqb) five))
  ∧ ∃ outs,
      Summits.export_summits _ Binary64.float_eqb translit_ru lower IMAGES_SRC_DIR five r1_only
        = Ok (Fs (dirs r1_only) (files r1_only ++ outs.*1), mjoin outs.*2)
      ∧ Forall2 (exported _ translit_ru lower IMAGES_SRC_DIR)
          (groupby parent (cols_eqb _ Binary64.float_eqb) five) outs.
Proof.
  split; [exact five_exportable|].
  exact (Summits.export_summits_groups _ Binary64.float_eqb translit_ru lower
           IMAGES_SRC_DIR five r1_only five_exportable).
Defined.

(** C1 fails on the code for a row that has an image filename and no
    preview filename: the rows form one run, and the exporter raises
    instead of writing its document and queueing its two tasks. *)
Lemma export_image_without_preview_raises :
  let rows := [Row (peak xy) (Some "a.jpg") None (Some "Вид")] in
  groupby parent (cols_eqb _ Binary64.float_eqb) rows = [(peak xy, rows)]
  ∧ export_summits rows r1_only = Raise TypeError.
Proof. split; vm_compute; reflexivity. Qed.

(** C8 fails on the code in its second half: of the two rows below the
    first, without an image filename, is skipped; the second, with an image
    filename and without a preview filename, makes the export raise. *)
Lemma export_null_preview_not_skipped :
  export_summits [Row (peak xy) None (Some "a_p.jpg") None] r1_only
    = Ok (Fs ["r1"] [("r1", "s1.yaml",
            SummitYaml (SummitData (SText "Peak") SNull (SInt 4000) SNull SNull
              [S754_finite false 6350553982052807 (-47);
               S754_finite false 8645672794653825 (-50)] []))], [])
  ∧ export_summits [Row (peak xy) None (Some "a_p.jpg") None;
                    Row (peak xy) (Some "b.jpg") None (Some "Вид")] r1_only
    = Raise TypeError.
Proof. split; vm_compute; reflexivity. Qed.

Lemma export_references_queued_witness :
  ∃ s' tasks,
    Summits.export_summits _ Binary64.float_eqb translit_ru lower IMAGES_SRC_DIR five r1_only
      = Ok (s', tasks)
    ∧ (∃ docs, files s' = files r1_only ++ docs
         ∧ ∀ d file data ref,
             (d, file, SummitYaml data) ∈ docs → ref ∈ d_images data →
             url ref ∈ keys tasks ∧ preview_url ref ∈ keys tasks)
    ∧ ∀ (store : Type) (c : client store) sched st,
        import_summits _ Binary64.float_eqb translit_ru lower c sched IMAGES_SRC_DIR
          five r1_only st =
          match res_outcome (upload_images_bulk c sched tasks st) with
          | Raised e => Raise e
          | _ => Ok (s', upload_images_bulk c sched tasks st)
          end.
Proof.
  destruct (Summits.export_summits _ Binary64.float_eqb translit_ru lower IMAGES_SRC_DIR
              five r1_only) as [[s' tasks]|e] eqn:H.
  - exists s', tasks. split; [reflexivity|].
    exact (Summits.export_references_queued _ Binary64.float_eqb translit_ru lower
             IMAGES_SRC_DIR five r1_only s' tasks H).
  - vm_compute in H. discriminate H.
Defined.

(** ** [cast_point] on doubles *)

Example cast_point_examples :
  cast_point None = Ok None
  ∧ cast_point (Some "(45.12345,7.6789)") =
      Ok (Some (S754_finite false 6350553982052807 (-47),
                S754_finite false 8645672794653825 (-50)))
  ∧ cast_point (Some "(1.5, -2)") = Ok (Some (S754_finite false 6755399441055744 (-52),
                                             S754_finite true 4503599627370496 (-51)))
  ∧ cast_point (Some "(1,2,3)") = Raise (Point.bad_point "(1,2,3)")
  ∧ cast_point (Some "(1,x)") = Raise (Point.bad_point "(1,x)")
  ∧ cast_point (Some "") = Raise (Point.bad_point "").
Proof. split_and!; vm_compute; reflexivity. Qed.

Lemma cast_point_parenthesised_witness :
  ∃ x y,
    Forall (λ c, c ∈ ["("; ")"]%char) (chars "((")
    ∧ Forall (λ c, c ∈ ["("; ")"]%char) (chars ")")
    ∧ Forall (λ c, c ∉ [","; "("; ")"]%char) (chars "45.12345")
    ∧ Forall (λ c, c ∉ [","; "("; ")"]%char) (chars "7.6789")
    ∧ Binary64.py_float "45.12345" = Some x
    ∧ Binary64.py_float "7.6789" = Some y
    ∧ cast_point (Some ("((" +:+ ("45.12345" +:+ "," +:+ "7.6789") +:+ ")"))
        = Ok (Some (Binary64.py_round x 4, Binary64.py_round y 4)).
Proof.
  assert (H1 : Forall (λ c, c ∈ ["("; ")"]%char) (chars "(("))
    by (apply (bool_decide_unpack _); vm_compute; exact I).
  assert (H2 : Forall (λ c, c ∈ ["("; ")"]%char) (chars ")"))
    by (apply (bool_decide_unpack _); vm_compute; exact I).
  assert (H3 : Forall (λ c, c ∉ [","; "("; ")"]%char) (chars "45.12345"))
    by (apply (bool_decide_unpack _); vm_compute; exact I).
  assert (H4 : Forall (λ c, c ∉ [","; "("; ")"]%char) (chars "7.6789"))
    by (apply (bool_decide_unpack _); vm_compute; exact I).
  destruct (Binary64.py_float "45.12345") as [x|] eqn:Hx; [|vm_compute in Hx; discriminate Hx].
  destruct (Binary64.py_float "7.6789") as [y|] eqn:Hy; [|vm_compute in Hy; discriminate Hy].
  exists x, y. split_and!; [done..|].
  exact (Point.cast_point_parenthesised _ Binary64.py_float Binary64.py_round
           "((" ")" "45.12345" "7.6789" x y H1 H2 H3 H4 Hx Hy).
Defined.

Lemma cast_point_one_comma_witness :
  ∃ xy, cast_point (Some "(1.5, -2)") = Ok (Some xy) ∧ occurrences "," "(1.5, -2)" = 1.
Proof.
  destruct (cast_point (Some "(1.5, -2)")) as [[xy|]|e] eqn:H;
    [|vm_compute in H; discriminate H..].
  exists xy. split; [reflexivity|].
  exact (Point.cast_point_one_comma _ Binary64.py_float Binary64.py_round "(1.5, -2)" xy H).
Defined.

(** ** The ridges, then the summits *)

Lemma five_of_the_ridges :
  Forall (λ r, is_Some (coordinates _ (parent r)) ∧ ridge_id _ (parent r) ∈ ridges.*1.*1
               ∧ plain (str (summit_id _ (parent r)) +:+ ".yaml")
               ∧ complete_row r) five.
Proof.
  repeat apply Forall_cons_2; [..|apply Forall_nil_2];
    (split_and!;
     [by eexists
     |by left
     |first [exact plain_s1|exact plain_s2]
     |unfold complete_row; simpl; first [intros [? ?]; done|intros _; split; by eexists]]).
Qed.

Lemma ridges_plain : plain_ids ridges.
Proof. apply Forall_cons_2; [|apply Forall_nil_2]. intros d [= <-]. exact plain_r1. Qed.

Lemma import_ridges_creates_witness :
  plain_ids ridges
  ∧ (∀ s', import_ridges Binary64.float ridges (Fs [] []) = Ok s' ↔
       ∃ ids, ridges.*1.*1 = SText <$> ids ∧ NoDup ids
         ∧ (∀ d, d ∈ ids → vacant Binary64.float (Fs [] []) d)
         ∧ s' = Fs (dirs (Fs [] [] : fs Binary64.float) ++ ids)
                  (files (Fs [] [] : fs Binary64.float)
                     ++ zip_with (ridge_meta Binary64.float) ids ridges))
  ∧ (∀ e, import_ridges Binary64.float ridges (Fs [] []) = Raise e →
       e = TypeError ∨ e = FileExistsError ∨ e = OtherError "IsADirectoryError").
Proof.
  split; [exact ridges_plain|].
  exact (Summits.import_ridges_creates Binary64.float ridges (Fs [] []) ridges_plain).
Defined.

Lemma ridges_then_summits_witness :
  ∃ s outs,
    plain_ids ridges
    ∧ flat Binary64.float (Fs [] [])
    ∧ import_ridges Binary64.float ridges (Fs [] []) = Ok s
    ∧ Forall (λ r, is_Some (coordinates _ (parent r)) ∧ ridge_id _ (parent r) ∈ ridges.*1.*1
                   ∧ plain (str (summit_id _ (parent r)) +:+ ".yaml")
                   ∧ complete_row r) five
    ∧ Summits.export_summits _ Binary64.float_eqb translit_ru lower IMAGES_SRC_DIR five s
        = Ok (Fs (dirs s) (files s ++ outs.*1), mjoin outs.*2)
    ∧ Forall2 (exported _ translit_ru lower IMAGES_SRC_DIR)
        (groupby parent (cols_eqb _ Binary64.float_eqb) five) outs
    ∧ Forall (λ out, out.1.1.1 ∈ dirs s) outs.
Proof.
  assert (Hflat : flat Binary64.float (Fs [] [])) by constructor.
  destruct (import_ridges Binary64.float ridges (Fs [] [])) as [s|e] eqn:Hr;
    [|vm_compute in Hr; discriminate Hr].
  destruct (Summits.ridges_then_summits _ Binary64.float_eqb translit_ru lower
              IMAGES_SRC_DIR ridges five (Fs [] []) s ridges_plain Hflat Hr
              five_of_the_ridges)
    as (outs & H1 & H2 & H3).
  exists s, outs.
  split_and!; [exact ridges_plain|exact Hflat|reflexivity|exact five_of_the_ridges|done..].
Defined.

Lemma five_plain_names : Forall (λ r, plain_names _ (parent r)) five.
Proof.
  repeat apply Forall_cons_2; [..|apply Forall_nil_2];
    (split; [intros d [= <-]; exact plain_r1|first [exact plain_s1|exact plain_s2]]).
Qed.

Lemma export_summits_succeeds_iff_witness :
  Forall (λ r, plain_names _ (parent r)) five
  ∧ ((∃ res, Summits.export_summits _ Binary64.float_eqb translit_ru lower IMAGES_SRC_DIR
               five r1_only = Ok res)
     ↔ Forall (complete_group _ r1_only) (groupby parent (cols_eqb _ Binary64.float_eqb) five)).
Proof.
  split; [exact five_plain_names|].
  exact (Summits.export_summits_succeeds_iff _ Binary64.float_eqb translit_ru lower
           IMAGES_SRC_DIR five r1_only five_plain_names).
Defined.

Lemma document_keys_distinct_witness :
  ∃ s' tasks,
    Summits.export_summits _ Binary64.float_eqb translit_ru lower IMAGES_SRC_DIR five r1_only
      = Ok (s', tasks)
    ∧ ∃ docs, files s' = files r1_only ++ docs
        ∧ ∀ d file data, (d, file, SummitYaml data) ∈ docs → NoDup (ref_keys (d_images data)).
Proof.
  destruct (Summits.export_summits _ Binary64.float_eqb translit_ru lower IMAGES_SRC_DIR
              five r1_only) as [[s' tasks]|e] eqn:H.
  - exists s', tasks. split; [reflexivity|].
    exact (Summits.document_keys_distinct _ Binary64.float_eqb translit_ru lower
             IMAGES_SRC_DIR five r1_only s' tasks H).
  - vm_compute in H. discriminate H.
Defined.

Lemma five_groups :
  groupby parent (cols_eqb _ Binary64.float_eqb) five = [(peak xy, take 3 five); (crest, drop 3 five)].
Proof. vm_compute. reflexivity. Qed.

Lemma export_keys_distinct_witness :
  ∃ s' tasks,
    Summits.export_summits _ Binary64.float_eqb translit_ru lower IMAGES_SRC_DIR five r1_only
      = Ok (s', tasks)
    ∧ Forall (λ kg, "_"%char ∉ chars (str (summit_id _ kg.1)))
        (groupby parent (cols_eqb _ Binary64.float_eqb) five)
    ∧ NoDup ((λ kg, str (summit_id _ kg.1)) <$> groupby parent (cols_eqb _ Binary64.float_eqb) five)
    ∧ NoDup (keys tasks).
Proof.
  assert (H1 : Forall (λ kg : summit_cols Binary64.float * list (row Binary64.float),
                         "_"%char ∉ chars (str (summit_id _ kg.1)))
                 (groupby parent (cols_eqb _ Binary64.float_eqb) five)).
  { rewrite five_groups. repeat constructor; simpl; set_solver. }
  assert (H2 : NoDup ((λ kg : summit_cols Binary64.float * list (row Binary64.float),
                         str (summit_id _ kg.1))
                        <$> groupby parent (cols_eqb _ Binary64.float_eqb) five)).
  { rewrite five_groups. simpl. apply NoDup_cons. split; [set_solver|apply NoDup_singleton]. }
  destruct (Summits.export_summits _ Binary64.float_eqb translit_ru lower IMAGES_SRC_DIR
              five r1_only) as [[s' tasks]|e] eqn:H.
  - exists s', tasks. split_and!; [reflexivity|exact H1|exact H2|].
    exact (Summits.export_keys_distinct _ Binary64.float_eqb translit_ru lower
             IMAGES_SRC_DIR five r1_only s' tasks H H1 H2).
  - vm_compute in H. discriminate H.
Defined.

(** The five rows against an empty bucket, the tasks one after the other:
    the import returns, with the eight objects in the bucket. *)
Example import_summits_five_returns :
  match import_summits _ Binary64.float_eqb translit_ru lower ideal (one_by_one 8)
          IMAGES_SRC_DIR five r1_only ∅ with
  | Ok (s', r) => res_outcome r = Returned ∧ size (res_store r) = 8
  | Raise _ => False
  end.
Proof. vm_compute. split; reflexivity. Qed.

(** The same rows when [a3.jpg] is not on disk: the export writes its
    documents and queues the eight tasks, and the upload of the missing
    file raises. *)
Definition a3_missing (p : path) : option exn :=
  if decide (path_name p = "a3.jpg") then Some FileNotFoundError else None.

Example import_summits_missing_file :
  import_summits _ Binary64.float_eqb translit_ru lower (reading a3_missing) (one_by_one 8)
    IMAGES_SRC_DIR five r1_only ∅ = Raise FileNotFoundError
  ∧ match export_summits five r1_only with
    | Ok (s', tasks) => length (files s') = 2 ∧ length tasks = 8
    | Raise _ => False
    end.
Proof. split; [vm_compute; reflexivity|vm_compute; split; reflexivity]. Qed.

(** ** Three user rows *)

(** Of the files of the rows only [u1.jpg] is on disk. *)
Definition path_exists (p : path) : bool := bool_decide (path_name p = "u1.jpg").

Definition three_users : list Mirror.user_row :=
  [Mirror.UserRow 1 "g-1" 1 "Ann" (Some "u1.jpg") (Some "u1_p.jpg");
   Mirror.UserRow 2 "g-2" 1 "Bob" None None;
   Mirror.UserRow 1 "g-9" 2 "Ann again" None None].

Definition no_rows : Mirror.db := Mirror.Db ∅ [] [].

(** The three rows: one [user_images] row and one object, for the image
    that is on disk; the second row of the user 1 changes nothing. *)
Example three_users_imported :
  match Mirror.import_users path_exists ideal (one_by_one 1) IMAGES_SRC_DIR three_users
          no_rows ∅ with
  | Ok (d', r) =>
      res_outcome r = Returned
      ∧ Mirror.user_images d' = [Mirror.UserImage 1 "M" "users/1_M.jpg"]
      ∧ elements (res_store r) = ["users/1_M.jpg"]
      ∧ Mirror.users d' !! 1%Z = Some (Mirror.User "g-1" 1 "Ann")
      ∧ Mirror.users d' !! 2%Z = Some (Mirror.User "g-2" 1 "Bob")
  | Raise _ => False
  end.
Proof. vm_compute. split_and!; reflexivity. Qed.

Lemma users_first_row_wins_witness :
  ∃ d' r,
    Mirror.import_users path_exists ideal (one_by_one 1) IMAGES_SRC_DIR three_users no_rows ∅
      = Ok (d', r)
    ∧ (∀ id u, Mirror.users no_rows !! id = Some u → Mirror.users d' !! id = Some u)
    ∧ (∀ pre row post,
         three_users = pre ++ row :: post → Mirror.users no_rows !! Mirror.u_id row = None →
         Mirror.u_id row ∉ Mirror.u_id <$> pre →
         Mirror.users d' !! Mirror.u_id row = Some (Mirror.user_of row))
    ∧ (∀ id, Mirror.users d' !! id = None
             ↔ Mirror.users no_rows !! id = None ∧ id ∉ Mirror.u_id <$> three_users).
Proof.
  pose proof three_users_imported as Hok.
  destruct (Mirror.import_users path_exists ideal (one_by_one 1) IMAGES_SRC_DIR three_users
              no_rows ∅) as [[d' r]|e] eqn:H; [|destruct Hok].
  exists d', r. split; [reflexivity|].
  exact (Mirror.users_first_row_wins path_exists ideal (one_by_one 1) IMAGES_SRC_DIR
           three_users no_rows ∅ d' r H).
Defined.

Lemma user_images_match_uploads_witness :
  ∃ d' r,
    Mirror.import_users path_exists ideal (one_by_one 1) IMAGES_SRC_DIR three_users no_rows ∅
      = Ok (d', r)
    ∧ ∃ imgs tasks,
        Mirror.user_images d' = Mirror.user_images no_rows ++ imgs
        ∧ r = upload_images_bulk ideal (one_by_one 1) tasks ∅
        ∧ Forall2 (λ x t, Mirror.image_row_of path_exists ["M"; "S"] (Mirror.ui_user_id x) x t
                          ∧ is_Some (Mirror.users d' !! Mirror.ui_user_id x)
                          ∧ ∃ row, row ∈ three_users ∧ Mirror.u_id row = Mirror.ui_user_id x
                                   ∧ Mirror.truthy (Mirror.u_image row) = true) imgs tasks
        ∧ (NoDup (Mirror.u_id <$> three_users) → NoDup (keys tasks)).
Proof.
  pose proof three_users_imported as Hok.
  destruct (Mirror.import_users path_exists ideal (one_by_one 1) IMAGES_SRC_DIR three_users
              no_rows ∅) as [[d' r]|e] eqn:H; [|destruct Hok].
  exists d', r. split; [reflexivity|].
  exact (Mirror.user_images_match_uploads path_exists ideal (one_by_one 1) IMAGES_SRC_DIR
           three_users no_rows ∅ d' r H).
Defined.

End Scenario.
